(** * Sudoku puzzle engine: grid codec, conflict detection, carving, history

    A shallow embedding of the TypeScript sources
    - [src/utils/sudoku.ts]   ([parseGrid], [computeConflicts], ...),
    - the pack generator script ([seeded], [carve], [generateFallback]),
    - the game component ([snapshotOf], [applyWithHistory], [applyNumber],
      [clearCell], [undo], [redo], [createSession]),
    together with the properties the specification states about them.

    Conventions of the embedding.
    - A JavaScript [number] holding an integer is a [Z]; array indices and
      loop counters are [nat].  The two floating-point operations of the
      generator ([state / 0xffffffff] and [rand() * (i + 1)]) are IEEE-754
      binary64 operations and are modelled with the Standard Library's
      [SpecFloat] at precision 53.
    - A JavaScript string is a [string]; its characters are [ascii] code
      units.
    - [null] / [undefined] in an array of optional values is [None].
    - Writing past the end of a JavaScript array extends it; see [arr_set].
    - The [Map] and the [Set] of [computeConflicts] are only used through
      lookup, insertion and membership, so they are a [gmap] and a [gset]. *)

From Stdlib Require Import ZArith Ascii String DecimalString DecimalNat SpecFloat.
From stdpp Require Import base list sorting gmap.

Local Open Scope Z_scope.

Set Warnings "-clear-no-such-hyp".

(** ** JavaScript arrays *)

Module JsArray.

(** [arr[i]] : reading outside the array yields [undefined]. *)
Definition arr_get {A} (arr : list (option A)) (i : nat) : option A :=
  mjoin (arr !! i).

(** [arr[i] = v] : inside the array the slot is overwritten; past the end
    the array grows, the skipped slots being holes (read as [undefined]). *)
Definition arr_set {A} (hole : A) (arr : list A) (i : nat) (v : A) : list A :=
  if decide (i < length arr)%nat then <[i := v]> arr
  else arr ++ replicate (i - length arr) hole ++ [v].

(** [arr[k] = v] where the key [k] may be [undefined]: the assignment then
    creates the property ["undefined"] and leaves every element alone. *)
Definition arr_set_key {A} (hole : A) (arr : list A) (k : option nat) (v : A)
  : list A :=
  match k with
  | Some i => arr_set hole arr i v
  | None => arr
  end.

End JsArray.
Import JsArray.

(** ** Code that throws *)

Module Throwing.

(** A small error monad: a computation returns a value or throws. *)
Inductive result (E A : Type) : Type :=
| Ok (a : A)
| Throw (e : E).
Arguments Ok {E A} a.
Arguments Throw {E A} e.

#[global] Instance result_ret {E} : MRet (result E) := fun A a => Ok a.

#[global] Instance result_bind {E} : MBind (result E) := fun A B k r =>
  match r with
  | Ok a => k a
  | Throw e => Throw e
  end.

End Throwing.
Import Throwing.

(** ** [src/utils/sudoku.ts] *)

Module Sudoku.

Definition BOARD_SIZE : nat := 81.

(** The two [Error]s thrown by [parseGrid]. *)
Inductive FormatError : Type :=
| ExpectedChars (got : nat)
| InvalidGridCharacter (char : ascii).

(** [array.map(f)] for a callback that may throw: elements are visited in
    order and the first exception escapes. *)
Fixpoint map_throwing {E A B} (f : A -> result E B) (l : list A)
  : result E (list B) :=
  match l with
  | [] => mret []
  | a :: l' => b ← f a; bs ← map_throwing f l'; mret (b :: bs)
  end.

(** [Number(char)] on a one-character string: a decimal digit converts to
    its value, a white-space character to [0], anything else to [NaN]
    (here [None]). *)
Definition js_Number (char : ascii) : option Z :=
  let n := Z.of_nat (nat_of_ascii char) in
  if (48 <=? n) && (n <=? 57) then Some (n - 48)
  else if ((9 <=? n) && (n <=? 13)) || (n =? 32) || (n =? 160) then Some 0
  else None.

(** The callback of [parseGrid]. *)
Definition parse_char (char : ascii) : result FormatError (option Z) :=
  if decide (char = "."%char \/ char = "-"%char \/ char = "0"%char) then Ok None
  else
    match js_Number char with
    | None => Throw (InvalidGridCharacter char)
    | Some value =>
        if (value <? 1) || (9 <? value) then Throw (InvalidGridCharacter char)
        else Ok (Some value)
    end.

Definition parseGrid (grid : string) : result FormatError (list (option Z)) :=
  if decide (String.length grid ≠ BOARD_SIZE) then
    Throw (ExpectedChars (String.length grid))
  else map_throwing parse_char (list_ascii_of_string grid).

(** *** [computeConflicts] *)

(** First loop of [markGroup]: file every index of the group under the
    value its cell holds. *)
Definition group_step (values : list (option Z))
    (byValue : gmap Z (list nat)) (idx : nat) : gmap Z (list nat) :=
  match arr_get values idx with
  | None => byValue
  | Some value =>
      let list := default [] (byValue !! value) in
      <[value := list ++ [idx]]> byValue
  end.

Definition group_by_value (values : list (option Z)) (indices : list nat)
  : gmap Z (list nat) :=
  foldl (group_step values) ∅ indices.

(** Second loop of [markGroup]: add every list of two or more indices. *)
Definition add_dupes (dupes : list nat) (conflicts : gset nat) : gset nat :=
  if decide (1 < length dupes)%nat
  then foldl (fun conflicts idx => {[idx]} ∪ conflicts) conflicts dupes
  else conflicts.

Definition markGroup (values : list (option Z)) (indices : list nat)
    (conflicts : gset nat) : gset nat :=
  map_fold (fun _ dupes conflicts => add_dupes dupes conflicts) conflicts
           (group_by_value values indices).

Definition row_group (row : nat) : list nat :=
  (fun col => row * 9 + col)%nat <$> seq 0 9.

Definition col_group (col : nat) : list nat :=
  (fun row => row * 9 + col)%nat <$> seq 0 9.

Definition box_group (boxRow boxCol : nat) : list nat :=
  row ← seq 0 3; col ← seq 0 3; [((boxRow * 3 + row) * 9 + (boxCol * 3 + col))%nat].

Definition computeConflicts (values : list (option Z)) : gset nat :=
  let conflicts := ∅ in
  let conflicts :=
    foldl (fun c row => markGroup values (row_group row) c) conflicts (seq 0 9) in
  let conflicts :=
    foldl (fun c col => markGroup values (col_group col) c) conflicts (seq 0 9) in
  foldl (fun c boxRow =>
           foldl (fun c boxCol => markGroup values (box_group boxRow boxCol) c)
                 c (seq 0 3))
        conflicts (seq 0 3).

(** [rowColFromIndex] *)
Definition rowColFromIndex (index : nat) : nat * nat :=
  ((index / 9)%nat, (index mod 9)%nat).

End Sudoku.

(** ** The pack generator: [seeded], [carve] *)

Module Generator.

(** Binary64 numbers. *)
Definition prec : Z := 53.
Definition emax : Z := 1024.
Definition float := spec_float.

(** An integer as a binary64 number (exact below [2^53]). *)
Definition float_of_Z (z : Z) : float := binary_normalize prec emax z 0 false.

(** [Math.floor] of a non-negative finite number, as an integer. *)
Definition js_floor (x : float) : Z :=
  match x with
  | S754_finite false m e =>
      if 0 <=? e then Z.shiftl (Z.pos m) e else Z.shiftr (Z.pos m) (- e)
  | _ => 0
  end.

(** [x >>> 0] on an integer-valued number. *)
Definition to_uint32 (x : Z) : Z := x mod 2 ^ 32.

(** [state = (state * 1664525 + 1013904223) >>> 0].  The intermediate value
    stays below [2^53], so the double computation is exact. *)
Definition next_state (state : Z) : Z :=
  to_uint32 (state * 1664525 + 1013904223).

(** [return state / 0xffffffff] *)
Definition stream_value (state : Z) : float :=
  SFdiv prec emax (float_of_Z state) (float_of_Z 4294967295).

(** The closure returned by [seeded(seed)] is its hidden [state]; a call
    [rand()] updates the state and returns the stream value. *)
Definition seeded (seed : Z) : Z := to_uint32 seed.

Definition rand (state : Z) : float * Z :=
  let state' := next_state state in (stream_value state', state').

(** [Math.floor(rand() * (i + 1))] *)
Definition pick (r : float) (i : nat) : nat :=
  Z.to_nat (js_floor (SFmul prec emax r (float_of_Z (Z.of_nat i + 1)))).

(** [[indices[i], indices[j]] = [indices[j], indices[i]]] : both reads
    happen first, then [indices[i]] and [indices[j]] are written in turn. *)
Definition swap (indices : list (option nat)) (i j : nat) : list (option nat) :=
  let vj := arr_get indices j in
  let vi := arr_get indices i in
  arr_set None (arr_set None indices i vj) j vi.

(** [for (let i = indices.length - 1; i > 0; i -= 1) { ... }], entered with
    the loop counter [i]. *)
Fixpoint shuffle_loop (i : nat) (state : Z) (indices : list (option nat))
  : list (option nat) :=
  match i with
  | O => indices
  | S i' =>
      let '(r, state') := rand state in
      let j := pick r i in
      shuffle_loop i' state' (swap indices i j)
  end.

Definition shuffled (seed : Z) : list (option nat) :=
  let indices := Some <$> seq 0 81 in
  shuffle_loop (length indices - 1) (seeded seed) indices.

(** [for (let i = 0; i < blanks; i += 1) chars[indices[i]] = '.'] *)
Definition blank_loop (indices : list (option nat)) (blanks : nat)
    (chars : list (option ascii)) : list (option ascii) :=
  foldl (fun chars i => arr_set_key None chars (arr_get indices i) (Some "."%char))
        chars (seq 0 blanks).

(** [chars.join('')] : holes and [undefined] print as the empty string. *)
Definition join (chars : list (option ascii)) : string :=
  string_of_list_ascii (omap id chars).

Definition carve (solution : string) (blanks : nat) (seed : Z) : string :=
  let indices := shuffled seed in
  let chars := Some <$> list_ascii_of_string solution in
  join (blank_loop indices blanks chars).

(** *** [generateFallback] *)

Inductive Difficulty : Type := easy | medium | hard.

#[global] Instance Difficulty_eq_dec : EqDecision Difficulty.
Proof. solve_decision. Defined.

(** A difficulty inside a template literal. *)
Definition difficulty_name (difficulty : Difficulty) : string :=
  match difficulty with
  | easy => "easy"
  | medium => "medium"
  | hard => "hard"
  end.

(** A non-negative integer inside a template literal. *)
Definition decimal (n : nat) : string := NilEmpty.string_of_uint (Nat.to_uint n).

Record GeneratedPuzzle : Type := {
  id : string;
  difficulty : Difficulty;
  puzzle : string;
  solution : string
}.

Definition knownSolutions : list string := [
  "534678912672195348198342567859761423426853791713924856961537284287419635345286179";
  "417369825632158947958724316825437169791586432346912758289643571573291684164875293";
  "295743861431865927876192543387459216612387495549216738763524189928671354154938672"
]%string.

Definition blanksByDifficulty (difficulty : Difficulty) : nat :=
  match difficulty with
  | easy => 36
  | medium => 46
  | hard => 54
  end.

(** [knownSolutions[index % knownSolutions.length]]; the index is always
    inside the pool, the default string is never returned. *)
Definition known_solution (index : nat) : string :=
  nth (index mod length knownSolutions) knownSolutions ""%string.

Definition generateFallback (difficulty : Difficulty) (count : nat)
  : list GeneratedPuzzle :=
  (fun index =>
     let solution := known_solution index in
     {| id := difficulty_name difficulty ++ "-" ++ decimal (index + 1);
        difficulty := difficulty;
        puzzle := carve solution (blanksByDifficulty difficulty)
                        (Z.of_nat index + 11);
        solution := solution |})
  <$> seq 0 count.

End Generator.

(** ** The game component: sessions and their history *)

Module Session.
Import Sudoku.

Definition Difficulty := Generator.Difficulty.

Record Puzzle : Type := {
  id : string;
  difficulty : Difficulty;
  puzzle : string;
  solution : string
}.

Record Snapshot : Type := {
  snap_entries : list (option Z);
  snap_notes : list (list Z)
}.

Record GameSession : Type := {
  session_difficulty : Difficulty;
  puzzleIndex : Z;
  session_puzzle : Puzzle;
  givens : list bool;
  entries : list (option Z);
  notes : list (list Z);
  selected : option nat;
  notesMode : bool;
  undo : list Snapshot;
  redo : list Snapshot;
  elapsedSeconds : nat
}.

(** [notes.map((values) => [...values])] : a copy, equal to its source. *)
Definition cloneNotes (notes : list (list Z)) : list (list Z) :=
  (fun values => values) <$> notes.

Definition snapshotOf (session : GameSession) : Snapshot :=
  {| snap_entries := entries session;
     snap_notes := cloneNotes (notes session) |}.

(** What [createSession] can throw: the grid is malformed, or the pack has
    no puzzle to offer ([puzzle] is [undefined]). *)
Inductive SessionError : Type :=
| BadGrid (e : FormatError)
| NoPuzzle.

Section Packs.

(** The three puzzle packs are JSON data files of the repository; the
    component is modelled over any packs. *)
Variable puzzlePacks : Difficulty -> list Puzzle.

(** [((index % pack.length) + pack.length) % pack.length], with
    JavaScript's truncating remainder; [None] when the pack is empty (the
    remainder is then [NaN] and [pack[NaN]] is [undefined]). *)
Definition puzzleAt (difficulty : Difficulty) (index : Z) : option (Puzzle * Z) :=
  let pack := puzzlePacks difficulty in
  let len := Z.of_nat (length pack) in
  if decide (len = 0) then None
  else
    let safeIndex := Z.rem (Z.rem index len + len) len in
    p ← pack !! Z.to_nat safeIndex; Some (p, safeIndex).

Definition createSession (difficulty : Difficulty) (puzzleIndex : Z)
  : result SessionError GameSession :=
  match puzzleAt difficulty puzzleIndex with
  | None => Throw NoPuzzle
  | Some (puzzle, index) =>
      match parseGrid puzzle.(Session.puzzle) with
      | Throw e => Throw (BadGrid e)
      | Ok entries =>
          Ok {| session_difficulty := difficulty;
                puzzleIndex := index;
                session_puzzle := puzzle;
                givens := (fun value => bool_decide (value ≠ None)) <$> entries;
                entries := entries;
                notes := replicate 81 [];
                selected := None;
                notesMode := false;
                undo := [];
                redo := [];
                elapsedSeconds := 0 |}
      end
  end.

End Packs.

End Session.

Module App.
Import Sudoku Session.

(** Field updates of a session, [{ ...prev, field: value }]. *)
Definition with_board (s : GameSession) (e : list (option Z)) (n : list (list Z))
  : GameSession :=
  {| session_difficulty := session_difficulty s; puzzleIndex := puzzleIndex s;
     session_puzzle := session_puzzle s; givens := givens s;
     entries := e; notes := n;
     selected := selected s; notesMode := notesMode s;
     undo := Session.undo s; redo := Session.redo s;
     elapsedSeconds := elapsedSeconds s |}.

Definition with_history (s : GameSession) (u r : list Snapshot) : GameSession :=
  {| session_difficulty := session_difficulty s; puzzleIndex := puzzleIndex s;
     session_puzzle := session_puzzle s; givens := givens s;
     entries := entries s; notes := notes s;
     selected := selected s; notesMode := notesMode s;
     undo := u; redo := r;
     elapsedSeconds := elapsedSeconds s |}.

Definition with_selected (s : GameSession) (sel : option nat) : GameSession :=
  {| session_difficulty := session_difficulty s; puzzleIndex := puzzleIndex s;
     session_puzzle := session_puzzle s; givens := givens s;
     entries := entries s; notes := notes s;
     selected := sel; notesMode := notesMode s;
     undo := Session.undo s; redo := Session.redo s;
     elapsedSeconds := elapsedSeconds s |}.

Definition with_notesMode (s : GameSession) (b : bool) : GameSession :=
  {| session_difficulty := session_difficulty s; puzzleIndex := puzzleIndex s;
     session_puzzle := session_puzzle s; givens := givens s;
     entries := entries s; notes := notes s;
     selected := selected s; notesMode := b;
     undo := Session.undo s; redo := Session.redo s;
     elapsedSeconds := elapsedSeconds s |}.

Definition with_elapsedSeconds (s : GameSession) (t : nat) : GameSession :=
  {| session_difficulty := session_difficulty s; puzzleIndex := puzzleIndex s;
     session_puzzle := session_puzzle s; givens := givens s;
     entries := entries s; notes := notes s;
     selected := selected s; notesMode := notesMode s;
     undo := Session.undo s; redo := Session.redo s;
     elapsedSeconds := t |}.

(** Every handler passes an updater to [setSession]; an updater maps the
    previous session, possibly [null], to the next one. *)
Definition updater : Type := option GameSession -> option GameSession.

(** [applyWithHistory(mutator)].  The draft carries copies of the arrays of
    [prev]; [before] is taken from the draft before the mutator runs. *)
Definition applyWithHistory (mutator : GameSession -> GameSession) : updater :=
  fun prev =>
    match prev with
    | None => None
    | Some prev =>
        let draft := with_board prev (entries prev) (cloneNotes (notes prev)) in
        let before := snapshotOf draft in
        let draft := mutator draft in
        let pushed := Session.undo draft ++ [before] in
        let kept := if decide (200 < length pushed)%nat then drop 1 pushed else pushed in
        Some (with_history draft kept [])
    end.

(** [new Set(values)] followed by the toggle of [value] and the numeric
    sort of the spread set. *)
Definition toggle_note (values : list Z) (value : Z) : list Z :=
  let set := remove_dups values in
  let set := if decide (value ∈ set) then filter (fun v => v ≠ value) set
             else set ++ [value] in
  merge_sort Z.le set.

(** The mutator of [applyNumber]. *)
Definition applyNumber_mutator (value : Z) (draft : GameSession) : GameSession :=
  match selected draft with
  | None => draft
  | Some index =>
      if default false (givens draft !! index) then draft
      else if notesMode draft then
        with_board draft (entries draft)
          (arr_set [] (notes draft) index
             (toggle_note (default [] (notes draft !! index)) value))
      else
        with_board draft (arr_set None (entries draft) index (Some value))
                   (arr_set [] (notes draft) index [])
  end.

Definition applyNumber (value : Z) : updater :=
  applyWithHistory (applyNumber_mutator value).

(** The mutator of [clearCell]. *)
Definition clearCell_mutator (draft : GameSession) : GameSession :=
  match selected draft with
  | None => draft
  | Some index =>
      if default false (givens draft !! index) then draft
      else
        with_board draft (arr_set None (entries draft) index None)
                   (arr_set [] (notes draft) index [])
  end.

Definition clearCell : updater := applyWithHistory clearCell_mutator.

(** In [undo] and [redo] the test [stack.length === 0] and the read of
    [stack[stack.length - 1]] are one [last]; [stack.slice(0, -1)] keeps
    all but the last element. *)
Definition undo : updater := fun prev =>
  match prev with
  | None => None
  | Some prev =>
      match last (Session.undo prev) with
      | None => Some prev
      | Some previous =>
          let current := snapshotOf prev in
          Some (with_history
                  (with_board prev (snap_entries previous)
                              (cloneNotes (snap_notes previous)))
                  (take (length (Session.undo prev) - 1) (Session.undo prev))
                  (Session.redo prev ++ [current]))
      end
  end.

Definition redo : updater := fun prev =>
  match prev with
  | None => None
  | Some prev =>
      match last (Session.redo prev) with
      | None => Some prev
      | Some next =>
          let current := snapshotOf prev in
          Some (with_history
                  (with_board prev (snap_entries next)
                              (cloneNotes (snap_notes next)))
                  (Session.undo prev ++ [current])
                  (take (length (Session.redo prev) - 1) (Session.redo prev)))
      end
  end.

(** The remaining updaters of the component: the timer, the selection by
    click or arrow key, and the notes switch. *)
Definition tick : updater :=
  fmap (fun prev => with_elapsedSeconds prev (elapsedSeconds prev + 1)).

Definition select (index : nat) : updater :=
  fmap (fun prev => with_selected prev (Some index)).

Definition toggleNotesMode : updater :=
  fmap (fun prev => with_notesMode prev (negb (notesMode prev))).

(** [moveSelection(deltaRow, deltaCol)], as scheduled by the key handler
    that read [selected] from the session it was installed for. *)
Definition moveSelection (selected : option nat) (deltaRow deltaCol : Z) : updater :=
  let base := default 40%nat selected in
  let '(row, col) := rowColFromIndex base in
  let nextRow := Z.rem (Z.of_nat row + deltaRow + 9) 9 in
  let nextCol := Z.rem (Z.of_nat col + deltaCol + 9) 9 in
  fmap (fun prev => with_selected prev (Some (Z.to_nat (nextRow * 9 + nextCol)))).

(** The ways a session evolves. *)
Inductive Action : Type :=
| Tick
| Select (index : nat)
| MoveSelection (selected : option nat) (deltaRow deltaCol : Z)
| ToggleNotesMode
| ApplyNumber (value : Z)
| ClearCell
| Undo
| Redo.

Definition perform (a : Action) : updater :=
  match a with
  | Tick => tick
  | Select index => select index
  | MoveSelection sel dr dc => moveSelection sel dr dc
  | ToggleNotesMode => toggleNotesMode
  | ApplyNumber value => applyNumber value
  | ClearCell => clearCell
  | Undo => undo
  | Redo => redo
  end.

(** A run of the component: the handlers fire one after the other. *)
Definition run (actions : list Action) (s : option GameSession) : option GameSession :=
  foldl (fun s a => perform a s) s actions.

End App.

(** ** [src/utils/sudoku.ts], continued: [formatTime], [isSolved] *)

Module SudokuUtils.
Import Sudoku.

(** [s.padStart(targetLength, fill)] for a one-character [fill]. *)
Definition padStart (targetLength : nat) (fill : ascii) (s : string) : string :=
  (string_of_list_ascii (replicate (targetLength - String.length s) fill) ++ s)%string.

(** [formatTime(totalSeconds)] on a count of seconds. *)
Definition formatTime (totalSeconds : nat) : string :=
  let minutes := (totalSeconds / 60)%nat in
  let seconds := (totalSeconds mod 60)%nat in
  (padStart 2 "0" (Generator.decimal minutes) ++ ":"
   ++ padStart 2 "0" (Generator.decimal seconds))%string.

(** [Number(solution[idx])] : past the end of the string the character is
    [undefined] and the number is [NaN] (here [None]). *)
Definition Number_at (solution : string) (idx : nat) : option Z :=
  String.get idx solution ≫= js_Number.

(** [value === n] between a cell and a number: [null] equals no number, and
    [NaN] equals nothing. *)
Definition strict_equal (value : option Z) (n : option Z) : bool :=
  match value, n with
  | Some v, Some n => bool_decide (v = n)
  | _, _ => false
  end.

(** [values.every((value, idx) => value === Number(solution[idx]))], on an
    array without holes, as [parseGrid], a spread and [JSON.parse] return. *)
Definition isSolved (values : list (option Z)) (solution : string) : bool :=
  forallb id (imap (λ idx value, strict_equal value (Number_at solution idx)) values).

End SudokuUtils.

(** ** The game component, continued: screens and the win check *)

Module Screens.
Import Sudoku SudokuUtils Session.

Inductive Screen : Type := start | play | won.

#[global] Instance Screen_eq_dec : EqDecision Screen.
Proof. solve_decision. Defined.

(** The effect that watches [conflicts], [screen] and [session]: the screen
    it leaves behind.  [conflicts] is the memo [computeConflicts(entries)]. *)
Definition winEffect (screen : Screen) (session : option GameSession) : Screen :=
  match session with
  | None => screen
  | Some session =>
      if decide (screen ≠ play) then screen
      else
        let conflicts := computeConflicts (entries session) in
        let complete := forallb (λ value, bool_decide (value ≠ None)) (entries session) in
        if negb complete || bool_decide (0 < size conflicts)%nat then screen
        else if isSolved (entries session) (solution (session_puzzle session)) then won
        else screen
  end.

(** [startNew(difficulty, index)] and [backToStart()]: the session and the
    screen they set.  [createSession] may throw; nothing is set then. *)
Definition startNew (puzzlePacks : Difficulty → list Puzzle)
    (difficulty : Difficulty) (index : Z)
  : result SessionError (option GameSession * Screen) :=
  match createSession puzzlePacks difficulty index with
  | Throw e => Throw e
  | Ok session => Ok (Some session, play)
  end.

Definition backToStart : option GameSession * Screen := (None, start).

End Screens.

(** ** The game component, continued: the keyboard and the next puzzle *)

Module Keyboard.
Import Sudoku Session App Screens.

(** [event.key]: the character that a key produces, or the name of a key that
    produces none.  The handler tells six named keys apart; the names of the
    others begin with a capital letter and pass none of its tests. *)
Inductive Key : Type :=
| ArrowUp
| ArrowDown
| ArrowLeft
| ArrowRight
| Backspace
| Delete
| OtherNamed
| Character (c : ascii).

#[global] Instance Key_eq_dec : EqDecision Key.
Proof. solve_decision. Defined.

(** The handler [onKeyDown] of the effect that depends on [screen] and
    [session]: the update it schedules for a key, if any.  The handler is
    installed on the play screen only, for the session at hand. *)
Definition onKeyDown (screen : Screen) (session : option GameSession) (key : Key)
  : option Action :=
  match session with
  | None => None
  | Some session =>
      if decide (screen ≠ play) then None
      else
        let selected := selected session in
        match key with
        | ArrowUp => Some (MoveSelection selected (-1) 0)
        | ArrowDown => Some (MoveSelection selected 1 0)
        | ArrowLeft => Some (MoveSelection selected 0 (-1))
        | ArrowRight => Some (MoveSelection selected 0 1)
        | _ =>
            if decide (key = Character "n" ∨ key = Character "N") then
              Some ToggleNotesMode
            else
              match selected with
              | None => None
              | Some index =>
                  if default false (givens session !! index) then None
                  else
                    match key with
                    | Character c =>
                        let n := nat_of_ascii c in
                        if (49 <=? n)%nat && (n <=? 57)%nat then
                          ApplyNumber <$> js_Number c
                        else if decide (c = "0"%char) then Some ClearCell
                        else None
                    | Backspace | Delete => Some ClearCell
                    | _ => None
                    end
              end
        end
  end.

(** The session after a key is pressed. *)
Definition keystroke (screen : Screen) (key : Key) (session : option GameSession)
  : option GameSession :=
  match onKeyDown screen session key with
  | Some a => perform a session
  | None => session
  end.

(** The button [Next puzzle] of the won screen:
    [startNew(session.difficulty, session.puzzleIndex + 1)]. *)
Definition nextPuzzle (puzzlePacks : Difficulty → list Puzzle) (session : GameSession)
  : result SessionError (option GameSession * Screen) :=
  startNew puzzlePacks (session_difficulty session) (puzzleIndex session + 1).

End Keyboard.

(** ** The pack generator, continued: the engine path and [main] *)

Module Engine.
Import Generator.

(** One call of [getSudoku]: it throws, or returns a value that may be
    [null] or lack a field ([None]), or a record of two strings. *)
Inductive EngineCall : Type :=
| EngineThrows
| EngineReturns (generated : option (string * string)).

#[global] Instance EngineCall_eq_dec : EqDecision EngineCall.
Proof. solve_decision. Defined.

(** The character classes of the two regular expressions. *)
Definition is_digit19 (c : ascii) : bool :=
  let n := nat_of_ascii c in (49 <=? n)%nat && (n <=? 57)%nat.

Definition is_puzzle_char (c : ascii) : bool :=
  is_digit19 c || bool_decide (c = "."%char) || bool_decide (c = "-"%char).

(** [puzzle.replace(/[^1-9.-]/g, '').replace(/-/g, '.')] *)
Definition normalize_puzzle (puzzle : string) : string :=
  string_of_list_ascii
    ((λ c, if decide (c = "-"%char) then "."%char else c)
     <$> filter (λ c, is_puzzle_char c = true) (list_ascii_of_string puzzle)).

(** [solution.replace(/[^1-9]/g, '')] *)
Definition normalize_solution (solution : string) : string :=
  string_of_list_ascii (filter (λ c, is_digit19 c = true) (list_ascii_of_string solution)).

(** The loop of [generateWithEngine] run against the successive answers of
    the engine.  The loop only ends by reaching [count] items or by an
    exception of the engine; [None] says that the answers at hand were used up
    before either happened. *)
Fixpoint engine_loop (difficulty : Difficulty) (count : nat)
    (calls : list EngineCall) (items : list GeneratedPuzzle)
  : option (result unit (list GeneratedPuzzle)) :=
  if decide (length items < count)%nat then
    match calls with
    | [] => None
    | EngineThrows :: _ => Some (Throw ())
    | EngineReturns None :: calls' => engine_loop difficulty count calls' items
    | EngineReturns (Some (puzzle, solution)) :: calls' =>
        if decide (puzzle = EmptyString ∨ solution = EmptyString) then
          engine_loop difficulty count calls' items
        else
          let puzzle := normalize_puzzle puzzle in
          let solution := normalize_solution solution in
          if decide (String.length puzzle ≠ 81%nat ∨ String.length solution ≠ 81%nat) then
            engine_loop difficulty count calls' items
          else
            engine_loop difficulty count calls'
              (items ++ [{| id := difficulty_name difficulty ++ "-"
                                  ++ decimal (length items + 1);
                            difficulty := difficulty;
                            puzzle := puzzle;
                            solution := solution |}])
    end
  else Some (Ok items).

(** [generateWithEngine(difficulty, count)]; the dynamic import of the engine
    throws when the module is missing. *)
Definition generateWithEngine (available : bool) (difficulty : Difficulty)
    (count : nat) (calls : list EngineCall)
  : option (result unit (list GeneratedPuzzle)) :=
  if available then engine_loop difficulty count calls [] else Some (Throw ()).

Definition COUNT : nat := 40.

(** The body of the loop of [main] for one difficulty: the pack written to
    [puzzles.{difficulty}.json]. *)
Definition main_pack (available : bool) (difficulty : Difficulty)
    (calls : list EngineCall) : option (list GeneratedPuzzle) :=
  match generateWithEngine available difficulty COUNT calls with
  | None => None
  | Some (Ok puzzles) => Some puzzles
  | Some (Throw _) => Some (generateFallback difficulty COUNT)
  end.

(** A pack file read back by the component ([import ... from '....json']). *)
Definition loaded (pack : list GeneratedPuzzle) : list Session.Puzzle :=
  (λ p, {| Session.id := id p; Session.difficulty := difficulty p;
           Session.puzzle := puzzle p; Session.solution := solution p |}) <$> pack.

End Engine.

(** ** Vocabulary of the statements about [src/utils/sudoku.ts] *)

Module SudokuSpec.
Import Sudoku.

(** The alphabet of a grid string: the three blank characters and the
    digits ['1'] to ['9']. *)
Definition is_blank_char (c : ascii) : bool :=
  bool_decide (c = "."%char ∨ c = "-"%char ∨ c = "0"%char).

Definition digit_of_char (c : ascii) : option Z :=
  let n := Z.of_nat (nat_of_ascii c) in
  if (49 <=? n) && (n <=? 57) then Some (n - 48) else None.

Definition in_alphabet (c : ascii) : Prop :=
  is_blank_char c = true ∨ is_Some (digit_of_char c).

(** The cell a character of the alphabet stands for. *)
Definition cell_of_char (c : ascii) : option Z :=
  if is_blank_char c then None else digit_of_char c.

Definition well_formed (grid : string) : Prop :=
  String.length grid = 81%nat ∧ Forall in_alphabet (list_ascii_of_string grid).

(** Row, column and box of a flat index. *)
Definition row_of (i : nat) : nat := (i / 9)%nat.
Definition col_of (i : nat) : nat := (i mod 9)%nat.
Definition box_of (i : nat) : nat * nat := ((row_of i / 3)%nat, (col_of i / 3)%nat).

(** Two cells see each other when they share a row, a column or a box. *)
Definition same_unit (i j : nat) : Prop :=
  row_of i = row_of j ∨ col_of i = col_of j ∨ box_of i = box_of j.

#[global] Instance same_unit_dec i j : Decision (same_unit i j).
Proof. unfold same_unit. apply _. Defined.

(** The 27 groups in the order [computeConflicts] visits them. *)
Definition groups : list (list nat) :=
  (row_group <$> seq 0 9) ++ (col_group <$> seq 0 9)
  ++ (boxRow ← seq 0 3; boxCol ← seq 0 3; [box_group boxRow boxCol]).

(** Two indices lie together in one of the groups. *)
Definition share_group (i j : nat) : bool :=
  existsb (fun g => bool_decide (i ∈ g) && bool_decide (j ∈ g)) groups.

(** The indices of a group whose cell holds the value [v]. *)
Definition holders (values : list (option Z)) (v : Z) (indices : list nat) : list nat :=
  filter (fun idx => arr_get values idx = Some v) indices.

(** The cell at [idx] holds a value that another cell of the group holds. *)
Definition duplicated_in (values : list (option Z)) (indices : list nat)
    (idx : nat) : Prop :=
  idx ∈ indices ∧
  ∃ v, arr_get values idx = Some v ∧
       ∃ j, j ∈ indices ∧ j ≠ idx ∧ arr_get values j = Some v.

(** The cell at [i] holds a value that a cell it sees also holds. *)
Definition in_conflict (values : list (option Z)) (i : nat) : Prop :=
  ∃ v, values !! i = Some (Some v) ∧
       ∃ j, j ≠ i ∧ same_unit i j ∧ values !! j = Some (Some v).

End SudokuSpec.

(** ** The carving algorithm as the specification words it *)

Module CarveReference.
Import Generator.

(** The recurrence of the linear-congruential generator. *)
Definition lcg_next (state : Z) : Z := (state * 1664525 + 1013904223) mod 2 ^ 32.

(** The stream value of a state, [state / (2^32 - 1)], a binary64 number
    as in any implementation of the specification. *)
Definition unit_value (state : Z) : float :=
  SFdiv prec emax (float_of_Z state) (float_of_Z (2 ^ 32 - 1)).

(** The position a stream value selects among the first [i + 1]. *)
Definition position (u : float) (i : nat) : nat :=
  Z.to_nat (js_floor (SFmul prec emax u (float_of_Z (Z.of_nat i + 1)))).

(** Exchange the elements at two positions of a sequence; there is nothing
    to exchange when a position lies outside the sequence. *)
Definition exchange (order : list nat) (i j : nat) : list nat :=
  match order !! i, order !! j with
  | Some x, Some y => <[j := x]> (<[i := y]> order)
  | _, _ => order
  end.

(** Fisher-Yates from position [i] down to position 1, each step drawing
    the next value of the stream. *)
Fixpoint fisher_yates (i : nat) (state : Z) (order : list nat) : list nat :=
  match i with
  | O => order
  | S i' =>
      let state' := lcg_next state in
      fisher_yates i' state' (exchange order i (position (unit_value state') i))
  end.

(** The shuffled order of the indices 0..80 for a seed. *)
Definition shuffled_order (seed : Z) : list nat := fisher_yates 80 seed (seq 0 81).

(** Blank the characters of the solution at the given indices. *)
Definition blank_at (targets : list nat) (solution : string) : string :=
  string_of_list_ascii
    (imap (λ k c, if decide (k ∈ targets) then "."%char else c)
          (list_ascii_of_string solution)).

Definition carve_reference (solution : string) (blankCount : nat) (seed : Z) : string :=
  blank_at (take blankCount (shuffled_order seed)) solution.

End CarveReference.

(** ** Vocabulary of the statements about the generator *)

Module GeneratorSpec.
Import Generator.


(** The number of empty cells of a grid. *)
Definition empty_count (cells : list (option Z)) : nat :=
  length (filter (λ cell, cell = None) cells).

(** A complete solution string: 81 digits ['1'..'9']. *)
Definition is_solution (solution : string) : Prop :=
  String.length solution = 81%nat ∧
  Forall (λ c, is_Some (SudokuSpec.digit_of_char c)) (list_ascii_of_string solution).

(** The record of [generateFallback] at index [k]. *)
Definition fallback_record (difficulty : Difficulty) (k : nat) : GeneratedPuzzle :=
  {| id := difficulty_name difficulty ++ "-" ++ decimal (k + 1);
     difficulty := difficulty;
     puzzle := carve (known_solution k) (blanksByDifficulty difficulty)
                     (Z.of_nat k + 11);
     solution := known_solution k |}.

(** The seed whose first stream value is [1]:
    [(653637408 * 1664525 + 1013904223) mod 2^32 = 2^32 - 1]. *)
Definition unit_seed : Z := 653637408.

(** The positions [j] drawn by the shuffle loop entered with the counter [i],
    first draw first. *)
Fixpoint draws (i : nat) (state : Z) : list nat :=
  match i with
  | O => []
  | S i' => let '(r, state') := rand state in pick r i :: draws i' state'
  end.

(** Every swap of the shuffle stays inside the array of 81 indices. *)
Definition in_range (seed : Z) : Prop :=
  Forall (λ j, (j < 81)%nat) (draws 80 (seeded seed)).

(** The seeds whose first state is [2^32 - 1], the only state whose stream
    value is [1]. *)
Definition unit_class (seed : Z) : Prop := next_state (seeded seed) = 2 ^ 32 - 1.

#[global] Instance unit_class_dec (seed : Z) : Decision (unit_class seed).
Proof. unfold unit_class. apply _. Defined.

(** The first 80 indices of the shuffled order for such a seed. *)
Definition unit_order : list nat :=
  Eval vm_compute in take 80 (CarveReference.shuffled_order unit_seed).

(** The first of the known solutions. *)
Definition first_solution : string :=
  "534678912672195348198342567859761423426853791713924856961537284287419635345286179".

End GeneratorSpec.

(** ** Vocabulary of the statements about the history *)

Module HistorySpec.
Import Sudoku Session App.

(** A mutator that edits the board and leaves the two stacks of the draft
    alone, as the mutators of [applyNumber] and [clearCell] do. *)
Definition keeps_history (mutator : GameSession → GameSession) : Prop :=
  ∀ draft, Session.undo (mutator draft) = Session.undo draft.

(** [record] several times in a row: the final session. *)
Definition record_all (mutators : list (GameSession → GameSession))
    (s : option GameSession) : option GameSession :=
  foldl (λ s mutator, applyWithHistory mutator s) s mutators.

(** The snapshots taken by these [record]s, oldest first. *)
Fixpoint recorded (mutators : list (GameSession → GameSession))
    (s : option GameSession) : list Snapshot :=
  match mutators, s with
  | mutator :: rest, Some prev =>
      snapshotOf prev :: recorded rest (applyWithHistory mutator s)
  | _, _ => []
  end.

(** The newest [n] elements of a stack. *)
Definition keep_last {A} (n : nat) (stack : list A) : list A :=
  drop (length stack - n) stack.

(** The two stacks together hold at most 200 snapshots. *)
Definition stacks_bounded (s : GameSession) : Prop :=
  (length (Session.undo s) + length (Session.redo s) ≤ 200)%nat.

(** The board [(e, n)] agrees with the initial entries [e0] on every given
    cell and has no notes there. *)
Definition respects_givens (g : list bool) (e0 e : list (option Z))
    (n : list (list Z)) : Prop :=
  ∀ i, g !! i = Some true → e !! i = e0 !! i ∧ n !! i = Some [].

Definition snapshot_respects_givens (g : list bool) (e0 : list (option Z))
    (snap : Snapshot) : Prop :=
  respects_givens g e0 (snap_entries snap) (snap_notes snap).

(** The invariant of a session started from the entries [e0]: the givens
    are those of [e0], and the board and every snapshot of both stacks
    respect them. *)
Definition session_inv (e0 : list (option Z)) (s : GameSession) : Prop :=
  givens s = (λ value, bool_decide (value ≠ None)) <$> e0 ∧
  respects_givens (givens s) e0 (entries s) (notes s) ∧
  Forall (snapshot_respects_givens (givens s) e0) (Session.undo s) ∧
  Forall (snapshot_respects_givens (givens s) e0) (Session.redo s).

(** Sample data for the instances below: a pack of one puzzle, the session
    created from it, and a session whose two stacks are loaded. *)
Definition sample_puzzle : Puzzle :=
  {| id := "hard-1";
     difficulty := Generator.hard;
     puzzle := "..4..891.......3.819..4.56.8..76..2.......79.7.......6.6....2...87.19...3...8....";
     solution := "534678912672195348198342567859761423426853791713924856961537284287419635345286179" |}.

Definition sample_packs (difficulty : Difficulty) : list Puzzle := [sample_puzzle].

Definition sample_entries : list (option Z) :=
  SudokuSpec.cell_of_char <$> list_ascii_of_string (puzzle sample_puzzle).

Definition sample_session : GameSession :=
  {| session_difficulty := Generator.hard;
     puzzleIndex := 0;
     session_puzzle := sample_puzzle;
     givens := (λ value, bool_decide (value ≠ None)) <$> sample_entries;
     entries := sample_entries;
     notes := replicate 81 [];
     selected := None;
     notesMode := false;
     Session.undo := [];
     Session.redo := [];
     elapsedSeconds := 0 |}.

Definition sample_snapshot : Snapshot := snapshotOf sample_session.

(** A session with 200 undo snapshots and one redo snapshot. *)
Definition loaded_session : GameSession :=
  with_history sample_session (replicate 200 sample_snapshot) [sample_snapshot].

End HistorySpec.

(** ** Vocabulary of the statements about the component *)

Module ComponentSpec.
Import Sudoku Session App.

(** The character of a decimal digit. *)
Definition digit_char (n : nat) : ascii := ascii_of_nat (48 + n).

(** A clock reading [mm:ss], both fields on two digits. *)
Definition clock (minutes seconds : nat) : string :=
  String (digit_char (minutes / 10)) (String (digit_char (minutes mod 10))
    (String ":" (String (digit_char (seconds / 10))
       (String (digit_char (seconds mod 10)) EmptyString)))).

(** A board of 81 cells and 81 lists of notes. *)
Definition snapshot_shaped (snap : Snapshot) : Prop :=
  length (snap_entries snap) = 81%nat ∧ length (snap_notes snap) = 81%nat.

(** A session whose arrays all have 81 slots, in the board and in both
    stacks, and whose selection, if any, is a cell of the board. *)
Definition well_shaped (s : GameSession) : Prop :=
  length (givens s) = 81%nat ∧
  length (entries s) = 81%nat ∧
  length (notes s) = 81%nat ∧
  (∀ index, selected s = Some index → (index < 81)%nat) ∧
  Forall snapshot_shaped (Session.undo s) ∧
  Forall snapshot_shaped (Session.redo s).

(** The cells of the rendered board are the only ones that can be clicked. *)
Definition on_board (a : Action) : Prop :=
  match a with
  | Select index => (index < 81)%nat
  | _ => True
  end.

(** The two actions that go through [applyWithHistory]. *)
Definition is_edit (a : Action) : bool :=
  match a with
  | ApplyNumber _ | ClearCell => true
  | _ => false
  end.

Definition is_history_move (a : Action) : bool :=
  match a with
  | Undo | Redo => true
  | _ => false
  end.

Definition edit_count (actions : list Action) : nat :=
  length (filter (λ a, is_edit a = true) actions).

(** The cell reached from [index] by a move of [deltaRow] rows and
    [deltaCol] columns on a board that wraps around at its edges. *)
Definition wrapped_move (index : nat) (deltaRow deltaCol : Z) : nat :=
  Z.to_nat (((Z.of_nat (SudokuSpec.row_of index) + deltaRow) mod 9) * 9
            + (Z.of_nat (SudokuSpec.col_of index) + deltaCol) mod 9).

(** The sample session with every cell filled as in the solution. *)
Definition solved_session : GameSession :=
  with_board HistorySpec.sample_session
    (SudokuSpec.digit_of_char
       <$> list_ascii_of_string (solution HistorySpec.sample_puzzle))
    (notes HistorySpec.sample_session).

End ComponentSpec.

(** ** Vocabulary of the statements about the engine path *)

Module EngineSpec.
Import Generator Engine.

(** The answer of a call that the loop of [generateWithEngine] keeps, in
    its normalised form. *)
Definition accepted_answer (call : EngineCall) : option (string * string) :=
  match call with
  | EngineReturns (Some (puzzle, solution)) =>
      if decide (puzzle ≠ EmptyString ∧ solution ≠ EmptyString
                 ∧ String.length (normalize_puzzle puzzle) = 81%nat
                 ∧ String.length (normalize_solution solution) = 81%nat)
      then Some (normalize_puzzle puzzle, normalize_solution solution)
      else None
  | _ => None
  end.

Definition accepted (calls : list EngineCall) : list (string * string) :=
  omap accepted_answer calls.

(** The calls made before the engine first throws. *)
Fixpoint before_throw (calls : list EngineCall) : list EngineCall :=
  match calls with
  | [] => []
  | EngineThrows :: _ => []
  | call :: calls' => call :: before_throw calls'
  end.

(** The record pushed for the [k]-th kept answer, counting from 0. *)
Definition engine_record (difficulty : Difficulty) (k : nat)
    (answer : string * string) : GeneratedPuzzle :=
  {| id := difficulty_name difficulty ++ "-" ++ decimal (k + 1);
     difficulty := difficulty;
     puzzle := answer.1;
     solution := answer.2 |}.

End EngineSpec.

(** * Properties *)

(** ** The grid codec *)

Module CodecFacts.
Import Sudoku SudokuSpec.

(** The callback accepts exactly the alphabet and returns the cell the
    character stands for. *)
Lemma parse_char_alphabet (c : ascii) :
  match parse_char c with
  | Ok cell => in_alphabet c ∧ cell = cell_of_char c
  | Throw e => ¬ in_alphabet c ∧ e = InvalidGridCharacter c
  end.
Proof.
  destruct c as [[] [] [] [] [] [] [] []]; vm_compute;
    (split; [ first [ by left | by right; eexists
                    | intros [?|[? ?]]; discriminate ]
            | reflexivity ]).
Qed.

Lemma map_throwing_parse_char (chars : list ascii) :
  match map_throwing parse_char chars with
  | Ok cells => Forall in_alphabet chars ∧ cells = cell_of_char <$> chars
  | Throw e => ¬ Forall in_alphabet chars
  end.
Proof.
  induction chars as [|c chars IH]; simpl; [done|].
  pose proof (parse_char_alphabet c) as Hc.
  destruct (parse_char c) as [cell|e]; simpl.
  - destruct Hc as [Hc ->].
    destruct (map_throwing parse_char chars) as [cells|e]; simpl.
    + destruct IH as [IH ->]. by split; [constructor|].
    + intros Hall. by inversion Hall.
  - destruct Hc as [Hc _]. intros Hall. by inversion Hall.
Qed.

Lemma length_list_ascii_of_string (s : string) :
  length (list_ascii_of_string s) = String.length s.
Proof. induction s; simpl; congruence. Qed.

(** C6.  [parseGrid] succeeds exactly on the strings of 81 characters drawn
    from ['.'], ['-'], ['0'] and ['1'..'9']; on every other string it throws;
    a successful result has 81 cells, and cell [i] is the empty cell when
    character [i] is a blank and the digit's value otherwise. *)
Theorem parseGrid_succeeds_iff_well_formed (grid : string) :
  ((∃ cells, parseGrid grid = Ok cells) ↔ well_formed grid) ∧
  (¬ well_formed grid → ∃ e, parseGrid grid = Throw e) ∧
  (∀ cells, parseGrid grid = Ok cells →
     length cells = 81%nat ∧
     ∀ i c, list_ascii_of_string grid !! i = Some c →
            cells !! i = Some (cell_of_char c)).
Proof.
  unfold parseGrid, well_formed, BOARD_SIZE.
  pose proof (map_throwing_parse_char (list_ascii_of_string grid)) as Hmap.
  destruct (decide (String.length grid ≠ 81%nat)) as [Hlen|Hlen].
  - split_and!.
    + split; [by intros [? ?]|]. intros [? _]. done.
    + eauto.
    + done.
  - apply dec_stable in Hlen.
    destruct (map_throwing parse_char (list_ascii_of_string grid)) as [cells|e].
    + destruct Hmap as [Hall ->]. split_and!.
      * split; eauto.
      * intros Hnot. by destruct Hnot.
      * intros ? [= <-]. split.
        -- by rewrite length_fmap, length_list_ascii_of_string.
        -- intros i c Hi. by rewrite list_lookup_fmap, Hi.
    + split_and!.
      * split; [by intros [? ?]|]. intros [_ ?]. done.
      * eauto.
      * done.
Qed.

Lemma parseGrid_length (grid : string) (cells : list (option Z)) :
  parseGrid grid = Ok cells → length cells = 81%nat.
Proof.
  unfold parseGrid, BOARD_SIZE.
  pose proof (map_throwing_parse_char (list_ascii_of_string grid)) as Hmap.
  case_decide as Hlen; [done|].
  destruct (map_throwing parse_char (list_ascii_of_string grid)); [|done].
  destruct Hmap as [_ ->]. intros [= <-].
  by rewrite length_fmap, length_list_ascii_of_string.
Qed.

Lemma parseGrid_succeeds_iff_well_formed_witness :
  ∃ cells,
    parseGrid "53..7....6..195....98....6.8...6...34..8.3..17...2...6.6....28....419..5....8..79"
    = Ok cells ∧ length cells = 81%nat.
Proof.
  eexists. split; [vm_compute; reflexivity|].
  by apply (parseGrid_succeeds_iff_well_formed
    "53..7....6..195....98....6.8...6...34..8.3..17...2...6.6....28....419..5....8..79").
Defined.

End CodecFacts.

(** ** The conflict detector *)

Module ConflictFacts.
Import Sudoku SudokuSpec.

Section Group.
Variable values : list (option Z).

(** After the first loop the map holds, under each value, the indices of
    the group whose cell has that value, in the order of the group. *)
Lemma foldl_group_step_lookup (indices : list nat) (m : gmap Z (list nat)) (v : Z) :
  foldl (group_step values) m indices !! v =
    match holders values v indices with
    | [] => m !! v
    | l => Some (default [] (m !! v) ++ l)
    end.
Proof.
  revert m. induction indices as [|idx indices IH]; intros m; [done|].
  simpl. rewrite IH. unfold holders, group_step. rewrite filter_cons.
  destruct (arr_get values idx) as [w|] eqn:Hw.
  - destruct (decide (w = v)) as [->|Hne].
    + rewrite decide_True by done. rewrite lookup_insert_eq. simpl.
      destruct (filter _ indices); simpl; by rewrite <- ?(assoc_L (++)).
    + rewrite decide_False by congruence. by rewrite lookup_insert_ne.
  - by rewrite decide_False.
Qed.

Lemma group_by_value_lookup (indices : list nat) (v : Z) :
  group_by_value values indices !! v =
    match holders values v indices with
    | [] => None
    | l => Some l
    end.
Proof.
  unfold group_by_value. rewrite foldl_group_step_lookup, lookup_empty.
  by destruct (holders values v indices).
Qed.

Lemma elem_of_add_dupes (dupes : list nat) (conflicts : gset nat) (idx : nat) :
  idx ∈ add_dupes dupes conflicts ↔
  idx ∈ conflicts ∨ ((1 < length dupes)%nat ∧ idx ∈ dupes).
Proof.
  unfold add_dupes. case_decide as Hlen.
  - assert (∀ c : gset nat,
              idx ∈ foldl (λ c i, {[i]} ∪ c) c dupes ↔ idx ∈ c ∨ idx ∈ dupes)
      as Hfold.
    { clear Hlen. induction dupes as [|d dupes IH]; intros c; simpl.
      - set_solver.
      - rewrite IH. set_solver. }
    rewrite Hfold. naive_solver.
  - naive_solver.
Qed.

Lemma elem_of_mark_dupes (m : gmap Z (list nat)) (conflicts : gset nat) (idx : nat) :
  idx ∈ map_fold (λ _ dupes c, add_dupes dupes c) conflicts m ↔
  idx ∈ conflicts ∨
  ∃ v dupes, m !! v = Some dupes ∧ (1 < length dupes)%nat ∧ idx ∈ dupes.
Proof.
  apply (map_fold_weak_ind
           (λ c m, idx ∈ c ↔ idx ∈ conflicts ∨
              ∃ v dupes, m !! v = Some dupes ∧ (1 < length dupes)%nat ∧ idx ∈ dupes)).
  - split; [by left|]. intros [?|(v & d & Hv & _)]; [done|].
    by rewrite lookup_empty in Hv.
  - intros v dupes m' c Hfresh IH. rewrite elem_of_add_dupes, IH. split.
    + intros [[?|(w & d & Hw & ?)]|[? ?]].
      * by left.
      * right. exists w, d. split; [|done].
        rewrite lookup_insert_ne; [done|]. intros ->. congruence.
      * right. exists v, dupes. by rewrite lookup_insert_eq.
    + intros [?|(w & d & Hw & ?)]; [by left; left|].
      destruct (decide (v = w)) as [->|Hne].
      * rewrite lookup_insert_eq in Hw. injection Hw as <-. by right.
      * rewrite lookup_insert_ne in Hw by done. left; right. by exists w, d.
Qed.

(** A group with no repeated index: a value has two or more holders
    exactly when two different cells of the group hold it. *)
Lemma holders_duplicated (indices : list nat) (idx : nat) :
  NoDup indices →
  (∃ v, (1 < length (holders values v indices))%nat ∧ idx ∈ holders values v indices)
  ↔ duplicated_in values indices idx.
Proof.
  intros Hnd. unfold duplicated_in, holders. split.
  - intros (v & Hlen & Hin).
    apply list_elem_of_filter in Hin as [Hv Hin]. split; [done|].
    exists v. split; [done|].
    assert (NoDup (filter (λ i, arr_get values i = Some v) indices)) as Hnd'
      by by apply NoDup_filter.
    destruct (filter (λ i, arr_get values i = Some v) indices)
      as [|a [|b l]] eqn:Hf; simpl in Hlen; [lia|lia|].
    assert (a ≠ b) as Hab.
    { inversion Hnd' as [|?? Hnotin _]; subst. set_solver. }
    assert (a ∈ filter (λ i, arr_get values i = Some v) indices) as Ha
      by (rewrite Hf; set_solver).
    assert (b ∈ filter (λ i, arr_get values i = Some v) indices) as Hb
      by (rewrite Hf; set_solver).
    apply list_elem_of_filter in Ha as [? ?], Hb as [? ?].
    destruct (decide (a = idx)) as [->|?]; [exists b|exists a]; done.
  - intros (Hin & v & Hv & j & Hj & Hne & Hvj). exists v.
    assert (idx ∈ filter (λ i, arr_get values i = Some v) indices) as Hi'
      by by apply list_elem_of_filter.
    assert (j ∈ filter (λ i, arr_get values i = Some v) indices) as Hj'
      by by apply list_elem_of_filter.
    split; [|done].
    assert ([idx; j] ⊆+ filter (λ i, arr_get values i = Some v) indices) as Hsub.
    { apply NoDup_submseteq.
      - apply NoDup_cons. split; [set_solver|]. apply NoDup_singleton.
      - intros x Hx. set_solver. }
    apply submseteq_length in Hsub. simpl in Hsub. lia.
Qed.

Lemma elem_of_markGroup (indices : list nat) (conflicts : gset nat) (idx : nat) :
  NoDup indices →
  idx ∈ markGroup values indices conflicts ↔
  idx ∈ conflicts ∨ duplicated_in values indices idx.
Proof.
  intros Hnd. unfold markGroup.
  rewrite elem_of_mark_dupes, <- holders_duplicated by done.
  apply or_iff_compat_l. split.
  - intros (v & dupes & Hv & Hlen & Hin).
    rewrite group_by_value_lookup in Hv. exists v.
    destruct (holders values v indices); [done|]. by injection Hv as <-.
  - intros (v & Hlen & Hin). exists v, (holders values v indices).
    rewrite group_by_value_lookup.
    destruct (holders values v indices); [|done]. simpl in Hlen. lia.
Qed.

Lemma elem_of_foldl_markGroup (gs : list (list nat)) (conflicts : gset nat) (idx : nat) :
  Forall NoDup gs →
  idx ∈ foldl (λ c g, markGroup values g c) conflicts gs ↔
  idx ∈ conflicts ∨ ∃ g, g ∈ gs ∧ duplicated_in values g idx.
Proof.
  intros Hnd. revert conflicts.
  induction Hnd as [|g gs Hg Hgs IH]; intros conflicts; simpl.
  - set_solver.
  - rewrite IH, elem_of_markGroup by done. set_solver.
Qed.

Lemma computeConflicts_groups :
  computeConflicts values = foldl (λ c g, markGroup values g c) ∅ groups.
Proof. reflexivity. Qed.

End Group.

(** The geometry of the 27 groups, checked on the 81 x 81 pairs. *)
Lemma groups_NoDup : Forall NoDup groups.
Proof. apply (bool_decide_unpack _). vm_compute. reflexivity. Qed.

Lemma groups_bounded : Forall (Forall (λ i, i < 81)%nat) groups.
Proof. apply (bool_decide_unpack _). vm_compute. reflexivity. Qed.

Lemma share_group_same_unit_table :
  forallb (λ i, forallb (λ j, eqb (share_group i j) (bool_decide (same_unit i j)))
                        (seq 0 81)) (seq 0 81) = true.
Proof. vm_compute. reflexivity. Qed.

Lemma share_group_same_unit (i j : nat) :
  (i < 81)%nat → (j < 81)%nat → share_group i j = true ↔ same_unit i j.
Proof.
  intros Hi Hj. pose proof share_group_same_unit_table as Htab.
  rewrite forallb_forall in Htab.
  assert (In i (seq 0 81)) as Hi' by (apply in_seq; lia).
  specialize (Htab i Hi'). rewrite forallb_forall in Htab.
  assert (In j (seq 0 81)) as Hj' by (apply in_seq; lia).
  specialize (Htab j Hj'). apply eqb_prop in Htab. rewrite Htab.
  apply bool_decide_eq_true.
Qed.

Lemma share_group_spec (i j : nat) :
  share_group i j = true ↔ ∃ g, g ∈ groups ∧ i ∈ g ∧ j ∈ g.
Proof.
  unfold share_group. rewrite existsb_exists. split.
  - intros (g & Hg & Hij). apply andb_prop in Hij as [Hi Hj].
    apply bool_decide_eq_true in Hi, Hj.
    exists g. by rewrite list_elem_of_In.
  - intros (g & Hg & Hi & Hj). exists g. rewrite <- list_elem_of_In.
    split; [done|]. apply andb_true_intro. by rewrite !bool_decide_eq_true.
Qed.

Lemma group_member_bounded (g : list nat) (i : nat) :
  g ∈ groups → i ∈ g → (i < 81)%nat.
Proof.
  intros Hg Hi. pose proof groups_bounded as Hb.
  rewrite Forall_forall in Hb. specialize (Hb g Hg).
  rewrite Forall_forall in Hb. by apply Hb.
Qed.

(** [computeConflicts] on any array: the indices below 81 whose cell holds a
    value also held by another cell, below 81, of its row, column or box. *)
Lemma elem_of_computeConflicts (values : list (option Z)) (i : nat) :
  i ∈ computeConflicts values ↔
  ∃ v, arr_get values i = Some v ∧ (i < 81)%nat ∧
       ∃ j, j ≠ i ∧ (j < 81)%nat ∧ same_unit i j ∧ arr_get values j = Some v.
Proof.
  rewrite computeConflicts_groups, elem_of_foldl_markGroup by apply groups_NoDup.
  split.
  - intros [?|(g & Hg & Hi & v & Hv & j & Hj & Hne & Hvj)]; [set_solver|].
    pose proof (group_member_bounded g i Hg Hi).
    pose proof (group_member_bounded g j Hg Hj).
    exists v. split_and!; [done..|]. exists j. split_and!; [done..| |done].
    apply share_group_same_unit; [done..|]. apply share_group_spec. eauto.
  - intros (v & Hv & Hi & j & Hne & Hj & Hsame & Hvj). right.
    apply share_group_same_unit in Hsame; [|done..].
    apply share_group_spec in Hsame as (g & Hg & Hig & Hjg).
    exists g. split; [done|]. split; [done|]. exists v. split; [done|]. by exists j.
Qed.

Lemma arr_get_Some {A} (arr : list (option A)) (i : nat) (v : A) :
  arr_get arr i = Some v ↔ arr !! i = Some (Some v).
Proof.
  unfold arr_get. destruct (arr !! i) as [[?|]|]; simpl; naive_solver.
Qed.

(** C1.  On a grid of 81 cells [computeConflicts] returns exactly the
    indices whose cell holds a digit that another cell of the same row,
    column or box also holds.  Hence every cell sharing a value with a cell
    it sees is marked, however many cells share it; an empty cell is never
    marked; and a cell whose value occurs nowhere else in its row, column
    and box is never marked. *)
Theorem computeConflicts_exact (values : list (option Z)) :
  length values = 81%nat →
  (∀ i, i ∈ computeConflicts values ↔ in_conflict values i) ∧
  (∀ i, values !! i = Some None → i ∉ computeConflicts values) ∧
  (∀ i v, values !! i = Some (Some v) →
          (∀ j, j ≠ i → same_unit i j → values !! j ≠ Some (Some v)) →
          i ∉ computeConflicts values).
Proof.
  intros Hlen.
  assert (∀ i, i ∈ computeConflicts values ↔ in_conflict values i) as Hexact.
  { intros i. rewrite elem_of_computeConflicts. unfold in_conflict.
    setoid_rewrite arr_get_Some. split.
    - intros (v & Hv & _ & j & ? & _ & ? & ?). exists v. split; [done|]. by exists j.
    - intros (v & Hv & j & ? & ? & Hj). exists v.
      apply lookup_lt_Some in Hv as Hi. apply lookup_lt_Some in Hj as Hj'.
      split_and!; [done|lia|]. exists j. split_and!; [done|lia|done..]. }
  split_and!; [done|..].
  - intros i Hi. rewrite Hexact. intros (v & Hv & _). congruence.
  - intros i v Hi Huniq. rewrite Hexact. intros (w & Hw & j & Hne & Hsame & Hj).
    assert (w = v) as -> by congruence. by eapply Huniq.
Qed.

Lemma computeConflicts_exact_witness :
  length (Some 5 :: Some 5 :: replicate 79 (@None Z)) = 81%nat ∧
  (0%nat ∈ computeConflicts (Some 5 :: Some 5 :: replicate 79 None)
   ↔ in_conflict (Some 5 :: Some 5 :: replicate 79 None) 0).
Proof.
  split; [reflexivity|].
  exact (proj1 (computeConflicts_exact
                  (Some 5 :: Some 5 :: replicate 79 None) eq_refl) 0%nat).
Defined.

(** C9.  Each of the three known solutions parses to a grid of 81 cells,
    none of them empty, and [computeConflicts] finds no conflict in it. *)
Theorem knownSolutions_conflict_free :
  length Generator.knownSolutions = 3%nat ∧
  Forall (λ solution,
            ∃ cells, parseGrid solution = Ok cells ∧
                     length cells = 81%nat ∧
                     Forall is_Some cells ∧
                     computeConflicts cells = ∅)
         Generator.knownSolutions.
Proof.
  split; [reflexivity|].
  unfold Generator.knownSolutions.
  repeat apply Forall_cons_2; [..|apply Forall_nil_2];
    (eexists; split_and!;
     [ vm_compute; reflexivity
     | reflexivity
     | apply (bool_decide_unpack _); vm_compute; reflexivity
     | vm_compute; reflexivity ]).
Qed.

End ConflictFacts.

(** ** The undo/redo history *)

Module HistoryFacts.
Import Sudoku Session App HistorySpec.

Lemma cloneNotes_id (notes : list (list Z)) : cloneNotes notes = notes.
Proof. unfold cloneNotes. apply list_fmap_id. Qed.

Lemma snapshotOf_board (s : GameSession) (e : list (option Z)) (n : list (list Z)) :
  snapshotOf (with_board s e n) = {| snap_entries := e; snap_notes := n |}.
Proof. unfold snapshotOf. simpl. by rewrite cloneNotes_id. Qed.

Lemma take_pred_snoc {A} (l : list A) (x : A) :
  take (length (l ++ [x]) - 1) (l ++ [x]) = l.
Proof.
  rewrite length_app. simpl.
  replace (length l + 1 - 1)%nat with (length l) by lia.
  by rewrite take_app_length.
Qed.

(** [undo] on a stack [older ++ [snap]]. *)
Lemma undo_snoc (s : GameSession) (older : list Snapshot) (snap : Snapshot) :
  Session.undo s = older ++ [snap] →
  undo (Some s) =
    Some (with_history (with_board s (snap_entries snap) (snap_notes snap))
                       older (Session.redo s ++ [snapshotOf s])).
Proof.
  intros Hu. unfold undo. rewrite Hu, last_snoc, take_pred_snoc.
  by rewrite cloneNotes_id.
Qed.

Lemma undo_nil (s : GameSession) : Session.undo s = [] → undo (Some s) = Some s.
Proof. intros Hu. unfold undo. by rewrite Hu. Qed.

Lemma redo_snoc (s : GameSession) (older : list Snapshot) (snap : Snapshot) :
  Session.redo s = older ++ [snap] →
  redo (Some s) =
    Some (with_history (with_board s (snap_entries snap) (snap_notes snap))
                       (Session.undo s ++ [snapshotOf s]) older).
Proof.
  intros Hr. unfold redo. rewrite Hr, last_snoc, take_pred_snoc.
  by rewrite cloneNotes_id.
Qed.

Lemma redo_nil (s : GameSession) : Session.redo s = [] → redo (Some s) = Some s.
Proof. intros Hr. unfold redo. by rewrite Hr. Qed.

Lemma snoc_cases {A} (l : list A) : l = [] ∨ ∃ older x, l = older ++ [x].
Proof.
  induction l as [|x l _] using rev_ind; [by left|right; eauto].
Qed.

Lemma redo_undo (s : GameSession) :
  Session.undo s ≠ [] → redo (undo (Some s)) = Some s.
Proof.
  intros Hne. destruct (snoc_cases (Session.undo s)) as [?|(older & snap & Hu)]; [done|].
  rewrite (undo_snoc s older snap Hu).
  erewrite redo_snoc by reflexivity.
  destruct s, snap; simpl in *. unfold snapshotOf; simpl.
  rewrite !cloneNotes_id. by rewrite Hu.
Qed.

Lemma undo_redo (s : GameSession) :
  Session.redo s ≠ [] → undo (redo (Some s)) = Some s.
Proof.
  intros Hne. destruct (snoc_cases (Session.redo s)) as [?|(older & snap & Hr)]; [done|].
  rewrite (redo_snoc s older snap Hr).
  erewrite undo_snoc by reflexivity.
  destruct s, snap; simpl in *. unfold snapshotOf; simpl.
  rewrite !cloneNotes_id. by rewrite Hr.
Qed.

(** What [applyWithHistory] leaves behind: the mutated board, the snapshot
    of the previous board on top of the undo stack, an empty redo stack. *)
Lemma applyWithHistory_Some (mutator : GameSession → GameSession) (s : GameSession) :
  ∃ s', applyWithHistory mutator (Some s) = Some s' ∧
        entries s' = entries (mutator s) ∧
        notes s' = notes (mutator s) ∧
        givens s' = givens (mutator s) ∧
        Session.redo s' = [] ∧
        last (Session.undo s') = Some (snapshotOf s) ∧
        Session.undo s' =
          (let pushed := Session.undo (mutator s) ++ [snapshotOf s] in
           if decide (200 < length pushed)%nat then drop 1 pushed else pushed).
Proof.
  unfold applyWithHistory. rewrite cloneNotes_id.
  assert (with_board s (entries s) (notes s) = s) as -> by by destruct s.
  eexists. split; [reflexivity|]. simpl. split_and!; try done.
  case_decide as Hlen; [|by rewrite last_snoc].
  rewrite length_app in Hlen. simpl in Hlen.
  destruct (Session.undo (mutator s)) as [|a l]; [simpl in Hlen; lia|].
  change (drop 1 ((a :: l) ++ [snapshotOf s])) with (l ++ [snapshotOf s]).
  by rewrite last_snoc.
Qed.

(** C4.  [undo] on a non-empty undo stack pops the latest snapshot, makes
    it the current entries and notes, and pushes the replaced state on the
    redo stack; on an empty undo stack it changes nothing.  [redo] mirrors
    it, and each undoes the other.  A recorded action empties the redo
    stack: after two recorded actions an [undo] shows the board as it was
    before the second one and a [redo] brings the session after the second
    one back; a [redo] following a recorded action changes nothing, whatever
    was undone before. *)
Theorem history_is_linear (s : GameSession) :
  (∀ older snap, Session.undo s = older ++ [snap] →
     undo (Some s) =
       Some (with_history (with_board s (snap_entries snap) (snap_notes snap))
                          older (Session.redo s ++ [snapshotOf s]))) ∧
  (Session.undo s = [] → undo (Some s) = Some s) ∧
  (∀ older snap, Session.redo s = older ++ [snap] →
     redo (Some s) =
       Some (with_history (with_board s (snap_entries snap) (snap_notes snap))
                          (Session.undo s ++ [snapshotOf s]) older)) ∧
  (Session.redo s = [] → redo (Some s) = Some s) ∧
  (Session.undo s ≠ [] → redo (undo (Some s)) = Some s) ∧
  (Session.redo s ≠ [] → undo (redo (Some s)) = Some s) ∧
  (∀ mutator, ∃ s', applyWithHistory mutator (Some s) = Some s' ∧
                    Session.redo s' = []) ∧
  (∀ m1 m2, ∃ s1 s2 u,
     applyWithHistory m1 (Some s) = Some s1 ∧
     applyWithHistory m2 (Some s1) = Some s2 ∧
     undo (Some s2) = Some u ∧
     entries u = entries s1 ∧ notes u = notes s1 ∧
     redo (Some u) = Some s2) ∧
  (∀ mutator,
     redo (applyWithHistory mutator (undo (Some s)))
     = applyWithHistory mutator (undo (Some s))).
Proof.
  split_and!.
  - apply undo_snoc.
  - apply undo_nil.
  - apply redo_snoc.
  - apply redo_nil.
  - apply redo_undo.
  - apply undo_redo.
  - intros m. destruct (applyWithHistory_Some m s) as (s' & ? & ? & ? & ? & ? & ?).
    eauto.
  - intros m1 m2.
    destruct (applyWithHistory_Some m1 s) as (s1 & Hs1 & _).
    destruct (applyWithHistory_Some m2 s1) as (s2 & Hs2 & _ & _ & _ & _ & Hlast & _).
    destruct (snoc_cases (Session.undo s2)) as [Hnil|(older & snap & Hu)].
    { by rewrite Hnil in Hlast. }
    rewrite Hu, last_snoc in Hlast. injection Hlast as ->.
    exists s1, s2. eexists. split_and!; [done|done|by apply undo_snoc|..].
    + done.
    + simpl. by rewrite cloneNotes_id.
    + rewrite <- (undo_snoc s2 older _ Hu). apply redo_undo. rewrite Hu.
      by destruct older.
  - intros m. destruct (undo (Some s)) as [u|] eqn:Hundo.
    + destruct (applyWithHistory_Some m u) as (s' & -> & _ & _ & _ & Hredo & _).
      by apply redo_nil.
    + done.
Qed.

Lemma history_is_linear_witness :
  undo (Some loaded_session) =
    Some (with_history
            (with_board loaded_session (snap_entries sample_snapshot)
                        (snap_notes sample_snapshot))
            (replicate 199 sample_snapshot)
            [sample_snapshot; snapshotOf loaded_session]).
Proof.
  apply (proj1 (history_is_linear loaded_session)
               (replicate 199 sample_snapshot) sample_snapshot).
  reflexivity.
Defined.

(** *** The cap on the undo stack *)

Lemma applyNumber_mutator_keeps_history (value : Z) :
  keeps_history (applyNumber_mutator value).
Proof.
  intros d. unfold applyNumber_mutator.
  destruct (selected d); [|done].
  destruct (default false (givens d !! n)); [done|].
  by destruct (notesMode d).
Qed.

Lemma clearCell_mutator_keeps_history : keeps_history clearCell_mutator.
Proof.
  intros d. unfold clearCell_mutator.
  destruct (selected d); [|done].
  by destruct (default false (givens d !! n)).
Qed.

Lemma keep_last_push {A} (stack : list A) (x : A) :
  (length stack ≤ 200)%nat →
  (let pushed := stack ++ [x] in
   if decide (200 < length pushed)%nat then drop 1 pushed else pushed)
  = keep_last 200 (stack ++ [x]).
Proof.
  intros Hlen. unfold keep_last. simpl. rewrite length_app. simpl.
  case_decide.
  - by replace (length stack + 1 - 200)%nat with 1%nat by lia.
  - by replace (length stack + 1 - 200)%nat with 0%nat by lia.
Qed.

Lemma keep_last_length {A} (n : nat) (stack : list A) :
  length (keep_last n stack) = (length stack `min` n)%nat.
Proof. unfold keep_last. rewrite length_drop. lia. Qed.

Lemma keep_last_snoc {A} (n : nat) (stack : list A) (x : A) :
  keep_last (S n) (keep_last (S n) stack ++ [x]) = keep_last (S n) (stack ++ [x]).
Proof.
  unfold keep_last. rewrite !length_app, length_drop. simpl.
  destruct (decide (length stack ≤ S n)%nat) as [Hle|Hgt].
  - replace (length stack - S n)%nat with 0%nat by lia. simpl.
    by rewrite Nat.sub_0_r.
  - replace (length stack - (length stack - S n) + 1 - S n)%nat with 1%nat by lia.
    replace (length stack + 1 - S n)%nat with (S (length stack - S n)) by lia.
    rewrite !drop_app_le by (rewrite ?length_drop; lia).
    by rewrite drop_drop, Nat.add_1_r.
Qed.

(** One [record]: the snapshot is pushed, and the bottom of the stack is
    dropped when the push made it 201 high. *)
Lemma record_undo_stack (mutator : GameSession → GameSession) (s : GameSession) :
  keeps_history mutator →
  (length (Session.undo s) ≤ 200)%nat →
  ∃ s', applyWithHistory mutator (Some s) = Some s' ∧
        Session.redo s' = [] ∧
        Session.undo s' = keep_last 200 (Session.undo s ++ [snapshotOf s]) ∧
        (length (Session.undo s') ≤ 200)%nat.
Proof.
  intros Hkeep Hlen.
  destruct (applyWithHistory_Some mutator s) as (s' & Hs' & _ & _ & _ & Hredo & _ & Hundo).
  exists s'. rewrite Hkeep, keep_last_push in Hundo by done.
  split_and!; [done..|]. rewrite Hundo, keep_last_length. lia.
Qed.

Lemma keep_last_idemp {A} (n : nat) (stack : list A) :
  keep_last n (keep_last n stack) = keep_last n stack.
Proof.
  unfold keep_last. rewrite length_drop.
  by replace (length stack - (length stack - n) - n)%nat with 0%nat by lia.
Qed.

Lemma keep_last_app {A} (n : nat) (stack pushed : list A) :
  keep_last (S n) (keep_last (S n) stack ++ pushed) = keep_last (S n) (stack ++ pushed).
Proof.
  induction pushed as [|y pushed IH] using rev_ind.
  - by rewrite !app_nil_r, keep_last_idemp.
  - rewrite !app_assoc, <- keep_last_snoc, IH. apply keep_last_snoc.
Qed.

Lemma record_all_cons (m : GameSession → GameSession)
    (ms : list (GameSession → GameSession)) (s : option GameSession) :
  record_all (m :: ms) s = record_all ms (applyWithHistory m s).
Proof. reflexivity. Qed.

Lemma recorded_cons (m : GameSession → GameSession)
    (ms : list (GameSession → GameSession)) (s : GameSession) :
  recorded (m :: ms) (Some s)
  = snapshotOf s :: recorded ms (applyWithHistory m (Some s)).
Proof. reflexivity. Qed.

Lemma record_all_undo_stack (mutators : list (GameSession → GameSession))
    (s : GameSession) :
  Forall keeps_history mutators →
  (length (Session.undo s) ≤ 200)%nat →
  ∃ s', record_all mutators (Some s) = Some s' ∧
        Session.undo s'
        = keep_last 200 (Session.undo s ++ recorded mutators (Some s)).
Proof.
  intros Hall. revert s.
  induction Hall as [|m ms Hm Hms IH]; intros s Hlen.
  - exists s. split; [done|]. unfold keep_last. simpl.
    rewrite app_nil_r. by replace (length (Session.undo s) - 200)%nat with 0%nat by lia.
  - destruct (record_undo_stack m s Hm Hlen) as (s1 & Hs1 & _ & Hu1 & Hlen1).
    destruct (IH s1 Hlen1) as (s' & Hs' & Hu').
    exists s'. rewrite record_all_cons, recorded_cons, Hs1. split; [done|].
    rewrite Hu', Hu1, keep_last_app. by rewrite <- app_assoc.
Qed.

Lemma recorded_length (mutators : list (GameSession → GameSession)) (s : GameSession) :
  length (recorded mutators (Some s)) = length mutators.
Proof.
  revert s. induction mutators as [|m ms IH]; intros s; [done|].
  destruct (applyWithHistory_Some m s) as (s' & Hs' & _).
  rewrite recorded_cons, Hs'. simpl. by rewrite IH.
Qed.

(** *** Sessions reachable from a fresh one *)

Lemma createSession_Ok (packs : Difficulty → list Puzzle) (d : Difficulty)
    (idx : Z) (s0 : GameSession) :
  createSession packs d idx = Ok s0 →
  length (entries s0) = 81%nat ∧
  givens s0 = (λ value, bool_decide (value ≠ None)) <$> entries s0 ∧
  notes s0 = replicate 81 [] ∧
  Session.undo s0 = [] ∧ Session.redo s0 = [].
Proof.
  unfold createSession. destruct (puzzleAt packs d idx) as [[p i]|]; [|done].
  destruct (parseGrid (puzzle p)) as [cells|e] eqn:Hparse; [|done].
  intros [= <-]. simpl. split_and!; try done.
  by apply (CodecFacts.parseGrid_length (puzzle p)).
Qed.

Lemma perform_Some (a : Action) (s : GameSession) :
  ∃ s', perform a (Some s) = Some s'.
Proof.
  destruct a as [|index|sel dr dc| |value| | |]; simpl.
  - by eexists.
  - by eexists.
  - unfold moveSelection. destruct (rowColFromIndex _). by eexists.
  - by eexists.
  - by eexists.
  - by eexists.
  - unfold undo. destruct (last (Session.undo s)); by eexists.
  - unfold redo. destruct (last (Session.redo s)); by eexists.
Qed.

Lemma run_Some (actions : list Action) (s : GameSession) :
  ∃ s', run actions (Some s) = Some s'.
Proof.
  revert s. induction actions as [|a actions IH]; intros s; [by exists s|].
  destruct (perform_Some a s) as (s1 & Hs1).
  unfold run in *. simpl. rewrite Hs1. apply IH.
Qed.

(** The handlers that touch neither the board nor the stacks. *)
Lemma perform_frame (a : Action) (s s' : GameSession) :
  match a with Tick | Select _ | MoveSelection _ _ _ | ToggleNotesMode => True
          | _ => False end →
  perform a (Some s) = Some s' →
  givens s' = givens s ∧ entries s' = entries s ∧ notes s' = notes s ∧
  Session.undo s' = Session.undo s ∧ Session.redo s' = Session.redo s.
Proof.
  destruct a; try done; intros _; simpl.
  - by intros [= <-].
  - by intros [= <-].
  - unfold moveSelection. destruct (rowColFromIndex _). by intros [= <-].
  - by intros [= <-].
Qed.

Lemma undo_stacks (s s' : GameSession) :
  undo (Some s) = Some s' →
  s' = s ∨
  ∃ older snap, Session.undo s = older ++ [snap] ∧
    givens s' = givens s ∧
    entries s' = snap_entries snap ∧ notes s' = snap_notes snap ∧
    Session.undo s' = older ∧ Session.redo s' = Session.redo s ++ [snapshotOf s].
Proof.
  destruct (snoc_cases (Session.undo s)) as [Hnil|(older & snap & Hu)].
  - rewrite undo_nil by done. intros [= <-]. by left.
  - rewrite (undo_snoc s older snap Hu). intros [= <-]. right.
    exists older, snap. by split_and!.
Qed.

Lemma redo_stacks (s s' : GameSession) :
  redo (Some s) = Some s' →
  s' = s ∨
  ∃ older snap, Session.redo s = older ++ [snap] ∧
    givens s' = givens s ∧
    entries s' = snap_entries snap ∧ notes s' = snap_notes snap ∧
    Session.undo s' = Session.undo s ++ [snapshotOf s] ∧ Session.redo s' = older.
Proof.
  destruct (snoc_cases (Session.redo s)) as [Hnil|(older & snap & Hr)].
  - rewrite redo_nil by done. intros [= <-]. by left.
  - rewrite (redo_snoc s older snap Hr). intros [= <-]. right.
    exists older, snap. by split_and!.
Qed.

Lemma record_stacks_bounded (mutator : GameSession → GameSession) (s s' : GameSession) :
  keeps_history mutator →
  stacks_bounded s →
  applyWithHistory mutator (Some s) = Some s' →
  stacks_bounded s'.
Proof.
  unfold stacks_bounded. intros Hkeep Hb Hs'.
  destruct (record_undo_stack mutator s Hkeep) as (s1 & Hs1 & Hr & _ & Hlen); [lia|].
  assert (s1 = s') as -> by congruence. rewrite Hr. simpl. lia.
Qed.

Lemma perform_stacks_bounded (a : Action) (s s' : GameSession) :
  stacks_bounded s → perform a (Some s) = Some s' → stacks_bounded s'.
Proof.
  intros Hb Hs'. destruct a;
    try (pose proof (λ H, perform_frame _ s s' H Hs') as Hframe;
         destruct (Hframe I) as (_ & _ & _ & Hu & Hr);
         unfold stacks_bounded in *; by rewrite Hu, Hr).
  - by eapply record_stacks_bounded, Hs'; [apply applyNumber_mutator_keeps_history|].
  - by eapply record_stacks_bounded, Hs'; [apply clearCell_mutator_keeps_history|].
  - apply undo_stacks in Hs' as [->|(older & snap & Hu & _ & _ & _ & Hu' & Hr')]; [done|].
    unfold stacks_bounded in *. rewrite Hu', Hr'. rewrite Hu in Hb.
    rewrite !length_app in *. simpl in *. lia.
  - apply redo_stacks in Hs' as [->|(older & snap & Hr & _ & _ & _ & Hu' & Hr')]; [done|].
    unfold stacks_bounded in *. rewrite Hu', Hr'. rewrite Hr in Hb.
    rewrite !length_app in *. simpl in *. lia.
Qed.

Lemma run_snoc (actions : list Action) (a : Action) (s : option GameSession) :
  run (actions ++ [a]) s = perform a (run actions s).
Proof. unfold run. by rewrite foldl_snoc. Qed.

Lemma run_stacks_bounded (actions : list Action) (s s' : GameSession) :
  stacks_bounded s → run actions (Some s) = Some s' → stacks_bounded s'.
Proof.
  revert s'. induction actions as [|a actions IH] using rev_ind; intros s' Hb.
  - by intros [= <-].
  - rewrite run_snoc. destruct (run_Some actions s) as (s1 & Hs1). rewrite Hs1.
    apply perform_stacks_bounded. by apply IH.
Qed.

(** C5.  The undo stack never holds more than 200 snapshots.  In every
    session reachable from a freshly created one it holds at most 200, and
    each operation on the history of such a session (a recorded action,
    [undo], [redo]) returns a session where it still does.  The invariant
    behind this is that the two stacks together hold at most 200: it holds
    after [createSession] and every action keeps it, [redo] included, which
    moves a snapshot from one stack to the other.  A recorded action and
    [undo] moreover keep the undo stack within 200 from any session where it
    is.  A recorded action pushes the snapshot and, once the stack is 201
    high, drops the oldest one from the front; 250 recorded actions from an
    empty history leave exactly 200 snapshots, the oldest 50 gone, in the
    order they were taken. *)
Theorem undo_stack_cap :
  (∀ packs d idx s0 actions s,
     createSession packs d idx = Ok s0 →
     run actions (Some s0) = Some s →
     (length (Session.undo s) ≤ 200)%nat ∧ stacks_bounded s) ∧
  (∀ packs d idx s0 actions s,
     createSession packs d idx = Ok s0 →
     run actions (Some s0) = Some s →
     (∀ mutator, keeps_history mutator →
        ∃ s', applyWithHistory mutator (Some s) = Some s' ∧
              (length (Session.undo s') ≤ 200)%nat) ∧
     (∃ s', undo (Some s) = Some s' ∧ (length (Session.undo s') ≤ 200)%nat) ∧
     (∃ s', redo (Some s) = Some s' ∧ (length (Session.undo s') ≤ 200)%nat)) ∧
  (∀ value, keeps_history (applyNumber_mutator value)) ∧
  keeps_history clearCell_mutator ∧
  (∀ s mutator,
     keeps_history mutator →
     (length (Session.undo s) ≤ 200)%nat →
     ∃ s', applyWithHistory mutator (Some s) = Some s' ∧
           (length (Session.undo s') ≤ 200)%nat ∧
           Session.undo s' =
             (let pushed := Session.undo s ++ [snapshotOf s] in
              if decide (200 < length pushed)%nat then drop 1 pushed else pushed)) ∧
  (∀ s s',
     (length (Session.undo s) ≤ 200)%nat →
     undo (Some s) = Some s' →
     (length (Session.undo s') ≤ 200)%nat) ∧
  (∀ s s',
     stacks_bounded s → redo (Some s) = Some s' →
     stacks_bounded s' ∧ (length (Session.undo s') ≤ 200)%nat) ∧
  (∀ s mutators,
     Session.undo s = [] →
     length mutators = 250%nat →
     Forall keeps_history mutators →
     ∃ s', record_all mutators (Some s) = Some s' ∧
           length (Session.undo s') = 200%nat ∧
           Session.undo s' = drop 50 (recorded mutators (Some s))).
Proof.
  assert (Hreach : ∀ packs d idx s0 actions s,
     createSession packs d idx = Ok s0 →
     run actions (Some s0) = Some s →
     (length (Session.undo s) ≤ 200)%nat ∧ stacks_bounded s).
  { intros packs d idx s0 actions s Hs0 Hrun.
    apply createSession_Ok in Hs0 as (_ & _ & _ & Hu & Hr).
    assert (stacks_bounded s) as Hb.
    { eapply run_stacks_bounded, Hrun. unfold stacks_bounded.
      rewrite Hu, Hr. simpl. lia. }
    split; [|done]. unfold stacks_bounded in Hb. lia. }
  assert (Hundo : ∀ s s',
     (length (Session.undo s) ≤ 200)%nat →
     undo (Some s) = Some s' →
     (length (Session.undo s') ≤ 200)%nat).
  { intros s s' Hlen Hs'.
    apply undo_stacks in Hs' as [->|(older & snap & Hu & _ & _ & _ & -> & _)]; [done|].
    rewrite Hu, length_app in Hlen. lia. }
  assert (Hredo : ∀ s s',
     stacks_bounded s → redo (Some s) = Some s' →
     stacks_bounded s' ∧ (length (Session.undo s') ≤ 200)%nat).
  { intros s s' Hb Hs'.
    assert (stacks_bounded s') as Hb' by (by apply (perform_stacks_bounded Redo s s')).
    split; [done|]. unfold stacks_bounded in Hb'. lia. }
  split_and!.
  - exact Hreach.
  - intros packs d idx s0 actions s Hs0 Hrun.
    destruct (Hreach _ _ _ _ _ _ Hs0 Hrun) as [Hlen Hb].
    split_and!.
    + intros m Hkeep.
      destruct (record_undo_stack m s Hkeep Hlen) as (s' & Hs' & _ & _ & Hlen').
      by exists s'.
    + destruct (perform_Some Undo s) as [s' Hs']. exists s'. split; [done|].
      by apply (Hundo s s').
    + destruct (perform_Some Redo s) as [s' Hs']. exists s'. split; [done|].
      by apply (Hredo s s').
  - apply applyNumber_mutator_keeps_history.
  - apply clearCell_mutator_keeps_history.
  - intros s m Hkeep Hlen.
    destruct (record_undo_stack m s Hkeep Hlen) as (s' & Hs' & _ & Hu & Hlen').
    exists s'. split_and!; [done..|]. by rewrite keep_last_push.
  - exact Hundo.
  - exact Hredo.
  - intros s ms Hu Hlen Hall.
    destruct (record_all_undo_stack ms s Hall) as (s' & Hs' & Hu').
    { rewrite Hu. simpl. lia. }
    exists s'. rewrite Hu in Hu'. simpl in Hu'. unfold keep_last in Hu'.
    rewrite recorded_length, Hlen in Hu'. simpl in Hu'.
    split_and!; [done| |done].
    rewrite Hu', length_drop, recorded_length, Hlen. done.
Qed.

Lemma undo_stack_cap_witness :
  ∃ s', record_all (replicate 250 clearCell_mutator) (Some sample_session) = Some s' ∧
        length (Session.undo s') = 200%nat.
Proof.
  destruct (proj2 (proj2 (proj2 (proj2 (proj2 (proj2 (proj2 undo_stack_cap))))))
              sample_session (replicate 250 clearCell_mutator))
    as (s' & Hs' & Hlen & _).
  - reflexivity.
  - reflexivity.
  - apply Forall_replicate, clearCell_mutator_keeps_history.
  - exists s'. by split.
Defined.

(** C10.  When no cell is selected, or the selected cell is a given,
    [applyNumber] and [clearCell] leave entries and notes as they are and
    still push a snapshot of the current board, holding its entries and its
    notes, on the undo stack (dropping the oldest one past 200) and empty the
    redo stack. *)
Theorem idle_edit_is_recorded (s : GameSession) :
  (selected s = None ∨ ∃ index, selected s = Some index ∧ givens s !! index = Some true) →
  ∀ updater, (updater = clearCell ∨ ∃ value, updater = applyNumber value) →
  ∃ s' snap,
        updater (Some s) = Some s' ∧
        entries s' = entries s ∧
        notes s' = notes s ∧
        Session.redo s' = [] ∧
        snap = snapshotOf s ∧
        snap_entries snap = entries s ∧
        snap_notes snap = notes s ∧
        last (Session.undo s') = Some snap ∧
        Session.undo s' =
          (let pushed := Session.undo s ++ [snap] in
           if decide (200 < length pushed)%nat then drop 1 pushed else pushed).
Proof.
  intros Hidle updater Hupd.
  assert (∃ mutator, updater = applyWithHistory mutator ∧ mutator s = s)
    as (mutator & -> & Hm).
  { destruct Hupd as [->|[value ->]].
    - exists clearCell_mutator. split; [done|]. unfold clearCell_mutator.
      destruct Hidle as [->|(index & -> & ->)]; done.
    - exists (applyNumber_mutator value). split; [done|]. unfold applyNumber_mutator.
      destruct Hidle as [->|(index & -> & ->)]; done. }
  destruct (applyWithHistory_Some mutator s) as (s' & Hs' & He & Hn & _ & Hr & Hl & Hu).
  rewrite Hm in *. exists s', (snapshotOf s). split_and!; try done.
  simpl. apply cloneNotes_id.
Qed.

Lemma idle_edit_is_recorded_witness :
  ∃ s' snap,
    clearCell (Some sample_session) = Some s' ∧
    entries s' = entries sample_session ∧
    snap_entries snap = entries sample_session ∧
    snap_notes snap = notes sample_session ∧
    Session.undo s' = [snap].
Proof.
  destruct (idle_edit_is_recorded sample_session (or_introl eq_refl)
              clearCell (or_introl eq_refl))
    as (s' & snap & Hs' & He & _ & _ & _ & Hse & Hsn & _ & Hu).
  exists s', snap. by split_and!.
Defined.

(** *** Given cells *)

Lemma arr_set_lookup_ne {A} (hole : A) (arr : list A) (i j : nat) (v : A) :
  i ≠ j → is_Some (arr !! i) → arr_set hole arr j v !! i = arr !! i.
Proof.
  intros Hne Hi. unfold arr_set. case_decide.
  - by rewrite list_lookup_insert_ne.
  - apply lookup_app_l. by apply lookup_lt_is_Some.
Qed.

Lemma given_is_filled (e0 : list (option Z)) (i : nat) :
  ((λ value, bool_decide (value ≠ None)) <$> e0) !! i = Some true →
  is_Some (e0 !! i).
Proof.
  rewrite list_lookup_fmap. destruct (e0 !! i); [by eexists|done].
Qed.

(** A write to a cell that is not a given keeps the board in line with
    the givens. *)
Lemma respects_givens_write (e0 e : list (option Z)) (n : list (list Z))
    (index : nat) (value : option Z) (values : list Z) :
  let g := (λ value, bool_decide (value ≠ None)) <$> e0 in
  default false (g !! index) = false →
  respects_givens g e0 e n →
  respects_givens g e0 (arr_set None e index value) (arr_set [] n index values) ∧
  respects_givens g e0 e (arr_set [] n index values).
Proof.
  intros g Hfree Hresp.
  assert (∀ i, g !! i = Some true → i ≠ index) as Hne.
  { intros i Hi ->. by rewrite Hi in Hfree. }
  split; intros i Hi; destruct (Hresp i Hi) as [He Hn]; specialize (Hne i Hi).
  - rewrite !arr_set_lookup_ne; [done|done|by rewrite Hn|done|].
    rewrite He. by apply given_is_filled.
  - rewrite arr_set_lookup_ne; [done|done|by rewrite Hn].
Qed.

Lemma applyNumber_mutator_respects (value : Z) (e0 : list (option Z)) (d : GameSession) :
  givens d = (λ value, bool_decide (value ≠ None)) <$> e0 →
  respects_givens (givens d) e0 (entries d) (notes d) →
  givens (applyNumber_mutator value d) = givens d ∧
  respects_givens (givens d) e0 (entries (applyNumber_mutator value d))
                  (notes (applyNumber_mutator value d)).
Proof.
  intros Hg Hresp. unfold applyNumber_mutator.
  destruct (selected d) as [index|]; [|done].
  destruct (default false (givens d !! index)) eqn:Hfree; [done|].
  revert Hfree Hresp. rewrite Hg. intros Hfree Hresp.
  destruct (notesMode d); simpl; (split; [done|]).
  - exact (proj2 (respects_givens_write e0 _ _ index None _ Hfree Hresp)).
  - exact (proj1 (respects_givens_write e0 _ _ index _ _ Hfree Hresp)).
Qed.

Lemma clearCell_mutator_respects (e0 : list (option Z)) (d : GameSession) :
  givens d = (λ value, bool_decide (value ≠ None)) <$> e0 →
  respects_givens (givens d) e0 (entries d) (notes d) →
  givens (clearCell_mutator d) = givens d ∧
  respects_givens (givens d) e0 (entries (clearCell_mutator d))
                  (notes (clearCell_mutator d)).
Proof.
  intros Hg Hresp. unfold clearCell_mutator.
  destruct (selected d) as [index|]; [|done].
  destruct (default false (givens d !! index)) eqn:Hfree; [done|].
  revert Hfree Hresp. rewrite Hg. intros Hfree Hresp. simpl. split; [done|].
  exact (proj1 (respects_givens_write e0 _ _ index _ _ Hfree Hresp)).
Qed.

Lemma record_session_inv (mutator : GameSession → GameSession)
    (e0 : list (option Z)) (s s' : GameSession) :
  keeps_history mutator →
  (givens (mutator s) = givens s ∧
   respects_givens (givens s) e0 (entries (mutator s)) (notes (mutator s))) →
  session_inv e0 s →
  applyWithHistory mutator (Some s) = Some s' →
  session_inv e0 s'.
Proof.
  intros Hkeep [Hg Hresp] (Hg0 & Hb & Hu & Hr) Hs'.
  destruct (applyWithHistory_Some mutator s)
    as (s1 & Hs1 & He' & Hn' & Hg' & Hr' & _ & Hu').
  assert (s1 = s') as -> by congruence.
  unfold session_inv. rewrite Hg', Hg, He', Hn', Hr', Hu', Hkeep.
  split_and!; [done..| |by apply Forall_nil].
  assert (Forall (snapshot_respects_givens (givens s) e0)
                 (Session.undo s ++ [snapshotOf s])) as Hpushed.
  { apply Forall_app. split; [done|]. apply Forall_singleton.
    unfold snapshot_respects_givens, snapshotOf. simpl. by rewrite cloneNotes_id. }
  simpl. case_decide; [by apply Forall_drop|done].
Qed.

Lemma perform_session_inv (a : Action) (e0 : list (option Z)) (s s' : GameSession) :
  session_inv e0 s → perform a (Some s) = Some s' → session_inv e0 s'.
Proof.
  intros Hinv Hs'. destruct a as [|index|sel dr dc| |value| | |];
    try (pose proof (λ H, perform_frame _ s s' H Hs') as Hframe;
         destruct (Hframe I) as (Hg & He & Hn & Hu & Hr);
         unfold session_inv in *; by rewrite Hg, He, Hn, Hu, Hr).
  - eapply record_session_inv, Hs'; [apply applyNumber_mutator_keeps_history| |done].
    destruct Hinv as (Hg & Hb & _). by apply applyNumber_mutator_respects.
  - eapply record_session_inv, Hs'; [apply clearCell_mutator_keeps_history| |done].
    destruct Hinv as (Hg & Hb & _). by apply clearCell_mutator_respects.
  - destruct Hinv as (Hg & Hb & Hu & Hr).
    apply undo_stacks in Hs'
        as [->|(older & snap & Hus & Hg' & He' & Hn' & Hu' & Hr')]; [done|].
    rewrite Hus in Hu. apply Forall_app in Hu as [Holder Hsnap].
    rewrite Forall_singleton in Hsnap.
    unfold session_inv. rewrite Hg', He', Hn', Hu', Hr'.
    split_and!; [done|exact Hsnap|done|]. apply Forall_app. split; [done|].
    apply Forall_singleton. unfold snapshot_respects_givens, snapshotOf.
    simpl. by rewrite cloneNotes_id.
  - destruct Hinv as (Hg & Hb & Hu & Hr).
    apply redo_stacks in Hs'
        as [->|(older & snap & Hrs & Hg' & He' & Hn' & Hu' & Hr')]; [done|].
    rewrite Hrs in Hr. apply Forall_app in Hr as [Holder Hsnap].
    rewrite Forall_singleton in Hsnap.
    unfold session_inv. rewrite Hg', He', Hn', Hu', Hr'.
    split_and!; [done|exact Hsnap| |done]. apply Forall_app. split; [done|].
    apply Forall_singleton. unfold snapshot_respects_givens, snapshotOf.
    simpl. by rewrite cloneNotes_id.
Qed.

Lemma run_session_inv (actions : list Action) (e0 : list (option Z))
    (s s' : GameSession) :
  session_inv e0 s → run actions (Some s) = Some s' → session_inv e0 s'.
Proof.
  revert s'. induction actions as [|a actions IH] using rev_ind; intros s' Hinv.
  - by intros [= <-].
  - rewrite run_snoc. destruct (run_Some actions s) as (s1 & Hs1). rewrite Hs1.
    apply perform_session_inv. by apply IH.
Qed.

Lemma createSession_session_inv (packs : Difficulty → list Puzzle)
    (d : Difficulty) (idx : Z) (s0 : GameSession) :
  createSession packs d idx = Ok s0 → session_inv (entries s0) s0.
Proof.
  intros Hs0. apply createSession_Ok in Hs0 as (Hlen & Hg & Hn & Hu & Hr).
  unfold session_inv. rewrite Hu, Hr. split_and!; [done| |done..].
  intros i Hi. split; [done|]. rewrite Hn. apply lookup_replicate_2.
  rewrite Hg in Hi. apply given_is_filled, lookup_lt_is_Some in Hi. lia.
Qed.

(** C8.  Every handler keeps the invariant of the session: the givens are
    the same flags, every given cell holds its initial entry and no note,
    on the board and in every snapshot of the two stacks.  So in any
    session reachable from a freshly created one, whatever numbers were
    applied, notes toggled, cells cleared, and steps undone or redone, a
    given cell holds the entry it was created with and carries no note. *)
Theorem givens_are_immutable :
  (∀ a e0 s s',
     session_inv e0 s → perform a (Some s) = Some s' → session_inv e0 s') ∧
  (∀ packs d idx s0 actions,
     createSession packs d idx = Ok s0 →
     ∃ s, run actions (Some s0) = Some s ∧
          givens s = givens s0 ∧
          ∀ i, givens s0 !! i = Some true →
               entries s !! i = entries s0 !! i ∧ notes s !! i = Some []).
Proof.
  split; [apply perform_session_inv|].
  intros packs d idx s0 actions Hs0.
  destruct (run_Some actions s0) as (s & Hrun). exists s. split; [done|].
  pose proof (createSession_session_inv packs d idx s0 Hs0) as Hinv0.
  pose proof (run_session_inv actions _ s0 s Hinv0 Hrun) as (Hg & Hb & _).
  destruct Hinv0 as (Hg0 & _).
  assert (givens s = givens s0) as Hgg by congruence.
  split; [done|]. intros i Hi. apply Hb. by rewrite Hgg.
Qed.

Lemma givens_are_immutable_witness :
  ∃ s, run [Select 2; ApplyNumber 7; Select 0; ToggleNotesMode; ApplyNumber 3;
            ClearCell; Undo; Undo; Redo]
           (Some sample_session) = Some s ∧
       givens s = givens sample_session ∧
       (entries s !! 2%nat = entries sample_session !! 2%nat ∧
        notes s !! 2%nat = Some []).
Proof.
  destruct (proj2 givens_are_immutable sample_packs Generator.hard 0 sample_session
              [Select 2; ApplyNumber 7; Select 0; ToggleNotesMode; ApplyNumber 3;
               ClearCell; Undo; Undo; Redo])
    as (s & Hrun & Hg & Hcells).
  - vm_compute. reflexivity.
  - exists s. split; [done|]. split; [done|]. apply Hcells. vm_compute. reflexivity.
Defined.

End HistoryFacts.

(** ** The binary64 arithmetic of the generator *)

Module FloatFacts.
Import Generator.

(** The facts below follow the rounding of [SpecFloat] far enough to bound
    the position drawn at each step of the shuffle: a result never exceeds
    a binary64 number that the exact value lies below. *)

Lemma digits2_pos_bounds (p : positive) :
  2 ^ (Z.pos (digits2_pos p) - 1) ≤ Z.pos p < 2 ^ Z.pos (digits2_pos p).
Proof.
  induction p as [p IH|p IH|]; simpl digits2_pos.
  - rewrite Pos2Z.inj_succ, (Pos2Z.inj_xI p).
    replace (Z.succ (Z.pos (digits2_pos p)) - 1) with (Z.succ (Z.pos (digits2_pos p) - 1)) by lia.
    rewrite !Z.pow_succ_r by lia.
    revert IH. generalize (2 ^ (Z.pos (digits2_pos p) - 1)) (2 ^ Z.pos (digits2_pos p)). lia.
  - rewrite Pos2Z.inj_succ, (Pos2Z.inj_xO p).
    replace (Z.succ (Z.pos (digits2_pos p)) - 1) with (Z.succ (Z.pos (digits2_pos p) - 1)) by lia.
    rewrite !Z.pow_succ_r by lia.
    revert IH. generalize (2 ^ (Z.pos (digits2_pos p) - 1)) (2 ^ Z.pos (digits2_pos p)). lia.
  - simpl. lia.
Qed.

Lemma Zdigits2_bounds (m : Z) :
  0 < m → 2 ^ (Zdigits2 m - 1) ≤ m < 2 ^ Zdigits2 m.
Proof. destruct m as [|p|p]; try lia. intros _. apply digits2_pos_bounds. Qed.

Lemma Zdigits2_unique (m d : Z) :
  2 ^ (d - 1) ≤ m < 2 ^ d → 0 < d → Zdigits2 m = d.
Proof.
  intros [Hlo Hhi] Hd.
  assert (0 < m) as Hm by (pose proof (Z.pow_pos_nonneg 2 (d - 1)); lia).
  destruct (Zdigits2_bounds m Hm) as [Hlo' Hhi'].
  assert (0 < Zdigits2 m) as Hd' by (destruct m; simpl; lia).
  assert (d - 1 < Zdigits2 m) by (apply (Z.pow_lt_mono_r_iff 2); lia).
  assert (Zdigits2 m - 1 < d) by (apply (Z.pow_lt_mono_r_iff 2); lia).
  lia.
Qed.

Lemma shr_1_m (mrs : shr_record) :
  0 ≤ shr_m mrs → shr_m (shr_1 mrs) = shr_m mrs / 2 ∧ 0 ≤ shr_m (shr_1 mrs).
Proof.
  destruct mrs as [m r s]. cbn [shr_m]. intros Hm.
  destruct m as [|[p|p|]|p]; cbn [shr_1 shr_m]; [done| | |done|lia].
  - split; [|lia]. rewrite (Pos2Z.inj_xI p).
    apply Z.div_unique with 1; lia.
  - split; [|lia]. rewrite (Pos2Z.inj_xO p).
    apply Z.div_unique with 0; lia.
Qed.

Lemma iter_pos_shr_1_m (k : positive) (mrs : shr_record) :
  0 ≤ shr_m mrs →
  shr_m (SpecFloat.iter_pos shr_1 k mrs) = shr_m mrs / 2 ^ Z.pos k ∧
  0 ≤ shr_m (SpecFloat.iter_pos shr_1 k mrs).
Proof.
  revert mrs. induction k as [k IH|k IH|]; intros mrs Hm; simpl SpecFloat.iter_pos.
  - destruct (shr_1_m mrs Hm) as [E1 P1].
    destruct (IH _ P1) as [E2 P2]. destruct (IH _ P2) as [E3 P3].
    split; [|done]. rewrite E3, E2, E1.
    rewrite !Z.div_div by (try apply Z.pow_pos_nonneg; lia).
    f_equal. rewrite (Pos2Z.inj_xI k).
    replace (2 * Z.pos k + 1) with (1 + Z.pos k + Z.pos k) by lia.
    rewrite !Z.pow_add_r by lia. lia.
  - destruct (IH _ Hm) as [E2 P2]. destruct (IH _ P2) as [E3 P3].
    split; [|done]. rewrite E3, E2.
    rewrite !Z.div_div by (try apply Z.pow_pos_nonneg; lia).
    f_equal. rewrite (Pos2Z.inj_xO k).
    replace (2 * Z.pos k) with (Z.pos k + Z.pos k) by lia.
    rewrite !Z.pow_add_r by lia. lia.
  - destruct (shr_1_m mrs Hm) as [E1 P1]. split; [|done]. by rewrite E1.
Qed.

Lemma shr_m_of_loc (m : Z) (l : location) : shr_m (shr_record_of_loc m l) = m.
Proof. by destruct l as [|[]]. Qed.

(** Shifting to the canonical exponent: the mantissa loses its
    [digits - 53] low bits, the exponent grows by as much. *)
Lemma shr_fexp_m (m e : Z) (l : location) :
  0 < m → -1074 ≤ Zdigits2 m + e - 53 →
  ∃ mrs, shr_fexp prec emax m e l = (mrs, e + Z.max (Zdigits2 m - 53) 0) ∧
         shr_m mrs = m / 2 ^ Z.max (Zdigits2 m - 53) 0.
Proof.
  intros Hm He. unfold shr_fexp, shr, fexp, emin, prec, emax.
  replace (Z.max (Zdigits2 m + e - 53) (3 - 1024 - 53) - e) with (Zdigits2 m - 53) by lia.
  destruct (Zdigits2 m - 53) as [|p|p]; simpl Z.max.
  - eexists. split; [by rewrite Z.add_0_r|].
    by rewrite shr_m_of_loc, Z.div_1_r.
  - eexists. split; [reflexivity|].
    destruct (iter_pos_shr_1_m p (shr_record_of_loc m l)) as [E _].
    { rewrite shr_m_of_loc. lia. }
    by rewrite E, shr_m_of_loc.
  - eexists. split; [by rewrite Z.add_0_r|].
    by rewrite shr_m_of_loc, Z.div_1_r.
Qed.

Lemma round_nearest_even_bounds (m : Z) (l : location) :
  m ≤ round_nearest_even m l ≤ m + 1.
Proof. destruct l as [|[]]; simpl; try lia. destruct (Z.even m); lia. Qed.

Lemma binary_round_aux_le (mx ex : Z) (lx : location) (b j : Z) :
  0 < mx → 53 ≤ Zdigits2 mx → -1074 ≤ ex → ex + j ≤ 900 →
  0 < b < 2 ^ 53 → 0 ≤ j → mx < b * 2 ^ j →
  ∃ m' t, binary_round_aux prec emax false mx ex lx = S754_finite false m' (ex + t) ∧
          0 ≤ t ∧ Z.pos m' * 2 ^ t ≤ b * 2 ^ j ∧ 2 ^ 52 ≤ Z.pos m'.
Proof.
  intros Hmx Hd Hex Hex' Hb Hj Hlt.
  destruct (Zdigits2_bounds mx Hmx) as [Hlo Hhi].
  set (k := Zdigits2 mx - 53) in *.
  assert (0 ≤ k) as Hk by lia.
  replace (Zdigits2 mx - 1) with (52 + k) in Hlo by lia.
  replace (Zdigits2 mx) with (53 + k) in Hhi by lia.
  rewrite Z.pow_add_r in Hlo, Hhi by lia.
  assert (0 < 2 ^ k) as HP by (apply Z.pow_pos_nonneg; lia).
  (* the bound lies on the grid of the rounded mantissa *)
  assert (k ≤ j) as Hkj.
  { assert (2 ^ (52 + k) < 2 ^ (53 + j)) as Hpow.
    { rewrite !Z.pow_add_r by lia.
      assert (0 < 2 ^ j) by (apply Z.pow_pos_nonneg; lia). nia. }
    apply Z.pow_lt_mono_r_iff in Hpow; lia. }
  assert (2 ^ j = 2 ^ (j - k) * 2 ^ k) as Hjk.
  { rewrite <- Z.pow_add_r by lia. f_equal. lia. }
  assert (0 < 2 ^ (j - k)) as HQ by (apply Z.pow_pos_nonneg; lia).
  (* first shift *)
  destruct (shr_fexp_m mx ex lx Hmx) as (mrs1 & Hshr1 & Hm1); [lia|].
  fold k in Hshr1, Hm1. rewrite Z.max_l in Hshr1, Hm1 by lia.
  assert (2 ^ 52 ≤ shr_m mrs1) as Hm1lo.
  { rewrite Hm1. apply Z.div_le_lower_bound; lia. }
  assert (shr_m mrs1 < 2 ^ 53) as Hm1hi.
  { rewrite Hm1. apply Z.div_lt_upper_bound; lia. }
  assert (shr_m mrs1 < b * 2 ^ (j - k)) as Hm1b.
  { rewrite Hm1. apply Z.div_lt_upper_bound; [lia|]. rewrite Hjk in Hlt. lia. }
  (* rounding *)
  pose proof (round_nearest_even_bounds (shr_m mrs1) (loc_of_shr_record mrs1)) as Hm2.
  set (m2 := round_nearest_even (shr_m mrs1) (loc_of_shr_record mrs1)) in *.
  assert (0 < m2) as Hm2pos by lia.
  destruct (Zdigits2_bounds m2 Hm2pos) as [Hlo2 Hhi2].
  assert (53 ≤ Zdigits2 m2 ≤ 54) as Hd2.
  { split.
    - assert (2 ^ 52 < 2 ^ Zdigits2 m2) as Hpow by lia.
      apply Z.pow_lt_mono_r_iff in Hpow; [lia|lia|]. destruct m2; simpl; lia.
    - assert (2 ^ (Zdigits2 m2 - 1) < 2 ^ 54) as Hpow by lia.
      apply Z.pow_lt_mono_r_iff in Hpow; lia. }
  (* second shift *)
  destruct (shr_fexp_m m2 (ex + k) loc_Exact Hm2pos) as (mrs2 & Hshr2 & Hm3); [lia|].
  set (k' := Z.max (Zdigits2 m2 - 53) 0) in *.
  assert (k' = 0 ∨ k' = 1) as Hk' by lia.
  assert (2 ^ 52 ≤ shr_m mrs2 ∧ shr_m mrs2 * 2 ^ k' ≤ m2) as [Hm3lo Hm3hi].
  { rewrite Hm3. destruct Hk' as [Hk'|Hk']; rewrite Hk'.
    - change (2 ^ 0) with 1. rewrite Z.div_1_r. lia.
    - change (2 ^ 1) with 2.
      assert (Zdigits2 m2 = 54) as Hd54 by lia. rewrite Hd54 in Hlo2.
      change (2 ^ (54 - 1)) with (2 * 2 ^ 52) in Hlo2.
      split; [apply Z.div_le_lower_bound; lia|].
      pose proof (Z.mul_div_le m2 2). lia. }
  unfold binary_round_aux. rewrite Hshr1. fold m2. rewrite Hshr2.
  destruct (shr_m mrs2) as [|m3|m3] eqn:Hm3'; [lia| |lia].
  replace (ex + k + k' <=? emax - prec) with true
    by (symmetry; apply Z.leb_le; unfold emax, prec; lia).
  exists m3, (k + k'). split; [by rewrite Z.add_assoc|]. split; [lia|]. split; [|lia].
  rewrite Z.pow_add_r, Hjk by lia.
  assert (0 < 2 ^ k') by (apply Z.pow_pos_nonneg; lia). nia.
Qed.

Lemma Pos_iter_xO (p n : positive) : Z.pos (Pos.iter xO p n) = Z.pos p * 2 ^ Z.pos n.
Proof.
  induction n as [|n IH] using Pos.peano_ind.
  - simpl. lia.
  - rewrite Pos.iter_succ, (Pos2Z.inj_xO (Pos.iter xO p n)), IH, Pos2Z.inj_succ.
    rewrite Z.pow_succ_r by lia. lia.
Qed.

(** A mantissa of exactly 53 bits is already rounded. *)
Lemma binary_round_aux_canonical (m : positive) (e : Z) :
  Zdigits2 (Z.pos m) = 53 → -1074 ≤ e ≤ 971 →
  binary_round_aux prec emax false (Z.pos m) e loc_Exact = S754_finite false m e.
Proof.
  intros Hd He. unfold binary_round_aux, shr_fexp, fexp, emin, prec, emax.
  rewrite Hd.
  replace (Z.max (53 + e - 53) (3 - 1024 - 53) - e) with 0 by lia.
  cbn [shr shr_record_of_loc shr_m loc_of_shr_record round_nearest_even].
  rewrite Hd.
  replace (Z.max (53 + e - 53) (3 - 1024 - 53) - e) with 0 by lia.
  cbn [shr shr_record_of_loc shr_m].
  replace (e <=? 1024 - 53) with true by (symmetry; apply Z.leb_le; lia).
  done.
Qed.

(** An integer below [2^53] converts exactly: the mantissa is the integer
    shifted to 53 bits. *)
Lemma float_of_Z_shape (z : Z) :
  0 < z < 2 ^ 53 →
  ∃ m, float_of_Z z = S754_finite false m (Zdigits2 z - 53) ∧
       Z.pos m = z * 2 ^ (53 - Zdigits2 z) ∧
       2 ^ 52 ≤ Z.pos m < 2 ^ 53.
Proof.
  intros [Hz Hz53]. destruct z as [|p|p]; try lia.
  destruct (Zdigits2_bounds (Z.pos p) Hz) as [Hlo Hhi].
  assert (1 ≤ Zdigits2 (Z.pos p) ≤ 53) as Hd.
  { split; [simpl; lia|].
    assert (2 ^ (Zdigits2 (Z.pos p) - 1) < 2 ^ 53) as Hpow by lia.
    apply Z.pow_lt_mono_r_iff in Hpow; lia. }
  set (d := Zdigits2 (Z.pos p)) in *.
  assert (2 ^ 52 ≤ Z.pos p * 2 ^ (53 - d) < 2 ^ 53) as Hshift.
  { assert (2 ^ 52 = 2 ^ (d - 1) * 2 ^ (53 - d)) as E1
      by (rewrite <- Z.pow_add_r by lia; f_equal; lia).
    assert (2 ^ 53 = 2 ^ d * 2 ^ (53 - d)) as E2
      by (rewrite <- Z.pow_add_r by lia; f_equal; lia).
    assert (0 < 2 ^ (53 - d)) by (apply Z.pow_pos_nonneg; lia).
    rewrite E1, E2. nia. }
  unfold float_of_Z, binary_normalize, binary_round, shl_align, fexp, emin, prec, emax.
  change (Z.pos (digits2_pos p)) with d.
  replace (Z.max (d + 0 - 53) (3 - 1024 - 53) - 0) with (d - 53) by lia.
  replace (Z.max (d + 0 - 53) (3 - 1024 - 53)) with (d - 53) by lia.
  destruct (d - 53) as [|q|q] eqn:Hq; [|lia|].
  - exists p. replace (53 - d) with 0 in * by lia.
    rewrite Z.mul_1_r in *. split; [|done].
    replace d with 53 by lia. apply binary_round_aux_canonical; [|lia].
    fold d. lia.
  - exists (Pos.iter xO p q).
    assert (Z.pos (Pos.iter xO p q) = Z.pos p * 2 ^ (53 - d)) as Hm.
    { rewrite Pos_iter_xO. do 2 f_equal. lia. }
    split; [|by rewrite Hm].
    apply binary_round_aux_canonical; [|lia].
    apply Zdigits2_unique; [|lia]. by rewrite Hm.
Qed.

Lemma SFdiv_core_binary_53 (m1 e1 m2 e2 : Z) :
  Zdigits2 m1 = 53 → Zdigits2 m2 = 53 → -1000 ≤ e1 - e2 →
  ∃ l, SFdiv_core_binary prec emax m1 e1 m2 e2 = (m1 * 2 ^ 53 / m2, e1 - e2 - 53, l).
Proof.
  intros Hd1 Hd2 He. unfold SFdiv_core_binary. rewrite Hd1, Hd2. cbv zeta.
  replace (Z.min (fexp prec emax (53 + e1 - (53 + e2))) (e1 - e2)) with (e1 - e2 - 53)
    by (unfold fexp, emin, prec, emax; lia).
  replace (e1 - e2 - (e1 - e2 - 53)) with 53 by lia.
  rewrite Z.shiftl_mul_pow2 by lia.
  unfold Z.div. destruct (Z.div_eucl (m1 * 2 ^ 53) m2) as [q r]. by eexists.
Qed.

Lemma float_of_Z_uint32_max :
  float_of_Z 4294967295 = S754_finite false 9007199252643840 (-21).
Proof. vm_compute. reflexivity. Qed.

(** The stream value of a non-zero state lies below every binary64 number
    [b * 2^(j + d - 85)] that the quotient [state / (2^32 - 1)] lies below
    ([d] the bit length of the state). *)
Lemma stream_value_le (state b j : Z) :
  0 < state < 2 ^ 32 →
  0 < b < 2 ^ 53 → 0 ≤ j ≤ 200 →
  state * 2 ^ (85 - Zdigits2 state) < b * 2 ^ j * 4294967295 →
  ∃ mu t, stream_value state = S754_finite false mu (Zdigits2 state - 85 + t) ∧
          0 ≤ t ∧ Z.pos mu * 2 ^ t ≤ b * 2 ^ j ∧ 2 ^ 52 ≤ Z.pos mu.
Proof.
  intros Hs Hb Hj Hlt.
  destruct (float_of_Z_shape state) as (mx & Hf & Hmx & Hmxb); [lia|].
  assert (1 ≤ Zdigits2 state ≤ 32) as Hd.
  { destruct (Zdigits2_bounds state) as [Hlo Hhi]; [lia|]. split.
    - destruct state; simpl; lia.
    - assert (2 ^ (Zdigits2 state - 1) < 2 ^ 32) as Hpow by lia.
      apply Z.pow_lt_mono_r_iff in Hpow; lia. }
  set (d := Zdigits2 state) in *.
  unfold stream_value. rewrite Hf, float_of_Z_uint32_max. unfold SFdiv.
  destruct (SFdiv_core_binary_53 (Z.pos mx) (d - 53) (Z.pos 9007199252643840) (-21))
    as (l & ->); [by apply Zdigits2_unique|reflexivity|lia|].
  cbn [xorb].
  set (q := Z.pos mx * 2 ^ 53 / Z.pos 9007199252643840).
  assert (2 ^ 85 = 2 ^ 32 * 2 ^ 53) as E85 by reflexivity.
  assert (2 ^ (85 - d) = 2 ^ (53 - d) * 2 ^ 32) as Epow.
  { rewrite <- Z.pow_add_r by lia. f_equal. lia. }
  assert (0 < 2 ^ (53 - d)) as HP by (apply Z.pow_pos_nonneg; lia).
  assert (0 < 2 ^ j) as HJ by (apply Z.pow_pos_nonneg; lia).
  assert (2 ^ 52 ≤ q) as Hqlo.
  { apply Z.div_le_lower_bound; [lia|]. change (2 ^ 53) with 9007199254740992.
    change (2 ^ 52) with 4503599627370496 in *. lia. }
  assert (q < b * 2 ^ j) as Hqhi.
  { apply Z.div_lt_upper_bound; [lia|]. rewrite Hmx.
    rewrite Epow in Hlt. change (2 ^ 53) with 9007199254740992.
    change (2 ^ 32) with 4294967296 in *. nia. }
  destruct (Zdigits2_bounds q) as [Hqd1 Hqd2]; [lia|].
  assert (53 ≤ Zdigits2 q) as Hqd.
  { assert (2 ^ 52 < 2 ^ Zdigits2 q) as Hpow by lia.
    apply Z.pow_lt_mono_r_iff in Hpow; [lia|lia|]. destruct q; simpl; lia. }
  destruct (binary_round_aux_le q (d - 53 - -21 - 53) l b j)
    as (mu & t & Hr & Ht & Hle & Hmu); try lia.
  exists mu, t. rewrite Hr. split; [f_equal; lia|done].
Qed.

(** The floor of a product [u * n]: when the exact product lies below a
    binary64 number that lies below [N + 1], the floor of the rounded product
    is at most [N]. *)
Lemma SFmul_floor_le (mu : positive) (eu n b j N : Z) :
  1 ≤ n < 2 ^ 53 →
  -1074 ≤ eu + (Zdigits2 n - 53) → eu + (Zdigits2 n - 53) ≤ 0 →
  0 < b < 2 ^ 53 → 0 ≤ j ≤ 900 →
  Z.pos mu * (n * 2 ^ (53 - Zdigits2 n)) < b * 2 ^ j →
  b * 2 ^ j < (N + 1) * 2 ^ (- (eu + (Zdigits2 n - 53))) →
  0 ≤ N → N + 1 < 2 ^ 52 →
  js_floor (SFmul prec emax (S754_finite false mu eu) (float_of_Z n)) ≤ N.
Proof.
  intros Hn Hex Hex0 Hb Hj Hlt HltN HN HN52.
  destruct (float_of_Z_shape n) as (mn & Hf & Hmn & Hmnb); [lia|].
  rewrite Hf. unfold SFmul. cbn [xorb]. rewrite Pos2Z.inj_mul, Hmn.
  set (ex := eu + (Zdigits2 n - 53)) in *.
  set (mx := Z.pos mu * (n * 2 ^ (53 - Zdigits2 n))) in *.
  assert (2 ^ 52 ≤ mx) as Hmxlo by (unfold mx; nia).
  destruct (Zdigits2_bounds mx) as [_ Hmxd]; [lia|].
  assert (53 ≤ Zdigits2 mx) as Hd.
  { assert (2 ^ 52 < 2 ^ Zdigits2 mx) as Hpow by lia.
    apply Z.pow_lt_mono_r_iff in Hpow; [lia|lia|]. destruct mx; simpl; lia. }
  destruct (binary_round_aux_le mx ex loc_Exact b j)
    as (mr & t & -> & Ht & Hle & Hmr); try lia.
  assert (0 < 2 ^ t) as HT by (apply Z.pow_pos_nonneg; lia).
  assert (t < - ex) as Htex.
  { assert (2 ^ (52 + t) < 2 ^ (52 + - ex)) as Hpow.
    { rewrite !Z.pow_add_r by lia.
      assert (0 < 2 ^ (- ex)) by (apply Z.pow_pos_nonneg; lia). nia. }
    apply Z.pow_lt_mono_r_iff in Hpow; lia. }
  unfold js_floor. replace (0 <=? ex + t) with false by (symmetry; apply Z.leb_gt; lia).
  rewrite Z.shiftr_div_pow2 by lia.
  assert (2 ^ (- ex) = 2 ^ (- (ex + t)) * 2 ^ t) as Epow.
  { rewrite <- Z.pow_add_r by lia. f_equal. lia. }
  assert (0 < 2 ^ (- (ex + t))) by (apply Z.pow_pos_nonneg; lia).
  apply Z.lt_succ_r. apply Z.div_lt_upper_bound; [lia|].
  rewrite Epow in HltN. nia.
Qed.

Lemma float_of_Z_0 : float_of_Z 0 = S754_zero false.
Proof. reflexivity. Qed.

Lemma stream_value_unit :
  stream_value 4294967295 = S754_finite false 4503599627370496 (-52).
Proof. vm_compute. reflexivity. Qed.

(** Every stream value is at most [1]. *)
Lemma stream_value_le_1 (state : Z) :
  0 < state < 2 ^ 32 →
  ∃ mu t, stream_value state = S754_finite false mu (Zdigits2 state - 85 + t) ∧
          0 ≤ t ∧ Z.pos mu * 2 ^ t ≤ 2 ^ (85 - Zdigits2 state) ∧ 2 ^ 52 ≤ Z.pos mu.
Proof.
  intros Hs. destruct (decide (state = 4294967295)) as [->|Hne].
  - exists 4503599627370496%positive, 1. rewrite stream_value_unit.
    split; [reflexivity|]. split; [lia|]. split; [|vm_compute; discriminate].
    vm_compute. discriminate.
  - assert (1 ≤ Zdigits2 state ≤ 32) as Hd.
    { destruct (Zdigits2_bounds state) as [Hlo Hhi]; [lia|]. split.
      - destruct state; simpl; lia.
      - assert (2 ^ (Zdigits2 state - 1) < 2 ^ 32) as Hpow by lia.
        apply Z.pow_lt_mono_r_iff in Hpow; lia. }
    destruct (stream_value_le state 1 (85 - Zdigits2 state))
      as (mu & t & Hv & Ht & Hle & Hmu); try lia.
    { assert (0 < 2 ^ (85 - Zdigits2 state)) by (apply Z.pow_pos_nonneg; lia).
      change (2 ^ 32) with 4294967296 in Hs. nia. }
    exists mu, t. rewrite Z.mul_1_l in Hle. done.
Qed.

(** [Math.floor(rand() * (i + 1))] is at most [i + 1]. *)
Lemma pick_le_succ (state : Z) (i : nat) :
  0 ≤ state < 2 ^ 32 → (i ≤ 80)%nat → (pick (stream_value state) i ≤ i + 1)%nat.
Proof.
  intros Hs Hi. unfold pick.
  set (n := Z.of_nat i + 1).
  assert (1 ≤ n ≤ 81) as Hn by lia.
  enough (js_floor (SFmul prec emax (stream_value state) (float_of_Z n)) ≤ n) by lia.
  destruct (decide (state = 0)) as [->|Hne].
  { destruct (float_of_Z_shape n) as (mn & -> & _); [lia|].
    change (stream_value 0) with (S754_zero false). simpl. lia. }
  destruct (stream_value_le_1 state) as (mu & t & -> & Ht & Hle & Hmu); [lia|].
  assert (1 ≤ Zdigits2 state ≤ 32) as Hd.
  { destruct (Zdigits2_bounds state) as [Hlo Hhi]; [lia|]. split.
    - destruct state; simpl; lia.
    - assert (2 ^ (Zdigits2 state - 1) < 2 ^ 32) as Hpow by lia.
      apply Z.pow_lt_mono_r_iff in Hpow; lia. }
  assert (1 ≤ Zdigits2 n ≤ 7) as Hdn.
  { destruct (Zdigits2_bounds n) as [Hlo Hhi]; [lia|]. split.
    - destruct n; simpl; lia.
    - assert (2 ^ (Zdigits2 n - 1) < 2 ^ 7) as Hpow by (change (2 ^ 7) with 128; lia).
      apply Z.pow_lt_mono_r_iff in Hpow; lia. }
  set (d := Zdigits2 state) in *. set (dn := Zdigits2 n) in *.
  assert (0 < 2 ^ t) as HT by (apply Z.pow_pos_nonneg; lia).
  assert (t ≤ 33 - d) as Htd.
  { assert (2 ^ (52 + t) < 2 ^ (86 - d)) as Hpow.
    { rewrite Z.pow_add_r by lia.
      replace (86 - d) with (1 + (85 - d)) by lia. rewrite (Z.pow_add_r 2 1) by lia.
      assert (0 < 2 ^ (85 - d)) by (apply Z.pow_pos_nonneg; lia).
      change (2 ^ 1) with 2. nia. }
    apply Z.pow_lt_mono_r_iff in Hpow; lia. }
  set (j := 137 - d - t - dn).
  assert (2 ^ (85 - d) = 2 ^ (85 - d - t) * 2 ^ t) as E1.
  { rewrite <- Z.pow_add_r by lia. f_equal. lia. }
  assert (2 ^ (85 - d - t) * 2 ^ (53 - dn) = 2 * 2 ^ j) as E2.
  { rewrite <- Z.pow_add_r by lia.
    replace (85 - d - t + (53 - dn)) with (1 + j) by lia.
    by rewrite Z.pow_add_r by lia. }
  assert (0 < 2 ^ (85 - d - t)) by (apply Z.pow_pos_nonneg; lia).
  assert (0 < 2 ^ (53 - dn)) by (apply Z.pow_pos_nonneg; lia).
  assert (0 < 2 ^ j) by (apply Z.pow_pos_nonneg; lia).
  apply (SFmul_floor_le mu (d - 85 + t) n (2 * n + 1) j n); fold dn; try lia.
  - rewrite E1 in Hle. nia.
  - replace (- (d - 85 + t + (dn - 53))) with (1 + j) by lia.
    rewrite Z.pow_add_r by lia. change (2 ^ 1) with 2. nia.
Qed.

(** With 81 candidates, only the stream value [1] selects position 81. *)
Lemma pick_80_le (state : Z) :
  0 ≤ state < 2 ^ 32 - 1 → (pick (stream_value state) 80 ≤ 80)%nat.
Proof.
  intros Hs. unfold pick. change (Z.of_nat 80 + 1) with 81.
  enough (js_floor (SFmul prec emax (stream_value state) (float_of_Z 81)) ≤ 80) by lia.
  destruct (decide (state = 0)) as [->|Hne]; [vm_compute; discriminate|].
  assert (1 ≤ Zdigits2 state ≤ 32) as Hd.
  { destruct (Zdigits2_bounds state) as [Hlo Hhi]; [lia|]. split.
    - destruct state; simpl; lia.
    - assert (2 ^ (Zdigits2 state - 1) < 2 ^ 32) as Hpow by lia.
      apply Z.pow_lt_mono_r_iff in Hpow; lia. }
  set (d := Zdigits2 state) in *.
  assert (2 ^ (85 - d) = 8589934592 * 2 ^ (52 - d)) as E0.
  { change 8589934592 with (2 ^ 33). rewrite <- Z.pow_add_r by lia. f_equal. lia. }
  assert (0 < 2 ^ (52 - d)) by (apply Z.pow_pos_nonneg; lia).
  destruct (stream_value_le state 8589934591 (52 - d))
    as (mu & t & -> & Ht & Hle & Hmu); fold d; try lia.
  { rewrite E0. nia. }
  assert (0 < 2 ^ t) as HT by (apply Z.pow_pos_nonneg; lia).
  assert (t ≤ 32 - d) as Htd.
  { assert (2 ^ (52 + t) < 2 ^ (85 - d)) as Hpow.
    { rewrite Z.pow_add_r, E0 by lia. nia. }
    apply Z.pow_lt_mono_r_iff in Hpow; lia. }
  assert (2 ^ (52 - d) = 2 ^ (52 - d - t) * 2 ^ t) as E1.
  { rewrite <- Z.pow_add_r by lia. f_equal. lia. }
  assert (0 < 2 ^ (52 - d - t)) by (apply Z.pow_pos_nonneg; lia).
  set (j := 104 - d - t).
  assert (2 ^ j = 4503599627370496 * 2 ^ (52 - d - t)) as E2.
  { change 4503599627370496 with (2 ^ 52). rewrite <- Z.pow_add_r by lia.
    f_equal. lia. }
  apply (SFmul_floor_le mu (d - 85 + t) 81 10871635967 j 80);
    change (Zdigits2 81) with 7; try lia.
  - change (2 ^ (53 - 7)) with 70368744177664. rewrite E2. rewrite E1 in Hle. nia.
  - replace (- (d - 85 + t + (7 - 53))) with (27 + j) by lia.
    rewrite Z.pow_add_r by lia. change (2 ^ 27) with 134217728. nia.
Qed.

End FloatFacts.

(** ** The pack generator *)

Module GeneratorFacts.
Import Sudoku SudokuSpec Generator GeneratorSpec CarveReference.

Lemma decimal_inj (m n : nat) : decimal m = decimal n → m = n.
Proof.
  unfold decimal. intros Heq.
  apply (f_equal NilEmpty.uint_of_string) in Heq.
  rewrite !NilEmpty.usu in Heq. injection Heq as Heq.
  by apply DecimalNat.Unsigned.to_uint_inj.
Qed.

Lemma string_app_inv_head (s t u : string) : (s ++ t = s ++ u)%string → t = u.
Proof. induction s as [|c s IH]; simpl; [done|]. intros [= ?]. by apply IH. Qed.

Lemma generateFallback_lookup (d : Difficulty) (n k : nat) :
  (k < n)%nat → generateFallback d n !! k = Some (fallback_record d k).
Proof.
  intros Hk. unfold generateFallback. rewrite list_lookup_fmap.
  by rewrite lookup_seq_lt.
Qed.


Lemma known_solution_in_pool (k : nat) :
  knownSolutions !! (k mod 3)%nat = Some (known_solution k).
Proof.
  unfold known_solution. simpl length.
  assert (k mod 3 < 3)%nat as Hlt by (apply Nat.mod_upper_bound; lia).
  destruct (k mod 3)%nat as [|[|[|?]]]; [done..|lia].
Qed.

(** *** [carve] against the reference algorithm *)

Lemma arr_get_fmap_Some {A} (l : list A) (i : nat) : arr_get (Some <$> l) i = l !! i.
Proof. unfold arr_get. rewrite list_lookup_fmap. by destruct (l !! i). Qed.

Lemma arr_set_in_range {A} (hole : A) (arr : list A) (i : nat) (v : A) :
  (i < length arr)%nat → arr_set hole arr i v = <[i := v]> arr.
Proof. intros Hi. unfold arr_set. by rewrite decide_True. Qed.

Lemma swap_in_range (order : list nat) (i j : nat) :
  (i < length order)%nat → (j < length order)%nat →
  swap (Some <$> order) i j = Some <$> exchange order i j.
Proof.
  intros Hi Hj. unfold swap, exchange. rewrite !arr_get_fmap_Some.
  destruct (lookup_lt_is_Some_2 order i Hi) as [x Hx].
  destruct (lookup_lt_is_Some_2 order j Hj) as [y Hy].
  rewrite Hx, Hy.
  rewrite (arr_set_in_range None (Some <$> order) i) by by rewrite length_fmap.
  rewrite arr_set_in_range by by rewrite length_insert, length_fmap.
  by rewrite !list_fmap_insert.
Qed.

Lemma exchange_length (order : list nat) (i j : nat) :
  length (exchange order i j) = length order.
Proof.
  unfold exchange. destruct (order !! i), (order !! j); try done.
  by rewrite !length_insert.
Qed.

Lemma exchange_Permutation (order : list nat) (i j : nat) : exchange order i j ≡ₚ order.
Proof.
  unfold exchange.
  destruct (order !! i) as [x|] eqn:Hx; [|done].
  destruct (order !! j) as [y|] eqn:Hy; [|done].
  destruct (decide (i = j)) as [->|Hne].
  { assert (x = y) as -> by congruence.
    by rewrite (list_insert_id order j y Hy), (list_insert_id order j y Hy). }
  assert (i < length order)%nat as Hi by by eapply lookup_lt_Some.
  assert (j < length order)%nat as Hj by by eapply lookup_lt_Some.
  set (mid := <[i := y]> order).
  assert (mid !! i = Some y) as Hmi by by apply list_lookup_insert_eq.
  assert (mid !! j = Some y) as Hmj by by unfold mid; rewrite list_lookup_insert_ne.
  assert ((<[j := x]> mid) !! j = Some x) as Hfj
    by by apply list_lookup_insert_eq; unfold mid; rewrite length_insert.
  rewrite (delete_Permutation _ _ _ Hfj), (delete_Permutation order i x Hx).
  replace (delete j (<[j := x]> mid)) with (delete j mid)
    by by rewrite !delete_take_drop, take_insert_ge, drop_insert_lt by lia.
  apply Permutation_skip.
  apply (Permutation_cons_inv (a := y)).
  rewrite <- (delete_Permutation mid j y Hmj).
  replace (delete i order) with (delete i mid)
    by by unfold mid; rewrite !delete_take_drop, take_insert_ge, drop_insert_lt by lia.
  by rewrite <- (delete_Permutation mid i y Hmi).
Qed.

Lemma fisher_yates_Permutation (i : nat) (state : Z) (order : list nat) :
  fisher_yates i state order ≡ₚ order.
Proof.
  revert state order. induction i as [|i IH]; intros state order; simpl; [done|].
  by rewrite IH, exchange_Permutation.
Qed.

Lemma shuffled_order_Permutation (seed : Z) : shuffled_order seed ≡ₚ seq 0 81.
Proof. apply fisher_yates_Permutation. Qed.

(** The reference starts the recurrence from the seed itself, the code from
    [seed >>> 0]: the first state is the same. *)
Lemma lcg_next_seeded (seed : Z) : next_state (seeded seed) = lcg_next seed.
Proof.
  unfold next_state, seeded, to_uint32, lcg_next.
  by rewrite Z.add_mod, Z.mul_mod_idemp_l, <- Z.add_mod by done.
Qed.

Lemma fisher_yates_first_state (i : nat) (s1 s2 : Z) (order : list nat) :
  lcg_next s1 = lcg_next s2 → fisher_yates i s1 order = fisher_yates i s2 order.
Proof. intros Heq. destruct i; simpl; [done|]. by rewrite Heq. Qed.

Lemma shuffle_loop_reference (i : nat) (state : Z) (order : list nat) :
  (i < length order)%nat →
  Forall (λ j, (j < length order)%nat) (draws i state) →
  shuffle_loop i state (Some <$> order) = Some <$> fisher_yates i state order.
Proof.
  revert state order. induction i as [|i IH]; intros state order Hi Hdraws; [done|].
  simpl in *. apply Forall_cons in Hdraws as [Hj Hrest].
  rewrite swap_in_range by done.
  apply IH; rewrite exchange_length; [lia|done].
Qed.

Lemma shuffled_reference (seed : Z) :
  in_range seed → shuffled seed = Some <$> shuffled_order seed.
Proof.
  intros Hrange. unfold shuffled, shuffled_order.
  rewrite length_fmap, length_seq. simpl Nat.sub.
  rewrite (shuffle_loop_reference 80 (seeded seed) (seq 0 81));
    [|rewrite length_seq; lia|by rewrite length_seq].
  f_equal. apply fisher_yates_first_state.
  exact (lcg_next_seeded seed).
Qed.

(** *** Which seeds keep the shuffle inside the array *)

Lemma next_state_range (state : Z) : 0 ≤ next_state state < 2 ^ 32.
Proof. unfold next_state, to_uint32. by apply Z.mod_pos_bound. Qed.

Lemma draws_S (i : nat) (state : Z) :
  draws (S i) state
  = pick (stream_value (next_state state)) (S i) :: draws i (next_state state).
Proof. reflexivity. Qed.

Lemma draws_bounded (i : nat) (state : Z) :
  (i ≤ 79)%nat → Forall (λ j, (j < 81)%nat) (draws i state).
Proof.
  revert state. induction i as [|i IH]; intros state Hi; [by apply Forall_nil|].
  rewrite draws_S. apply Forall_cons. split; [|apply IH; lia].
  pose proof (FloatFacts.pick_le_succ (next_state state) (S i) (next_state_range state)).
  lia.
Qed.

Lemma in_range_iff (seed : Z) : in_range seed ↔ ¬ unit_class seed.
Proof.
  unfold in_range, unit_class. rewrite (draws_S 79), Forall_cons. split.
  - intros [Hpick _] Hunit. rewrite Hunit in Hpick. vm_compute in Hpick. lia.
  - intros Hne. split; [|apply draws_bounded; lia].
    pose proof (next_state_range (seeded seed)).
    pose proof (FloatFacts.pick_80_le (next_state (seeded seed))). lia.
Qed.

Lemma shuffle_loop_first_state (i : nat) (s1 s2 : Z) (indices : list (option nat)) :
  next_state s1 = next_state s2 →
  shuffle_loop i s1 indices = shuffle_loop i s2 indices.
Proof. intros Heq. destruct i; simpl; [done|]. unfold rand. by rewrite Heq. Qed.

(** Every seed of the unit class shuffles like the seed 653637408: position
    80 of the array is left [undefined] and the index 80 lands in a new
    position 81. *)
Lemma shuffled_unit_class (seed : Z) :
  unit_class seed →
  shuffled seed = (Some <$> unit_order) ++ [None; Some 80%nat].
Proof.
  intros Hunit. unfold shuffled.
  rewrite (shuffle_loop_first_state _ (seeded seed) (seeded unit_seed)).
  - vm_compute. reflexivity.
  - rewrite Hunit. vm_compute. reflexivity.
Qed.

Lemma shuffled_order_unit_class (seed : Z) :
  unit_class seed → shuffled_order seed = unit_order ++ [80%nat].
Proof.
  intros Hunit. unfold shuffled_order.
  rewrite (fisher_yates_first_state 80 seed unit_seed).
  - vm_compute. reflexivity.
  - transitivity (next_state (seeded seed)); [symmetry; apply lcg_next_seeded|].
    rewrite Hunit. vm_compute. reflexivity.
Qed.

Lemma unit_order_facts :
  NoDup unit_order ∧ Forall (λ k, (k < 81)%nat) unit_order ∧ length unit_order = 80%nat.
Proof.
  split_and!; [apply (bool_decide_unpack _)..|]; vm_compute; reflexivity.
Qed.

Lemma shuffled_order_bounded (seed : Z) :
  Forall (λ k, (k < 81)%nat) (shuffled_order seed).
Proof.
  rewrite (shuffled_order_Permutation seed). apply Forall_forall.
  intros k Hk. apply elem_of_seq in Hk. lia.
Qed.

Lemma blank_step (targets : list nat) (k : nat) (chars : list ascii) :
  (k < length chars)%nat →
  <[k := "."%char]> (imap (λ i c, if decide (i ∈ targets) then "."%char else c) chars)
  = imap (λ i c, if decide (i ∈ targets ++ [k]) then "."%char else c) chars.
Proof.
  intros Hk. apply list_eq. intros i. rewrite !list_lookup_imap.
  destruct (decide (i = k)) as [->|Hne].
  - rewrite list_lookup_insert_eq by by rewrite length_imap.
    destruct (lookup_lt_is_Some_2 chars k Hk) as [c ->]. simpl.
    rewrite decide_True; [done|]. set_solver.
  - rewrite list_lookup_insert_ne by done. rewrite list_lookup_imap.
    destruct (chars !! i) as [c|]; simpl; [|done].
    do 2 case_decide; set_solver.
Qed.

Lemma blank_loop_prefix (order : list nat) (rest : list (option nat))
    (blanks : nat) (chars : list ascii) :
  (blanks ≤ length order)%nat →
  Forall (λ k, (k < length chars)%nat) order →
  blank_loop ((Some <$> order) ++ rest) blanks (Some <$> chars)
  = Some <$> imap (λ i c, if decide (i ∈ take blanks order) then "."%char else c) chars.
Proof.
  intros Hblanks Hbound. unfold blank_loop. induction blanks as [|b IH].
  - cbn [seq foldl]. f_equal. apply list_eq. intros i. rewrite list_lookup_imap.
    destruct (chars !! i) as [c|]; [|done]. cbn [fmap option_fmap option_map].
    rewrite take_0. case_decide; [set_solver|done].
  - rewrite seq_S, foldl_snoc, IH by lia. cbn [Nat.add].
    destruct (lookup_lt_is_Some_2 order b) as [k Hb]; [lia|].
    assert (arr_get ((Some <$> order) ++ rest) b = Some k) as ->.
    { unfold arr_get. rewrite lookup_app_l by (rewrite length_fmap; lia).
      by rewrite list_lookup_fmap, Hb. }
    simpl. rewrite (take_S_r _ _ _ Hb).
    assert (k < length chars)%nat as Hk.
    { rewrite Forall_forall in Hbound. apply Hbound. by eapply list_elem_of_lookup_2. }
    rewrite arr_set_in_range by by rewrite length_fmap, length_imap.
    by rewrite <- (list_fmap_insert Some), blank_step.
Qed.

Lemma blank_loop_reference (order : list nat) (blanks : nat) (chars : list ascii) :
  Forall (λ k, (k < length chars)%nat) order →
  blank_loop (Some <$> order) blanks (Some <$> chars)
  = Some <$> imap (λ i c, if decide (i ∈ take blanks order) then "."%char else c) chars.
Proof.
  intros Hbound. destruct (decide (blanks ≤ length order)%nat) as [Hle|Hgt].
  - rewrite <- (app_nil_r (Some <$> order)). by apply blank_loop_prefix.
  - unfold blank_loop.
    replace blanks with (length order + (blanks - length order))%nat by lia.
    rewrite seq_app, foldl_app.
    pose proof (blank_loop_prefix order [] (length order) chars (le_n _) Hbound) as Hfull.
    unfold blank_loop in Hfull. rewrite app_nil_r in Hfull. rewrite Hfull.
    rewrite !take_ge by lia.
    generalize (blanks - length order)%nat. intros extra.
    assert (∀ (cs : list (option ascii)) start,
              (length order ≤ start)%nat →
              foldl (λ chars0 i, arr_set_key None chars0 (arr_get (Some <$> order) i)
                                             (Some "."%char)) cs (seq start extra) = cs)
      as Hidle.
    { induction extra as [|extra IHe]; intros cs start Hstart; [done|]. simpl.
      assert (arr_get (Some <$> order) start = None) as ->.
      { rewrite arr_get_fmap_Some. apply lookup_ge_None. lia. }
      simpl. apply IHe. lia. }
    apply Hidle. simpl. lia.
Qed.

Lemma join_fmap_Some (chars : list ascii) :
  join (Some <$> chars) = string_of_list_ascii chars.
Proof.
  unfold join. f_equal. induction chars as [|c chars IH]; [done|].
  csimpl. by rewrite IH.
Qed.

(** Whenever every swap stays inside the array, [carve] is the reference
    algorithm. *)
Lemma carve_reference_in_range (solution : string) (blanks : nat) (seed : Z) :
  String.length solution = 81%nat →
  in_range seed →
  carve solution blanks seed = carve_reference solution blanks seed.
Proof.
  intros Hlen Hrange. unfold carve, carve_reference, blank_at.
  rewrite (shuffled_reference seed Hrange), blank_loop_reference, join_fmap_Some; [done|].
  rewrite CodecFacts.length_list_ascii_of_string, Hlen.
  apply shuffled_order_bounded.
Qed.

(** *** Parsing a carved string *)

Lemma digit_is_not_blank (c : ascii) :
  is_Some (digit_of_char c) → is_blank_char c = false.
Proof.
  destruct c as [[] [] [] [] [] [] [] []]; vm_compute; try done;
    intros [? ?]; discriminate.
Qed.

Lemma map_throwing_parse_char_Ok (chars : list ascii) :
  Forall in_alphabet chars →
  map_throwing parse_char chars = Ok (cell_of_char <$> chars).
Proof.
  intros Hall. pose proof (CodecFacts.map_throwing_parse_char chars) as Hmap.
  destruct (map_throwing parse_char chars) as [cells|e]; [|done].
  by destruct Hmap as [_ ->].
Qed.

Lemma parseGrid_of_list (chars : list ascii) :
  length chars = 81%nat →
  Forall in_alphabet chars →
  parseGrid (string_of_list_ascii chars) = Ok (cell_of_char <$> chars).
Proof.
  intros Hlen Hall. unfold parseGrid, BOARD_SIZE.
  rewrite <- CodecFacts.length_list_ascii_of_string.
  rewrite list_ascii_of_string_of_list_ascii, Hlen.
  rewrite decide_False by (intros Hne; by apply Hne).
  by apply map_throwing_parse_char_Ok.
Qed.

(** The cells of a solution blanked at [targets]. *)
Lemma blanked_cells (targets : list nat) (chars : list ascii) :
  Forall (λ c, is_Some (digit_of_char c)) chars →
  Forall in_alphabet (imap (λ i c, if decide (i ∈ targets) then "."%char else c) chars) ∧
  cell_of_char <$> imap (λ i c, if decide (i ∈ targets) then "."%char else c) chars
  = imap (λ i c, if decide (i ∈ targets) then None else digit_of_char c) chars.
Proof.
  intros Hdigits. split.
  - apply Forall_lookup. intros i c. rewrite list_lookup_imap.
    destruct (chars !! i) as [c'|] eqn:Hc'; simpl; [|done]. intros [= <-].
    case_decide; [by left|]. right.
    rewrite Forall_lookup in Hdigits. by eapply Hdigits.
  - apply list_eq. intros i. rewrite list_lookup_fmap, !list_lookup_imap.
    destruct (chars !! i) as [c|] eqn:Hc; simpl; [|done].
    case_decide; [done|]. unfold cell_of_char.
    rewrite digit_is_not_blank; [done|].
    rewrite Forall_lookup in Hdigits. by eapply Hdigits.
Qed.

Lemma empty_count_blanked (targets : list nat) (chars : list ascii) (off : nat) :
  Forall (λ c, is_Some (digit_of_char c)) chars →
  empty_count (imap (λ i c, if decide (off + i ∈ targets)%nat then None
                            else digit_of_char c) chars)
  = length (filter (λ k, k ∈ targets) (seq off (length chars))).
Proof.
  unfold empty_count. revert off.
  induction chars as [|c chars IH]; intros off Hdigits; [done|].
  apply Forall_cons in Hdigits as [[v Hc] Hdigits].
  rewrite imap_cons. cbn [length seq]. rewrite !filter_cons, Nat.add_0_r.
  rewrite (imap_ext _ (λ i c, if decide (S off + i ∈ targets)%nat then None
                              else digit_of_char c))
    by (intros i x _; cbn; by rewrite Nat.add_succ_r).
  specialize (IH (S off) Hdigits).
  destruct (decide (off ∈ targets)) as [Hin|Hout].
  - rewrite decide_True by done. cbn [length]. by rewrite IH.
  - rewrite Hc, decide_False by done. by rewrite IH.
Qed.

Lemma filter_targets_length (targets : list nat) (n : nat) :
  NoDup targets →
  Forall (λ k, (k < n)%nat) targets →
  length (filter (λ k, k ∈ targets) (seq 0 n)) = length targets.
Proof.
  intros Hnd Hbound. apply Permutation_length, NoDup_Permutation.
  - apply NoDup_filter, NoDup_seq.
  - done.
  - intros k. rewrite list_elem_of_filter, elem_of_seq.
    rewrite Forall_forall in Hbound. split; [by intros [? _]|].
    intros Hk. specialize (Hbound k Hk). split; [done|lia].
Qed.

(** Parsing a solution blanked at distinct indices: as many empty cells as
    indices, the digits of the solution elsewhere. *)
Lemma blank_at_round_trip (targets : list nat) (solution : string) :
  is_solution solution →
  NoDup targets →
  Forall (λ k, (k < 81)%nat) targets →
  ∃ cells,
    parseGrid (blank_at targets solution) = Ok cells ∧
    empty_count cells = length targets ∧
    ∀ i c, list_ascii_of_string solution !! i = Some c →
           cells !! i = Some (if decide (i ∈ targets) then None else digit_of_char c).
Proof.
  intros [Hlen Hdigits] Hnd Hbound.
  exists (imap (λ i c, if decide (i ∈ targets) then None else digit_of_char c)
               (list_ascii_of_string solution)).
  split_and!.
  - unfold blank_at.
    destruct (blanked_cells targets _ Hdigits) as [Hall <-].
    apply parseGrid_of_list; [|done].
    by rewrite length_imap, CodecFacts.length_list_ascii_of_string.
  - pose proof (empty_count_blanked targets (list_ascii_of_string solution) 0 Hdigits)
      as Hcount.
    simpl in Hcount. rewrite Hcount.
    rewrite CodecFacts.length_list_ascii_of_string, Hlen.
    by apply filter_targets_length.
  - intros i c Hc. by rewrite list_lookup_imap, Hc.
Qed.

Lemma blank_loop_skip (indices : list (option nat)) (blanks : nat)
    (chars : list (option ascii)) :
  arr_get indices blanks = None →
  blank_loop indices (S blanks) chars = blank_loop indices blanks chars.
Proof.
  intros Hnone. unfold blank_loop. rewrite seq_S, foldl_snoc. cbn [Nat.add].
  by rewrite Hnone.
Qed.

(** [carve] for a seed of the unit class: the first 80 indices of the
    shuffled order are blanked in turn; the 81st blank finds [undefined] and
    blanks nothing. *)
Lemma carve_unit_class (solution : string) (blanks : nat) (seed : Z) :
  String.length solution = 81%nat →
  unit_class seed →
  (blanks ≤ 81)%nat →
  carve solution blanks seed = blank_at (take blanks unit_order) solution.
Proof.
  intros Hlen Hunit Hblanks. unfold carve, blank_at.
  rewrite (shuffled_unit_class seed Hunit).
  destruct unit_order_facts as (_ & Hbound & Hlen80).
  assert (Forall (λ k, (k < length (list_ascii_of_string solution))%nat) unit_order)
    as Hbound' by by rewrite CodecFacts.length_list_ascii_of_string, Hlen.
  destruct (decide (blanks ≤ 80)%nat) as [Hle|Hgt].
  - rewrite blank_loop_prefix, join_fmap_Some; [done|lia|done].
  - assert (blanks = 81%nat) as -> by lia.
    rewrite blank_loop_skip.
    + rewrite blank_loop_prefix, join_fmap_Some; [|lia|done].
      by rewrite !take_ge by lia.
    + unfold arr_get. rewrite lookup_app_r by (rewrite length_fmap; lia).
      by rewrite length_fmap, Hlen80.
Qed.

(** The round trip of [carve], exactly: parsing the carved string succeeds,
    the cells that are not empty hold the digits of the solution, and the
    number of empty cells is [blankCount], except for a seed of the unit class
    with 81 blanks, where it is 80. *)
Lemma carve_round_trip_exact (solution : string) (blanks : nat) (seed : Z) :
  is_solution solution →
  (blanks ≤ 81)%nat →
  ∃ cells,
    parseGrid (carve solution blanks seed) = Ok cells ∧
    empty_count cells
      = (if decide (unit_class seed ∧ blanks = 81%nat) then 80%nat else blanks) ∧
    ∀ i c, list_ascii_of_string solution !! i = Some c →
           cells !! i = Some None ∨ cells !! i = Some (digit_of_char c).
Proof.
  intros Hsol Hblanks.
  assert (∃ targets, carve solution blanks seed = blank_at targets solution ∧
                     NoDup targets ∧ Forall (λ k, (k < 81)%nat) targets ∧
                     length targets
                     = (if decide (unit_class seed ∧ blanks = 81%nat)
                        then 80%nat else blanks))
    as (targets & -> & Hnd & Hbound & Hlen).
  { destruct (decide (unit_class seed)) as [Hunit|Hout].
    - exists (take blanks unit_order).
      destruct unit_order_facts as (Hnd & Hbound & Hlen80).
      split_and!.
      + by apply carve_unit_class; [apply Hsol|..].
      + by eapply sublist_NoDup; [|apply sublist_take].
      + by apply Forall_take.
      + rewrite length_take, Hlen80.
        case_decide as Hcase; [lia|]. assert (blanks ≠ 81%nat) by tauto. lia.
    - exists (take blanks (shuffled_order seed)). split_and!.
      + apply carve_reference_in_range; [apply Hsol|by apply in_range_iff].
      + eapply sublist_NoDup; [|apply sublist_take].
        rewrite (shuffled_order_Permutation seed). apply NoDup_seq.
      + apply Forall_take, shuffled_order_bounded.
      + rewrite length_take.
        pose proof (Permutation_length (shuffled_order_Permutation seed)) as Hl.
        rewrite length_seq in Hl. rewrite decide_False by tauto. lia. }
  destruct (blank_at_round_trip targets solution Hsol Hnd Hbound)
    as (cells & Hparse & Hcount & Hcells).
  exists cells. split_and!; [done|congruence|].
  intros i c Hc. rewrite (Hcells i c Hc).
  destruct (decide (i ∈ targets)); [by left|by right].
Qed.

(** [carve] is the reference algorithm on every input but a seed of the unit
    class with 81 blanks. *)
Lemma carve_reference_exact (solution : string) (blanks : nat) (seed : Z) :
  String.length solution = 81%nat →
  (blanks ≤ 81)%nat →
  ¬ (unit_class seed ∧ blanks = 81%nat) →
  carve solution blanks seed = carve_reference solution blanks seed.
Proof.
  intros Hlen Hblanks Hnot. destruct (decide (unit_class seed)) as [Hunit|Hout].
  - rewrite carve_unit_class by done. unfold carve_reference.
    rewrite (shuffled_order_unit_class seed Hunit).
    destruct unit_order_facts as (_ & _ & Hlen80).
    assert (blanks ≠ 81%nat) by tauto.
    rewrite take_app_le by lia. done.
  - apply carve_reference_in_range; [done|by apply in_range_iff].
Qed.

Lemma fallback_seeds_in_range :
  Forall (λ index, in_range (Z.of_nat index + 11)) (seq 0 40).
Proof.
  apply Forall_forall. intros index Hin. apply in_range_iff.
  apply elem_of_seq in Hin. unfold unit_class, next_state, seeded, to_uint32.
  rewrite (Z.mod_small (Z.of_nat index + 11)) by lia.
  rewrite Z.mod_small by lia. lia.
Qed.

Lemma unit_seed_out_of_range : ¬ in_range unit_seed.
Proof. apply (bool_decide_unpack _). vm_compute. reflexivity. Qed.



(** *** The seed whose first stream value is 1 *)

(** C2 at the seed 653637408 with 81 blanks.  The first draw of the
    generator is the state [2^32 - 1], its stream value is exactly [1], and
    the first swap of the shuffle reads and writes position 81 of an array of
    81 indices: position 80 of the shuffled order is left [undefined].  The
    carved string keeps the last digit of the solution, and parsing it yields
    80 empty cells, not 81. *)
Theorem carve_unit_seed_keeps_a_digit :
  is_solution first_solution ∧
  next_state (seeded unit_seed) = 2 ^ 32 - 1 ∧
  pick (stream_value (next_state (seeded unit_seed))) 80 = 81%nat ∧
  arr_get (shuffled unit_seed) 80 = None ∧
  carve first_solution 81 unit_seed
    = String.string_of_list_ascii (replicate 80 "."%char ++ ["9"%char]) ∧
  parseGrid (carve first_solution 81 unit_seed)
    = Ok (replicate 80 None ++ [Some 9]) ∧
  empty_count (replicate 80 None ++ [Some 9]) = 80%nat.
Proof.
  split_and!.
  - split; [reflexivity|]. apply (bool_decide_unpack _). vm_compute. reflexivity.
  - vm_compute. reflexivity.
  - vm_compute. reflexivity.
  - vm_compute. reflexivity.
  - vm_compute. reflexivity.
  - vm_compute. reflexivity.
  - vm_compute. reflexivity.
Qed.

(** C3 at the same input.  The shuffled order of the reference algorithm is
    a permutation of the indices 0..80 and its first 81 indices are all of
    them, so the reference blanks the whole string; [carve] leaves the last
    digit. *)
Theorem carve_unit_seed_differs_from_reference :
  carve_reference first_solution 81 unit_seed
    = String.string_of_list_ascii (replicate 81 "."%char) ∧
  carve first_solution 81 unit_seed
    = String.string_of_list_ascii (replicate 80 "."%char ++ ["9"%char]) ∧
  carve first_solution 81 unit_seed ≠ carve_reference first_solution 81 unit_seed.
Proof.
  split_and!.
  - vm_compute. reflexivity.
  - vm_compute. reflexivity.
  - vm_compute. discriminate.
Qed.

End GeneratorFacts.

(** ** [formatTime], [isSolved] and the win check *)

Module UtilsFacts.
Import Sudoku SudokuUtils Screens Session SudokuSpec GeneratorSpec ComponentSpec.

Lemma forallb_imap_true {A} (f : nat → A → bool) (l : list A) :
  forallb Datatypes.id (imap f l) = true ↔ ∀ i x, l !! i = Some x → f i x = true.
Proof.
  revert f. induction l as [|a l IH]; intros f; simpl.
  - split; [intros _ i x Hi; by rewrite lookup_nil in Hi|done].
  - rewrite andb_true_iff, IH. split.
    + intros [Ha Hl] [|i] x Hi; simpl in Hi.
      * by injection Hi as <-.
      * by apply (Hl i).
    + intros H. split; [by apply (H 0%nat)|]. intros i x Hi. by apply (H (S i)).
Qed.

Lemma get_list_ascii (s : string) (i : nat) :
  String.get i s = list_ascii_of_string s !! i.
Proof.
  revert i. induction s as [|c s IH]; intros [|i]; simpl; auto.
Qed.

Lemma js_Number_digit (c : ascii) (d : Z) :
  digit_of_char c = Some d → js_Number c = Some d.
Proof.
  unfold digit_of_char, js_Number.
  destruct (_ && _) eqn:E; [|done]. intros [= <-].
  apply andb_true_iff in E as [E1 E2].
  apply Z.leb_le in E1, E2.
  replace (48 <=? _) with true by (symmetry; apply Z.leb_le; lia).
  replace (_ <=? 57) with true by (symmetry; by apply Z.leb_le).
  done.
Qed.

Lemma strict_equal_true (value n : option Z) :
  strict_equal value n = true ↔ ∃ v, value = Some v ∧ n = Some v.
Proof.
  destruct value as [v|], n as [n|]; simpl; try (split; [done|by intros (? & ? & ?)]).
  rewrite bool_decide_eq_true. split; [intros ->; eauto|by intros (? & [= ->] & [= ->])].
Qed.

Lemma parseGrid_solution (solution : string) :
  is_solution solution →
  parseGrid solution = Ok (digit_of_char <$> list_ascii_of_string solution).
Proof.
  intros [Hlen Hdigits]. unfold parseGrid.
  rewrite decide_False by (unfold BOARD_SIZE; by intros []).
  rewrite GeneratorFacts.map_throwing_parse_char_Ok.
  - f_equal. apply Forall_fmap_ext. eapply Forall_impl; [exact Hdigits|].
    intros c Hc. unfold cell_of_char.
    by rewrite GeneratorFacts.digit_is_not_blank.
  - eapply Forall_impl; [exact Hdigits|]. intros c Hc. by right.
Qed.

Lemma isSolved_true (values : list (option Z)) (solution : string) :
  is_solution solution →
  isSolved values solution = true ↔
  values `prefix_of` (digit_of_char <$> list_ascii_of_string solution).
Proof.
  intros [Hlen Hdigits]. unfold isSolved. rewrite forallb_imap_true.
  set (cells := digit_of_char <$> list_ascii_of_string solution).
  assert (Hcells : ∀ i c, list_ascii_of_string solution !! i = Some c →
            ∃ d, digit_of_char c = Some d ∧ js_Number c = Some d).
  { intros i c Hi. rewrite Forall_lookup in Hdigits.
    destruct (Hdigits i c Hi) as [d Hd]. exists d. split; [done|].
    by apply js_Number_digit. }
  split.
  - intros H.
    assert (Hlookup : ∀ i value, values !! i = Some value → cells !! i = Some value).
    { intros i value Hi. apply H in Hi. apply strict_equal_true in Hi as (v & -> & Hn).
      unfold Number_at in Hn. rewrite get_list_ascii in Hn.
      destruct (list_ascii_of_string solution !! i) as [c|] eqn:Hc; [|done].
      simpl in Hn. destruct (Hcells i c Hc) as (d & Hd & Hd').
      unfold cells. rewrite list_lookup_fmap, Hc. simpl. congruence. }
    exists (drop (length values) cells).
    rewrite <- (take_drop (length values) cells) at 1. f_equal.
    apply list_eq. intros i. destruct (values !! i) as [value|] eqn:Hi.
    + rewrite lookup_take_lt by (by eapply lookup_lt_Some).
      by apply Hlookup.
    + apply lookup_ge_None in Hi. by rewrite lookup_take_ge.
  - intros Hprefix i value Hi.
    pose proof (prefix_lookup_Some _ _ _ _ Hi Hprefix) as Hc.
    unfold cells in Hc. rewrite list_lookup_fmap in Hc.
    destruct (list_ascii_of_string solution !! i) as [c|] eqn:Hci; [|done].
    simpl in Hc. injection Hc as <-.
    destruct (Hcells i c Hci) as (d & Hd & Hd').
    apply strict_equal_true. exists d. split; [done|].
    unfold Number_at. by rewrite get_list_ascii, Hci.
Qed.

(** X1.  Against a solution string of 81 digits, [isSolved] accepts exactly
    the arrays that are a prefix of the parsed solution: the full board, and
    also every shorter array down to the empty one.  On a board of 81 cells
    it holds exactly when the board is the parsed solution. *)
Theorem isSolved_iff_prefix_of_solution (values : list (option Z)) (solution : string) :
  is_solution solution →
  (isSolved values solution = true ↔
   ∃ cells, parseGrid solution = Ok cells ∧ values `prefix_of` cells) ∧
  (length values = 81%nat →
   isSolved values solution = true ↔ parseGrid solution = Ok values).
Proof.
  intros Hsol. pose proof (parseGrid_solution _ Hsol) as Hparse.
  pose proof (isSolved_true values _ Hsol) as Hiff.
  split.
  - rewrite Hiff, Hparse. split.
    + intros H. eauto.
    + by intros (cells & [= <-] & H).
  - intros Hlen. rewrite Hiff, Hparse. split.
    + intros H. f_equal. symmetry. apply prefix_length_eq; [done|].
      rewrite length_fmap, CodecFacts.length_list_ascii_of_string.
      destruct Hsol as [-> _]. lia.
    + by intros [= <-].
Qed.

Lemma isSolved_iff_prefix_of_solution_witness :
  isSolved [Some 5; Some 3; Some 4] first_solution = true ↔
  ∃ cells, parseGrid first_solution = Ok cells ∧ [Some 5; Some 3; Some 4] `prefix_of` cells.
Proof.
  apply (isSolved_iff_prefix_of_solution [Some 5; Some 3; Some 4] first_solution).
  split; [reflexivity|]. apply (bool_decide_unpack _). vm_compute. reflexivity.
Defined.

Lemma complete_iff (values : list (option Z)) :
  forallb (λ value, bool_decide (value ≠ None)) values = true ↔ Forall is_Some values.
Proof.
  induction values as [|v l IH]; simpl.
  - split; [by constructor|done].
  - rewrite andb_true_iff, IH, Forall_cons, bool_decide_eq_true.
    by rewrite not_eq_None_Some.
Qed.

(** X2.  The win check on the play screen, for a board of 81 cells and a
    solution string of 81 digits: the screen becomes [won] exactly when the
    entries are the parsed solution of the puzzle and that board has no
    conflict.  A board that differs from the stored solution never wins, even
    if it is complete and free of conflicts. *)
Theorem win_iff_solution_entered (s : GameSession) :
  is_solution (solution (session_puzzle s)) →
  length (entries s) = 81%nat →
  winEffect play (Some s) = won ↔
  parseGrid (solution (session_puzzle s)) = Ok (entries s) ∧
  computeConflicts (entries s) = ∅.
Proof.
  intros Hsol Hlen.
  pose proof (parseGrid_solution _ Hsol) as Hparse.
  pose proof (isSolved_true (entries s) _ Hsol) as Hiff.
  unfold winEffect. rewrite decide_False by (by intros []).
  split.
  - destruct (negb _ || _) eqn:E; [done|].
    apply orb_false_iff in E as [_ E]. apply bool_decide_eq_false in E.
    destruct (isSolved _ _) eqn:Hs; [|done]. intros _.
    split.
    + rewrite Hparse. f_equal. symmetry. apply prefix_length_eq; [by apply Hiff|].
      rewrite length_fmap, CodecFacts.length_list_ascii_of_string.
      destruct Hsol as [-> _]. lia.
    + apply leibniz_equiv, size_empty_iff. lia.
  - intros [Hentries Hconflicts]. rewrite Hconflicts, size_empty.
    rewrite Hparse in Hentries. injection Hentries as Hentries.
    replace (forallb _ _) with true.
    + simpl. replace (isSolved _ _) with true; [done|].
      symmetry. apply Hiff. by rewrite Hentries.
    + symmetry. apply complete_iff. rewrite <- Hentries.
      apply Forall_fmap. destruct Hsol as [_ Hd]. eapply Forall_impl; [exact Hd|]. done.
Qed.

Lemma win_iff_solution_entered_witness :
  winEffect play (Some solved_session) = won.
Proof.
  apply (win_iff_solution_entered solved_session).
  - split; [reflexivity|]. apply (bool_decide_unpack _). vm_compute. reflexivity.
  - reflexivity.
  - split; [vm_compute; reflexivity|].
    apply (bool_decide_unpack _). vm_compute. reflexivity.
Defined.

Lemma two_digits (n : nat) :
  (n < 100)%nat →
  padStart 2 "0" (Generator.decimal n)
  = String (digit_char (n / 10)) (String (digit_char (n mod 10)) EmptyString).
Proof.
  intros Hn.
  assert (H : Forall (λ n, padStart 2 "0" (Generator.decimal n)
              = String (digit_char (n / 10)) (String (digit_char (n mod 10)) EmptyString))
              (seq 0 100)).
  { apply (bool_decide_unpack _). vm_compute. reflexivity. }
  rewrite Forall_lookup in H. apply (H n). apply lookup_seq. lia.
Qed.

Lemma digit_char_inj (a b : nat) :
  (a < 10)%nat → (b < 10)%nat → digit_char a = digit_char b → a = b.
Proof.
  intros Ha Hb H. unfold digit_char in H.
  apply (f_equal nat_of_ascii) in H.
  rewrite !nat_ascii_embedding in H by lia. lia.
Qed.

(** X3.  Below 100 minutes [formatTime] prints the clock [mm:ss]: two digits
    of minutes, a colon, two digits of seconds, five characters in all, and
    two different times print differently. *)
Theorem formatTime_clock (t : nat) :
  (t / 60 < 100)%nat →
  formatTime t = clock (t / 60) (t mod 60) ∧
  String.length (formatTime t) = 5%nat ∧
  ∀ t', (t' / 60 < 100)%nat → formatTime t' = formatTime t → t' = t.
Proof.
  assert (Hclock : ∀ t, (t / 60 < 100)%nat → formatTime t = clock (t / 60) (t mod 60)).
  { intros u Hu. unfold formatTime.
    assert (u mod 60 < 60)%nat by (apply Nat.mod_upper_bound; lia).
    rewrite !two_digits by lia. reflexivity. }
  intros Ht. split_and!.
  - by apply Hclock.
  - by rewrite Hclock.
  - intros t' Ht' H. rewrite !Hclock in H by done. unfold clock in H.
    remember (t / 60 / 10)%nat as a1. remember (t' / 60 / 10)%nat as a1'.
    remember ((t / 60) mod 10)%nat as a2. remember ((t' / 60) mod 10)%nat as a2'.
    remember (t mod 60 / 10)%nat as a3. remember (t' mod 60 / 10)%nat as a3'.
    remember ((t mod 60) mod 10)%nat as a4. remember ((t' mod 60) mod 10)%nat as a4'.
    injection H as H1 H2 H3 H4. subst.
    assert (t mod 60 < 60)%nat by (apply Nat.mod_upper_bound; lia).
    assert (t' mod 60 < 60)%nat by (apply Nat.mod_upper_bound; lia).
    assert (Hmod : ∀ n, (n mod 10 < 10)%nat) by (intros; apply Nat.mod_upper_bound; lia).
    assert (Hdiv : ∀ n, (n < 100)%nat → (n / 10 < 10)%nat)
      by (intros; apply Nat.Div0.div_lt_upper_bound; lia).
    apply digit_char_inj in H1; [|apply Hdiv; lia..].
    apply digit_char_inj in H2; [|apply Hmod..].
    apply digit_char_inj in H3; [|apply Hdiv; lia..].
    apply digit_char_inj in H4; [|apply Hmod..].
    pose proof (Nat.div_mod_eq (t / 60) 10). pose proof (Nat.div_mod_eq (t' / 60) 10).
    pose proof (Nat.div_mod_eq (t mod 60) 10). pose proof (Nat.div_mod_eq (t' mod 60) 10).
    pose proof (Nat.div_mod_eq t 60). pose proof (Nat.div_mod_eq t' 60).
    lia.
Qed.

Lemma formatTime_clock_witness : formatTime 754 = "12:34"%string.
Proof.
  destruct (formatTime_clock 754) as [H _]; [vm_compute; lia|]. exact H.
Defined.

End UtilsFacts.

(** ** Sessions: creation, selection, shape and history *)

Module SessionFacts.
Import Sudoku Session App Screens SudokuSpec HistorySpec ComponentSpec.

Lemma rem_wrap (index len : Z) :
  0 < len → Z.rem (Z.rem index len + len) len = index mod len.
Proof.
  intros Hlen.
  assert (Hr : - len < Z.rem index len < len).
  { pose proof (Z.rem_bound_abs index len). lia. }
  rewrite Z.rem_mod_nonneg by lia.
  pose proof (Z.quot_rem' index len) as Hq.
  rewrite Hq at 2.
  replace (Z.rem index len + len) with (Z.rem index len + 1 * len) by lia.
  rewrite Z.mod_add by lia.
  rewrite Z.add_comm, Z.mul_comm, Z.mod_add by lia. done.
Qed.

Lemma puzzleAt_mod (packs : Difficulty → list Puzzle) (d : Difficulty) (index : Z) :
  packs d ≠ [] →
  puzzleAt packs d index =
    (p ← packs d !! Z.to_nat (index mod Z.of_nat (length (packs d)));
     Some (p, index mod Z.of_nat (length (packs d)))).
Proof.
  intros Hne. unfold puzzleAt.
  assert (0 < Z.of_nat (length (packs d))) by (destruct (packs d); [done|simpl; lia]).
  rewrite decide_False by lia. by rewrite rem_wrap.
Qed.

(** X4.  [puzzleAt] wraps any integer index, negative ones included, into
    the pack: on a non-empty pack it returns the puzzle at [index mod len]
    together with that position, so shifting the index by the length of the
    pack changes nothing; on an empty pack there is no puzzle. *)
Theorem puzzleAt_wraps (packs : Difficulty → list Puzzle) (d : Difficulty) (index : Z) :
  (packs d = [] → puzzleAt packs d index = None) ∧
  (packs d ≠ [] →
   let len := Z.of_nat (length (packs d)) in
   0 ≤ index mod len < len ∧
   (∃ p, packs d !! Z.to_nat (index mod len) = Some p ∧
         puzzleAt packs d index = Some (p, index mod len)) ∧
   puzzleAt packs d (index + len) = puzzleAt packs d index ∧
   puzzleAt packs d (index - len) = puzzleAt packs d index).
Proof.
  split.
  - intros Hnil. unfold puzzleAt. rewrite Hnil. done.
  - intros Hne len.
    assert (0 < len) by (unfold len; destruct (packs d); [done|simpl; lia]).
    pose proof (Z.mod_pos_bound index len) as Hbound.
    split; [lia|]. split; [|split].
    + rewrite puzzleAt_mod by done. fold len.
      destruct (packs d !! Z.to_nat (index mod len)) as [p|] eqn:Hp.
      * by exists p.
      * apply lookup_ge_None in Hp. lia.
    + rewrite !puzzleAt_mod by done. fold len.
      replace (index + len) with (index + 1 * len) by lia.
      by rewrite Z.mod_add by lia.
    + rewrite !puzzleAt_mod by done. fold len.
      replace (index - len) with (index + (-1) * len) by lia.
      by rewrite Z.mod_add by lia.
Qed.

Lemma puzzleAt_wraps_witness :
  puzzleAt sample_packs Generator.hard (-7) = Some (sample_puzzle, 0).
Proof.
  destruct (puzzleAt_wraps sample_packs Generator.hard (-7)) as [_ H].
  destruct H as (_ & (p & Hp & H) & _); [done|].
  vm_compute in Hp. injection Hp as <-. exact H.
Defined.

Lemma parseGrid_well_formed (grid : string) :
  well_formed grid →
  parseGrid grid = Ok (cell_of_char <$> list_ascii_of_string grid).
Proof.
  intros [Hlen Hchars]. unfold parseGrid.
  rewrite decide_False by (unfold BOARD_SIZE; by intros []).
  by apply GeneratorFacts.map_throwing_parse_char_Ok.
Qed.

Lemma parseGrid_not_well_formed (grid : string) :
  ¬ well_formed grid → ∃ e, parseGrid grid = Throw e.
Proof.
  intros Hnot. unfold parseGrid. case_decide as Hlen; [eauto|].
  pose proof (CodecFacts.map_throwing_parse_char (list_ascii_of_string grid)) as H.
  destruct (map_throwing parse_char _) as [cells|e]; [|eauto].
  destruct Hnot. split; [|by destruct H].
  unfold BOARD_SIZE in Hlen. by destruct (decide (String.length grid = 81%nat)).
Qed.

(** X5.  The three outcomes of [createSession]: an empty pack has no puzzle
    to offer; a puzzle string that is not 81 characters of the grid alphabet
    makes [parseGrid] throw; otherwise the session is created, and
    [startNew] shows it on the play screen.  The fresh session holds the
    parsed puzzle, marks as given exactly the filled cells, has 81 empty
    lists of notes, no selection, notes mode off, a clock at zero and two
    empty stacks. *)
Theorem createSession_outcomes (packs : Difficulty → list Puzzle) (d : Difficulty)
    (index : Z) :
  (packs d = [] → createSession packs d index = Throw NoPuzzle) ∧
  (∀ p, packs d !! Z.to_nat (index mod Z.of_nat (length (packs d))) = Some p →
     (¬ well_formed (puzzle p) → ∃ e, createSession packs d index = Throw (BadGrid e)) ∧
     (well_formed (puzzle p) →
      ∃ s, createSession packs d index = Ok s ∧
           startNew packs d index = Ok (Some s, play) ∧
           session_puzzle s = p ∧
           puzzleIndex s = index mod Z.of_nat (length (packs d)) ∧
           parseGrid (puzzle p) = Ok (entries s) ∧
           (∀ i, givens s !! i = Some true ↔ ∃ v, entries s !! i = Some (Some v)) ∧
           notes s = replicate 81 [] ∧
           selected s = None ∧ notesMode s = false ∧ elapsedSeconds s = 0%nat ∧
           Session.undo s = [] ∧ Session.redo s = [] ∧
           well_shaped s)).
Proof.
  split.
  - intros Hnil. unfold createSession, puzzleAt. by rewrite Hnil.
  - intros p Hp.
    assert (Hne : packs d ≠ []) by (intros Hnil; by rewrite Hnil in Hp).
    assert (Hat : puzzleAt packs d index
                  = Some (p, index mod Z.of_nat (length (packs d)))).
    { rewrite puzzleAt_mod by done. by rewrite Hp. }
    split.
    + intros Hnot. destruct (parseGrid_not_well_formed _ Hnot) as [e He].
      exists e. unfold createSession. by rewrite Hat, He.
    + intros Hwf. pose proof (parseGrid_well_formed _ Hwf) as Hparse.
      unfold startNew, createSession. rewrite Hat, Hparse.
      eexists. split; [reflexivity|]. split; [reflexivity|]. simpl.
      assert (Hlen : length (cell_of_char <$> list_ascii_of_string (puzzle p)) = 81%nat).
      { rewrite length_fmap, CodecFacts.length_list_ascii_of_string. by destruct Hwf. }
      split_and!; try done.
      * intros i. rewrite list_lookup_fmap.
        destruct ((cell_of_char <$> list_ascii_of_string (puzzle p)) !! i)
          as [[v|]|]; simpl.
        -- split; [eauto|done].
        -- split; [intros [=]|by intros [? ?]].
        -- split; [done|by intros [? ?]].
      * unfold well_shaped; simpl. rewrite length_fmap.
        split_and!; try done.
Qed.

Lemma createSession_outcomes_witness :
  ∃ s, createSession sample_packs Generator.hard 3 = Ok s ∧
       session_puzzle s = sample_puzzle ∧ puzzleIndex s = 0.
Proof.
  destruct (createSession_outcomes sample_packs Generator.hard 3) as [_ H].
  destruct (H sample_puzzle) as [_ Hok]; [reflexivity|].
  destruct Hok as (s & Hs & _ & Hp & Hi & _).
  - split; [reflexivity|]. apply (bool_decide_unpack _). vm_compute. reflexivity.
  - exists s. split; [exact Hs|]. split; [exact Hp|exact Hi].
Defined.

Lemma wrapped_move_bound (index : nat) (dr dc : Z) :
  (wrapped_move index dr dc < 81)%nat.
Proof.
  unfold wrapped_move.
  pose proof (Z.mod_pos_bound (Z.of_nat (row_of index) + dr) 9).
  pose proof (Z.mod_pos_bound (Z.of_nat (col_of index) + dc) 9).
  lia.
Qed.

Lemma wrapped_move_row_col (index : nat) (dr dc : Z) :
  Z.of_nat (row_of (wrapped_move index dr dc)) = (Z.of_nat (row_of index) + dr) mod 9 ∧
  Z.of_nat (col_of (wrapped_move index dr dc)) = (Z.of_nat (col_of index) + dc) mod 9.
Proof.
  unfold wrapped_move.
  pose proof (Z.mod_pos_bound (Z.of_nat (row_of index) + dr) 9) as Hr.
  pose proof (Z.mod_pos_bound (Z.of_nat (col_of index) + dc) 9) as Hc.
  set (r := (Z.of_nat (row_of index) + dr) mod 9) in *.
  set (c := (Z.of_nat (col_of index) + dc) mod 9) in *.
  unfold row_of, col_of.
  rewrite Nat2Z.inj_div, Nat2Z.inj_mod, Z2Nat.id by lia.
  change (Z.of_nat 9) with 9.
  split.
  - symmetry. apply (Z.div_unique _ 9 r c); lia.
  - symmetry. apply (Z.mod_unique _ 9 r c); lia.
Qed.

Lemma rem_plus_9 (a d : Z) :
  0 ≤ a → -9 ≤ d → Z.rem (a + d + 9) 9 = (a + d) mod 9.
Proof.
  intros Ha Hd. rewrite Z.rem_mod_nonneg by lia.
  replace (a + d + 9) with (a + d + 1 * 9) by lia. by rewrite Z.mod_add.
Qed.

Lemma moveSelection_wrapped (sel : option nat) (dr dc : Z) (s : GameSession) :
  -9 ≤ dr → -9 ≤ dc →
  moveSelection sel dr dc (Some s)
    = Some (with_selected s (Some (wrapped_move (default 40%nat sel) dr dc))).
Proof.
  intros Hdr Hdc. unfold moveSelection, rowColFromIndex. simpl.
  rewrite !rem_plus_9 by lia. reflexivity.
Qed.

Lemma wrapped_move_back (index : nat) (dr dc : Z) :
  (index < 81)%nat →
  wrapped_move (wrapped_move index dr dc) (- dr) (- dc) = index.
Proof.
  intros Hindex.
  pose proof (wrapped_move_row_col index dr dc) as [Hrow Hcol].
  unfold wrapped_move at 1. rewrite Hrow, Hcol.
  rewrite Zplus_mod_idemp_l, (Zplus_mod_idemp_l (_ + dc)).
  replace (Z.of_nat (row_of index) + dr + - dr) with (Z.of_nat (row_of index)) by lia.
  replace (Z.of_nat (col_of index) + dc + - dc) with (Z.of_nat (col_of index)) by lia.
  unfold row_of, col_of.
  assert (index / 9 < 9)%nat by (apply Nat.Div0.div_lt_upper_bound; lia).
  assert (index mod 9 < 9)%nat by (apply Nat.mod_upper_bound; lia).
  rewrite !Z.mod_small by lia.
  pose proof (Nat.div_mod_eq index 9). lia.
Qed.

(** X6.  [moveSelection] moves on a board that wraps around at its edges.
    For deltas of at least -9, from the selected cell, or from the centre
    cell 40 when nothing is selected, the row and the column are shifted
    modulo 9 and the new selection is a cell of the board.  For deltas
    between -9 and 9 the opposite move, made by the handler that reads the
    new selection, selects the starting cell again. *)
Theorem moveSelection_wraps (sel : option nat) (dr dc : Z) (s : GameSession) :
  -9 ≤ dr → -9 ≤ dc →
  let index := default 40%nat sel in
  moveSelection sel dr dc (Some s)
    = Some (with_selected s (Some (wrapped_move index dr dc))) ∧
  (wrapped_move index dr dc < 81)%nat ∧
  Z.of_nat (row_of (wrapped_move index dr dc)) = (Z.of_nat (row_of index) + dr) mod 9 ∧
  Z.of_nat (col_of (wrapped_move index dr dc)) = (Z.of_nat (col_of index) + dc) mod 9 ∧
  ((index < 81)%nat → dr ≤ 9 → dc ≤ 9 →
   ∃ s', moveSelection sel dr dc (Some s) = Some s' ∧
         moveSelection (selected s') (- dr) (- dc) (Some s')
           = Some (with_selected s (Some index))).
Proof.
  intros Hdr Hdc index.
  pose proof (wrapped_move_row_col index dr dc) as [Hrow Hcol].
  pose proof (moveSelection_wrapped sel dr dc s Hdr Hdc) as Hmove. fold index in Hmove.
  split_and!; [done|apply wrapped_move_bound|done|done|].
  intros Hindex Hdr' Hdc'. eexists. split; [exact Hmove|].
  change (selected (with_selected s (Some (wrapped_move index dr dc))))
    with (Some (wrapped_move index dr dc)).
  rewrite moveSelection_wrapped by lia.
  change (default 40%nat (Some (wrapped_move index dr dc)))
    with (wrapped_move index dr dc).
  rewrite wrapped_move_back by done. reflexivity.
Qed.

Lemma moveSelection_wraps_witness :
  ∃ s', moveSelection (Some 8%nat) 0 1 (Some sample_session) = Some s' ∧
        selected s' = Some 0%nat ∧
        moveSelection (selected s') 0 (-1) (Some s')
          = Some (with_selected sample_session (Some 8%nat)).
Proof.
  destruct (moveSelection_wraps (Some 8%nat) 0 1 sample_session)
    as (Hmove & _ & _ & _ & Hback); [lia..|].
  destruct Hback as (s' & Hs' & Hopposite); [simpl; lia|lia|lia|].
  exists s'. split; [exact Hs'|]. split; [|exact Hopposite].
  rewrite Hmove in Hs'. injection Hs' as <-. reflexivity.
Defined.

Lemma arr_set_length {A} (hole : A) (arr : list A) (i : nat) (v : A) :
  (i < length arr)%nat → length (arr_set hole arr i v) = length arr.
Proof.
  intros Hi. rewrite GeneratorFacts.arr_set_in_range by done. apply length_insert.
Qed.

Lemma applyNumber_mutator_shaped (value : Z) (draft : GameSession) :
  well_shaped draft →
  well_shaped (applyNumber_mutator value draft) ∧
  Session.undo (applyNumber_mutator value draft) = Session.undo draft.
Proof.
  intros Hshape. pose proof Hshape as (Hg & He & Hn & Hsel & Hu & Hr).
  unfold applyNumber_mutator.
  destruct (selected draft) as [index|] eqn:Hs; [|by split].
  specialize (Hsel index eq_refl).
  destruct (default false (givens draft !! index)); [by split|].
  destruct (notesMode draft); (split; [|done]); unfold well_shaped; simpl;
    rewrite ?arr_set_length by lia; repeat split; try done;
    intros i Hi; rewrite Hs in Hi; by injection Hi as <-.
Qed.

Lemma clearCell_mutator_shaped (draft : GameSession) :
  well_shaped draft →
  well_shaped (clearCell_mutator draft) ∧
  Session.undo (clearCell_mutator draft) = Session.undo draft.
Proof.
  intros Hshape. pose proof Hshape as (Hg & He & Hn & Hsel & Hu & Hr).
  unfold clearCell_mutator.
  destruct (selected draft) as [index|] eqn:Hs; [|by split].
  specialize (Hsel index eq_refl).
  destruct (default false (givens draft !! index)); [by split|].
  split; [|done]. unfold well_shaped; simpl.
  rewrite ?arr_set_length by lia. repeat split; try done.
  intros i Hi. rewrite Hs in Hi. by injection Hi as <-.
Qed.

Lemma applyWithHistory_shaped (mutator : GameSession → GameSession)
    (s s' : GameSession) :
  (∀ draft, well_shaped draft →
     well_shaped (mutator draft) ∧ Session.undo (mutator draft) = Session.undo draft) →
  well_shaped s →
  applyWithHistory mutator (Some s) = Some s' →
  well_shaped s'.
Proof.
  intros Hm Hs. unfold applyWithHistory. rewrite HistoryFacts.cloneNotes_id.
  intros [= <-].
  assert (Hdraft : well_shaped (with_board s (entries s) (notes s))) by exact Hs.
  destruct (Hm _ Hdraft) as [(Hg & He & Hn & Hsel & Hu & Hr) Hundo].
  unfold well_shaped; simpl. split_and!; try done.
  assert (Hpushed : Forall snapshot_shaped
            (Session.undo (mutator (with_board s (entries s) (notes s)))
             ++ [snapshotOf (with_board s (entries s) (notes s))])).
  { apply Forall_app. split; [done|]. apply Forall_singleton.
    destruct Hs as (_ & He' & Hn' & _). unfold snapshot_shaped, snapshotOf; simpl.
    by rewrite HistoryFacts.cloneNotes_id. }
  case_decide; [by apply Forall_drop|done].
Qed.

Lemma undo_shaped (s s' : GameSession) :
  well_shaped s → undo (Some s) = Some s' → well_shaped s'.
Proof.
  intros Hshape. pose proof Hshape as (Hg & He & Hn & Hsel & Hu & Hr). unfold undo.
  destruct (last (Session.undo s)) as [previous|] eqn:Hlast.
  - intros [= <-]. unfold well_shaped; simpl. rewrite HistoryFacts.cloneNotes_id.
    assert (Hp : snapshot_shaped previous).
    { rewrite Forall_forall in Hu. apply Hu. by apply last_Some_elem_of. }
    destruct Hp as [Hpe Hpn]. split_and!; try done.
    + by apply Forall_take.
    + apply Forall_app. split; [done|]. apply Forall_singleton.
      unfold snapshot_shaped, snapshotOf; simpl. by rewrite HistoryFacts.cloneNotes_id.
  - by intros [= <-].
Qed.

Lemma redo_shaped (s s' : GameSession) :
  well_shaped s → redo (Some s) = Some s' → well_shaped s'.
Proof.
  intros Hshape. pose proof Hshape as (Hg & He & Hn & Hsel & Hu & Hr). unfold redo.
  destruct (last (Session.redo s)) as [next|] eqn:Hlast.
  - intros [= <-]. unfold well_shaped; simpl. rewrite HistoryFacts.cloneNotes_id.
    assert (Hp : snapshot_shaped next).
    { rewrite Forall_forall in Hr. apply Hr. by apply last_Some_elem_of. }
    destruct Hp as [Hpe Hpn]. split_and!; try done.
    + apply Forall_app. split; [done|]. apply Forall_singleton.
      unfold snapshot_shaped, snapshotOf; simpl. by rewrite HistoryFacts.cloneNotes_id.
    + by apply Forall_take.
  - by intros [= <-].
Qed.

Lemma moveSelection_bound (sel : option nat) (dr dc : Z) :
  let '(row, col) := rowColFromIndex (default 40%nat sel) in
  (Z.to_nat (Z.rem (Z.of_nat row + dr + 9) 9 * 9 + Z.rem (Z.of_nat col + dc + 9) 9) < 81)%nat.
Proof.
  unfold rowColFromIndex.
  generalize (Z.of_nat (default 40%nat sel / 9) + dr + 9).
  generalize (Z.of_nat (default 40%nat sel mod 9) + dc + 9).
  intros x y.
  pose proof (Z.rem_bound_abs x 9). pose proof (Z.rem_bound_abs y 9). lia.
Qed.

Lemma perform_shaped (a : Action) (s s' : GameSession) :
  well_shaped s → on_board a → perform a (Some s) = Some s' → well_shaped s'.
Proof.
  intros Hs Ha. destruct a as [|index|sel deltaRow deltaCol| |value| | |]; simpl.
  - intros [= <-]. exact Hs.
  - intros [= <-]. destruct Hs as (Hg & He & Hn & Hsel & Hu & Hr).
    unfold well_shaped; simpl. split_and!; try done. by intros ? [= <-].
  - pose proof (moveSelection_bound sel deltaRow deltaCol) as Hb.
    unfold moveSelection. destruct (rowColFromIndex _) as [row col].
    intros [= <-]. destruct Hs as (Hg & He & Hn & Hsel & Hu & Hr).
    unfold well_shaped; simpl. split_and!; try done. by intros ? [= <-].
  - intros [= <-]. exact Hs.
  - apply applyWithHistory_shaped; [|done]. apply applyNumber_mutator_shaped.
  - apply applyWithHistory_shaped; [|done]. apply clearCell_mutator_shaped.
  - by apply undo_shaped.
  - by apply redo_shaped.
Qed.

Lemma run_shaped (actions : list Action) (s s' : GameSession) :
  well_shaped s → Forall on_board actions → run actions (Some s) = Some s' →
  well_shaped s'.
Proof.
  revert s. induction actions as [|a actions IH]; intros s Hs Hon.
  - by intros [= <-].
  - apply Forall_cons in Hon as [Ha Hon]. unfold run; simpl.
    destruct (HistoryFacts.perform_Some a s) as [s1 Hs1]. rewrite Hs1.
    apply IH; [|done]. by eapply perform_shaped.
Qed.

Lemma createSession_shaped (packs : Difficulty → list Puzzle) (d : Difficulty)
    (index : Z) (s0 : GameSession) :
  createSession packs d index = Ok s0 → well_shaped s0.
Proof.
  unfold createSession. destruct (puzzleAt packs d index) as [[p i]|]; [|done].
  destruct (parseGrid (puzzle p)) as [cells|e] eqn:Hparse; [|done].
  intros [= <-]. apply CodecFacts.parseGrid_length in Hparse.
  unfold well_shaped; simpl. rewrite length_fmap. split_and!; try done.
Qed.

(** X7.  The board keeps its shape: every action on a cell of the board
    leaves a session with 81 givens, 81 entries, 81 lists of notes, a
    selection inside the board and snapshots of 81 cells in both stacks.  So
    in a session started by [createSession] no write ever lands past the end
    of an array. *)
Theorem board_keeps_81_cells :
  (∀ a s s', well_shaped s → on_board a → perform a (Some s) = Some s' →
             well_shaped s') ∧
  (∀ packs d index s0 actions,
     createSession packs d index = Ok s0 →
     Forall on_board actions →
     ∃ s, run actions (Some s0) = Some s ∧ well_shaped s).
Proof.
  split.
  - apply perform_shaped.
  - intros packs d index s0 actions Hs0 Hon.
    destruct (HistoryFacts.run_Some actions s0) as [s Hs]. exists s. split; [done|].
    eapply run_shaped; [|done..]. by eapply createSession_shaped.
Qed.

Lemma board_keeps_81_cells_witness :
  ∃ s, run [Select 2; ApplyNumber 7; MoveSelection (Some 2%nat) (-1) 0; ClearCell; Undo]
           (Some sample_session) = Some s ∧ well_shaped s.
Proof.
  destruct board_keeps_81_cells as [_ H].
  apply (H sample_packs Generator.hard 0 sample_session).
  - reflexivity.
  - repeat constructor.
Defined.

Lemma undo_redo_all (n : nat) (s1 : GameSession) :
  (n ≤ length (Session.undo s1))%nat →
  ∃ u, run (replicate n Undo) (Some s1) = Some u ∧
       run (replicate n Redo) (Some u) = Some s1.
Proof.
  revert s1. induction n as [|n IH]; intros s1 Hlen.
  - by exists s1.
  - destruct (HistoryFacts.snoc_cases (Session.undo s1)) as [Hnil|(older & snap & Hsnoc)].
    { rewrite Hnil in Hlen. simpl in Hlen. lia. }
    pose proof (HistoryFacts.undo_snoc s1 older snap Hsnoc) as Hundo.
    set (u1 := with_history (with_board s1 (snap_entries snap) (snap_notes snap))
                 older (Session.redo s1 ++ [snapshotOf s1])) in *.
    destruct (IH u1) as (u & Hu & Hback).
    { simpl. rewrite Hsnoc, length_app in Hlen. simpl in Hlen. lia. }
    exists u. split.
    + change (run (replicate n Undo) (undo (Some s1)) = Some u).
      by rewrite Hundo.
    + rewrite replicate_S_end, HistoryFacts.run_snoc, Hback.
      change (redo (Some u1) = Some s1).
      rewrite <- Hundo. apply HistoryFacts.redo_undo. rewrite Hsnoc. by destruct older.
Qed.

Lemma unwind (actions : list Action) (s s1 : GameSession) :
  Forall (λ a, is_history_move a = false) actions →
  (length (Session.undo s) ≤ 200)%nat →
  (edit_count actions ≤ 200)%nat →
  run actions (Some s) = Some s1 →
  length (Session.undo s1)
    = ((length (Session.undo s) + edit_count actions) `min` 200)%nat ∧
  ∃ s2, run (replicate (edit_count actions) Undo) (Some s1) = Some s2 ∧
        entries s2 = entries s ∧ notes s2 = notes s ∧
        Session.undo s2
          = drop (length (Session.undo s) + edit_count actions - 200) (Session.undo s).
Proof.
  revert s. induction actions as [|a actions IH]; intros s Hmoves Hlen Hcount Hrun.
  - injection Hrun as <-. change (edit_count []) with 0%nat.
    split; [lia|]. exists s. split_and!; try done.
    replace (length (Session.undo s) + 0 - 200)%nat with 0%nat by lia. done.
  - apply Forall_cons in Hmoves as [Ha Hmoves].
    unfold run in Hrun; simpl in Hrun.
    destruct (HistoryFacts.perform_Some a s) as [s' Hs']. rewrite Hs' in Hrun.
    fold (run actions (Some s')) in Hrun.
    destruct (is_edit a) eqn:Hedit.
    + assert (Hcount' : edit_count (a :: actions) = S (edit_count actions)).
      { unfold edit_count. by rewrite filter_cons_True. }
      rewrite Hcount' in *.
      assert (Hrec : Session.undo s' = keep_last 200 (Session.undo s ++ [snapshotOf s])).
      { destruct a; try done; cbn [perform] in Hs'.
        - destruct (HistoryFacts.record_undo_stack (applyNumber_mutator value) s)
            as (s'' & Hs'' & _ & Hst & _);
            [apply HistoryFacts.applyNumber_mutator_keeps_history|done|].
          unfold applyNumber in Hs'. congruence.
        - destruct (HistoryFacts.record_undo_stack clearCell_mutator s)
            as (s'' & Hs'' & _ & Hst & _);
            [apply HistoryFacts.clearCell_mutator_keeps_history|done|].
          unfold clearCell in Hs'. congruence. }
      assert (Hlen' : length (Session.undo s')
                      = ((length (Session.undo s) + 1) `min` 200)%nat).
      { rewrite Hrec, HistoryFacts.keep_last_length, length_app. simpl. lia. }
      destruct (IH s') as (Hlen1 & s2' & Hrun2 & He & Hn & Hst); [done|lia|lia|done|].
      split; [lia|].
      set (D := (length (Session.undo s) + S (edit_count actions) - 200)%nat).
      assert (Hstack : Session.undo s2' = drop D (Session.undo s) ++ [snapshotOf s]).
      { rewrite Hst, Hlen', Hrec. unfold keep_last. rewrite drop_drop, length_app.
        rewrite <- drop_app_le by (unfold D; lia). f_equal. unfold D. simpl. lia. }
      pose proof (HistoryFacts.undo_snoc s2' _ _ Hstack) as Hundo.
      eexists. split_and!.
      * rewrite replicate_S_end, HistoryFacts.run_snoc, Hrun2. exact Hundo.
      * done.
      * simpl. apply HistoryFacts.cloneNotes_id.
      * done.
    + assert (Hcount' : edit_count (a :: actions) = edit_count actions).
      { unfold edit_count. rewrite filter_cons_False; [done|]. by rewrite Hedit. }
      rewrite Hcount' in *.
      assert (Hframe : entries s' = entries s ∧ notes s' = notes s ∧
                       Session.undo s' = Session.undo s).
      { pose proof (λ H, HistoryFacts.perform_frame a s s' H Hs') as Hf.
        destruct a; try done; destruct (Hf I) as (_ & ? & ? & ? & _); done. }
      destruct Hframe as (He' & Hn' & Hu').
      destruct (IH s') as (Hlen1 & s2 & Hrun2 & He & Hn & Hst);
        [done|by rewrite Hu'|done|done|].
      rewrite Hu', ?He', ?Hn' in *. split; [done|]. by exists s2.
Qed.

(** X8.  Undoing every edit restores the board.  After a run with [n] edits
    ([n] at most 200) and no undo or redo in between, [n] undos bring back
    the entries and the notes the run started from, and [n] redos then bring
    back the whole session the run ended in. *)
Theorem undoing_every_edit_restores_the_board (s s1 : GameSession)
    (actions : list Action) :
  (length (Session.undo s) ≤ 200)%nat →
  Forall (λ a, is_history_move a = false) actions →
  (edit_count actions ≤ 200)%nat →
  run actions (Some s) = Some s1 →
  ∃ s2, run (replicate (edit_count actions) Undo) (Some s1) = Some s2 ∧
        entries s2 = entries s ∧ notes s2 = notes s ∧
        run (replicate (edit_count actions) Redo) (Some s2) = Some s1.
Proof.
  intros Hlen Hmoves Hcount Hrun.
  destruct (unwind actions s s1 Hmoves Hlen Hcount Hrun)
    as (Hlen1 & s2 & Hrun2 & He & Hn & _).
  destruct (undo_redo_all (edit_count actions) s1) as (u & Hu & Hback); [lia|].
  exists s2. split_and!; try done. congruence.
Qed.

Lemma undoing_every_edit_restores_the_board_witness :
  ∃ s1 s2,
    run [Select 2; ApplyNumber 7; ToggleNotesMode; ApplyNumber 3] (Some sample_session)
      = Some s1 ∧
    run [Undo; Undo] (Some s1) = Some s2 ∧
    entries s2 = entries sample_session ∧ notes s2 = notes sample_session ∧
    run [Redo; Redo] (Some s2) = Some s1.
Proof.
  eexists.
  edestruct undoing_every_edit_restores_the_board
    with (s := sample_session)
         (actions := [Select 2; ApplyNumber 7; ToggleNotesMode; ApplyNumber 3])
    as (s2 & H2 & He & Hn & Hback).
  - simpl. lia.
  - repeat constructor.
  - vm_compute. lia.
  - reflexivity.
  - exists s2. split; [reflexivity|]. split; [exact H2|].
    split; [exact He|]. split; [exact Hn|exact Hback].
Defined.

Lemma toggle_note_sorted (values : list Z) (value : Z) :
  StronglySorted Z.le (toggle_note values value) ∧ NoDup (toggle_note values value).
Proof.
  unfold toggle_note. split.
  - apply StronglySorted_merge_sort; apply _.
  - rewrite merge_sort_Permutation.
    pose proof (NoDup_remove_dups values) as Hnd.
    case_decide as Hin.
    + by apply NoDup_filter.
    + apply NoDup_app. split_and!; [done| |apply NoDup_singleton].
      intros x Hx ->%list_elem_of_singleton. done.
Qed.

Lemma elem_of_toggle_note (values : list Z) (value x : Z) :
  x ∈ toggle_note values value ↔
  (x ∈ values ∧ x ≠ value) ∨ (x = value ∧ value ∉ values).
Proof.
  unfold toggle_note. rewrite merge_sort_Permutation.
  case_decide as Hin; rewrite elem_of_remove_dups in Hin.
  - rewrite list_elem_of_filter, elem_of_remove_dups. naive_solver.
  - rewrite elem_of_app, elem_of_remove_dups, list_elem_of_singleton.
    split; [|naive_solver].
    intros [Hx| ->]; [|by right]. left. split; [done|]. by intros ->.
Qed.

Lemma sorted_unique (l k : list Z) :
  StronglySorted Z.le l → NoDup l → StronglySorted Z.le k → NoDup k →
  (∀ x, x ∈ l ↔ x ∈ k) → l = k.
Proof.
  intros Hl Hnl Hk Hnk Hiff. apply (StronglySorted_unique Z.le); [done..|].
  by apply NoDup_Permutation.
Qed.

(** X9.  The notes of a cell after a digit is toggled are in ascending order
    without duplicates; the toggled digit is in them exactly when it was not
    before, and the other digits are kept.  Toggling the same digit twice
    gives the sorted notes without duplicates, hence the original notes when
    these were already so. *)
Theorem toggle_note_toggles (values : list Z) (value : Z) :
  StronglySorted Z.le (toggle_note values value) ∧
  NoDup (toggle_note values value) ∧
  (∀ x, x ∈ toggle_note values value ↔
        (x ∈ values ∧ x ≠ value) ∨ (x = value ∧ value ∉ values)) ∧
  toggle_note (toggle_note values value) value = merge_sort Z.le (remove_dups values) ∧
  (StronglySorted Z.le values → NoDup values →
   toggle_note (toggle_note values value) value = values).
Proof.
  pose proof (toggle_note_sorted values value) as [Hs Hn].
  pose proof (toggle_note_sorted (toggle_note values value) value) as [Hs2 Hn2].
  assert (Hback : ∀ x, x ∈ toggle_note (toggle_note values value) value ↔ x ∈ values).
  { intros x. rewrite !elem_of_toggle_note.
    destruct (decide (x = value)) as [->|Hne];
      destruct (decide (value ∈ values)); naive_solver. }
  split_and!; try done.
  - apply elem_of_toggle_note.
  - apply sorted_unique; try done.
    + apply StronglySorted_merge_sort; apply _.
    + rewrite merge_sort_Permutation. apply NoDup_remove_dups.
    + intros x. by rewrite Hback, merge_sort_Permutation, elem_of_remove_dups.
  - intros Hsv Hnv. by apply sorted_unique.
Qed.

Lemma toggle_note_toggles_witness :
  toggle_note (toggle_note [2; 5; 9] 5) 5 = [2; 5; 9].
Proof.
  destruct (toggle_note_toggles [2; 5; 9] 5) as (_ & _ & _ & _ & H).
  apply H.
  - repeat constructor; lia.
  - apply (bool_decide_unpack _). vm_compute. reflexivity.
Defined.

End SessionFacts.

(** ** The conflict set under edits *)

Module ConflictEditFacts.
Import Sudoku SudokuSpec.

Lemma same_unit_sym (i j : nat) : same_unit i j → same_unit j i.
Proof. unfold same_unit. intros [H|[H|H]]; auto. Qed.

Lemma arr_get_insert {A} (arr : list (option A)) (i j : nat) (x : option A) :
  arr_get (<[i := x]> arr) j
  = if decide (i = j ∧ (i < length arr)%nat) then x else arr_get arr j.
Proof.
  unfold arr_get. case_decide as H.
  - destruct H as [-> H]. by rewrite list_lookup_insert_eq.
  - destruct (decide (i = j)) as [->|Hne].
    + rewrite list_insert_ge by lia. done.
    + by rewrite list_lookup_insert_ne.
Qed.

(** X10.  Conflicts come in pairs: a cell marked by [computeConflicts] lies
    on the board, holds a value, and sees another marked cell with the same
    value; so the set never has exactly one element.  Cells past index 80 are
    ignored. *)
Theorem conflicts_come_in_pairs (values : list (option Z)) :
  (∀ i, i ∈ computeConflicts values →
     (i < 81)%nat ∧
     ∃ v j, arr_get values i = Some v ∧ j ≠ i ∧ same_unit i j ∧
            arr_get values j = Some v ∧ j ∈ computeConflicts values) ∧
  size (computeConflicts values) ≠ 1%nat ∧
  computeConflicts (take 81 values) = computeConflicts values.
Proof.
  assert (Hpair : ∀ i, i ∈ computeConflicts values →
     (i < 81)%nat ∧
     ∃ v j, arr_get values i = Some v ∧ j ≠ i ∧ same_unit i j ∧
            arr_get values j = Some v ∧ j ∈ computeConflicts values).
  { intros i Hi. apply ConflictFacts.elem_of_computeConflicts in Hi
      as (v & Hv & Hlt & j & Hne & Hj & Hunit & Hvj).
    split; [done|]. exists v, j. split_and!; try done.
    apply ConflictFacts.elem_of_computeConflicts. exists v. split_and!; try done.
    exists i. split_and!; try done. by apply same_unit_sym. }
  split_and!.
  - exact Hpair.
  - intros Hsize. apply size_1_elem_of in Hsize as [i Hi].
    assert (Hin : i ∈ computeConflicts values) by (rewrite Hi; set_solver).
    destruct (Hpair i Hin) as (_ & v & j & _ & Hne & _ & _ & Hj).
    rewrite Hi in Hj. set_solver.
  - apply set_eq. intros i. rewrite !ConflictFacts.elem_of_computeConflicts.
    unfold arr_get.
    split; intros (v & Hv & Hlt & j & Hne & Hj & Hunit & Hvj);
      exists v; (split_and!; [|done|exists j; split_and!; try done]).
    + by rewrite lookup_take_lt in Hv.
    + by rewrite lookup_take_lt in Hvj.
    + by rewrite lookup_take_lt.
    + by rewrite lookup_take_lt.
Qed.

(** X11.  How an edit changes the conflicts.  Clearing a cell adds no
    conflict and the cleared cell is not marked.  Entering a value marks,
    besides cells already marked, only the edited cell and the cells it sees
    that hold this value; the edited cell is marked exactly when a cell it
    sees holds the value. *)
Theorem conflicts_after_an_edit (values : list (option Z)) (index : nat) :
  computeConflicts (<[index := None]> values) ⊆ computeConflicts values ∧
  ((index < length values)%nat → index ∉ computeConflicts (<[index := None]> values)) ∧
  (∀ value j, j ∈ computeConflicts (<[index := Some value]> values) →
     j ∈ computeConflicts values ∨ j = index ∨
     (same_unit index j ∧ arr_get values j = Some value)) ∧
  (∀ value,
     (index < length values)%nat → (index < 81)%nat →
     (index ∈ computeConflicts (<[index := Some value]> values) ↔
      ∃ j, j ≠ index ∧ (j < 81)%nat ∧ same_unit index j ∧ arr_get values j = Some value)).
Proof.
  split_and!.
  - intros i. rewrite !ConflictFacts.elem_of_computeConflicts.
    intros (v & Hv & Hlt & j & Hne & Hj & Hunit & Hvj).
    rewrite arr_get_insert in Hv, Hvj.
    case_decide; [done|]. case_decide; [done|].
    exists v. split_and!; try done. exists j. by split_and!.
  - intros Hlen. rewrite ConflictFacts.elem_of_computeConflicts.
    intros (v & Hv & _). rewrite arr_get_insert in Hv.
    by rewrite decide_True in Hv.
  - intros value j. rewrite !ConflictFacts.elem_of_computeConflicts.
    intros (v & Hv & Hlt & k & Hne & Hk & Hunit & Hvk).
    rewrite arr_get_insert in Hv, Hvk.
    destruct (decide (index = j ∧ _)) as [[-> _]|Hj]; [by right; left|].
    destruct (decide (index = k ∧ _)) as [[-> _]|Hk'].
    + injection Hvk as <-. right. right. split; [by apply same_unit_sym|done].
    + left. exists v. split_and!; try done. exists k. by split_and!.
  - intros value Hlen Hlt. rewrite ConflictFacts.elem_of_computeConflicts.
    rewrite arr_get_insert, decide_True by done.
    split.
    + intros (v & [= <-] & _ & j & Hne & Hj & Hunit & Hvj).
      rewrite arr_get_insert, decide_False in Hvj by (intros [? ?]; congruence).
      exists j. by split_and!.
    + intros (j & Hne & Hj & Hunit & Hvj). exists value. split_and!; try done.
      exists j. split_and!; try done.
      rewrite arr_get_insert, decide_False by (intros [? ?]; congruence). done.
Qed.

Lemma conflicts_after_an_edit_witness :
  0%nat ∈ computeConflicts (<[0%nat := Some 5]> [None; Some 5]) ↔
  ∃ j, j ≠ 0%nat ∧ (j < 81)%nat ∧ same_unit 0 j ∧ arr_get [None; Some 5] j = Some 5.
Proof.
  destruct (conflicts_after_an_edit [None; Some 5] 0) as (_ & _ & _ & H).
  apply (H 5); simpl; lia.
Defined.

End ConflictEditFacts.

(** ** The engine path and the packs of [main] *)

Module EngineFacts.
Import Sudoku Generator Engine SudokuSpec GeneratorSpec EngineSpec.

Lemma is_digit19_digit (c : ascii) :
  is_digit19 c = true → is_Some (digit_of_char c).
Proof.
  unfold is_digit19, digit_of_char. intros H.
  apply andb_true_iff in H as [H1 H2].
  apply Nat.leb_le in H1, H2.
  replace (49 <=? _) with true by (symmetry; apply Z.leb_le; lia).
  replace (_ <=? 57) with true by (symmetry; apply Z.leb_le; lia).
  by eexists.
Qed.

Lemma normalize_puzzle_alphabet (puzzle : string) :
  Forall in_alphabet (list_ascii_of_string (normalize_puzzle puzzle)).
Proof.
  unfold normalize_puzzle. rewrite list_ascii_of_string_of_list_ascii.
  apply Forall_fmap, Forall_forall. intros c Hc.
  apply list_elem_of_filter in Hc as [Hc _]. simpl.
  case_decide; [by left|].
  unfold is_puzzle_char in Hc.
  apply orb_true_iff in Hc as [Hc|Hc]; [apply orb_true_iff in Hc as [Hc|Hc]|].
  - right. by apply is_digit19_digit.
  - apply bool_decide_eq_true in Hc as ->. by left.
  - by apply bool_decide_eq_true in Hc.
Qed.

Lemma normalize_solution_digits (solution : string) :
  Forall (λ c, is_Some (digit_of_char c))
         (list_ascii_of_string (normalize_solution solution)).
Proof.
  unfold normalize_solution. rewrite list_ascii_of_string_of_list_ascii.
  apply Forall_forall. intros c Hc.
  apply list_elem_of_filter in Hc as [Hc _]. by apply is_digit19_digit.
Qed.

Lemma accepted_answer_valid (call : EngineCall) (answer : string * string) :
  accepted_answer call = Some answer →
  well_formed answer.1 ∧ is_solution answer.2.
Proof.
  destruct call as [|[[puzzle solution]|]]; try done. simpl.
  case_decide as H; [|done]. intros [= <-]. simpl.
  destruct H as (_ & _ & Hp & Hs). split.
  - split; [done|apply normalize_puzzle_alphabet].
  - split; [done|apply normalize_solution_digits].
Qed.

Lemma engine_loop_filter (difficulty : Difficulty) (count : nat)
    (calls : list EngineCall) (items : list GeneratedPuzzle) :
  engine_loop difficulty count calls items =
    let kept := accepted (before_throw calls) in
    if decide (count - length items ≤ length kept)%nat then
      Some (Ok (items ++ imap (λ k, engine_record difficulty (length items + k))
                              (take (count - length items) kept)))
    else if decide (EngineThrows ∈ calls) then Some (Throw ()) else None.
Proof.
  revert items. induction calls as [|call calls IH]; intros items;
    cbn [engine_loop]; cbv zeta.
  - change (accepted (before_throw [])) with (@nil (string * string)).
    destruct (decide (length items < count)%nat) as [Hlt|Hlt].
    + rewrite decide_False by (simpl; lia). rewrite decide_False by set_solver. done.
    + rewrite decide_True by (simpl; lia).
      replace (count - length items)%nat with 0%nat by lia.
      by rewrite app_nil_r.
  - destruct (decide (length items < count)%nat) as [Hlt|Hlt].
    2:{ rewrite decide_True by lia.
        replace (count - length items)%nat with 0%nat by lia.
        by rewrite app_nil_r. }
    destruct call as [|[[puzzle solution]|]].
    + change (accepted (before_throw (EngineThrows :: calls)))
        with (@nil (string * string)).
      rewrite decide_False by (simpl; lia). rewrite decide_True by set_solver. done.
    + assert (Hkept : accepted (before_throw (EngineReturns (Some (puzzle, solution)) :: calls))
                = match accepted_answer (EngineReturns (Some (puzzle, solution))) with
                  | Some answer => answer :: accepted (before_throw calls)
                  | None => accepted (before_throw calls)
                  end) by reflexivity.
      rewrite Hkept. clear Hkept.
      assert (Hin : EngineThrows ∈ EngineReturns (Some (puzzle, solution)) :: calls
                    ↔ EngineThrows ∈ calls) by set_solver.
      unfold accepted_answer.
      destruct (decide (puzzle = EmptyString ∨ solution = EmptyString)) as [Hempty|Hfull].
      { rewrite (decide_False (P := _ ∧ _)) by tauto. rewrite IH. cbv zeta.
        repeat case_decide; try done; tauto. }
      destruct (decide (String.length (normalize_puzzle puzzle) ≠ 81%nat
                        ∨ String.length (normalize_solution solution) ≠ 81%nat))
        as [Hbad|Hgood].
      { rewrite (decide_False (P := _ ∧ _)) by tauto. rewrite IH. cbv zeta.
        repeat case_decide; try done; tauto. }
      rewrite (decide_True (P := _ ∧ _))
        by (split_and!; [tauto..
                        |destruct (decide (String.length (normalize_puzzle puzzle) = 81%nat)); tauto
                        |destruct (decide (String.length (normalize_solution solution) = 81%nat)); tauto]).
      rewrite IH. cbv zeta. rewrite length_app. cbn [length].
      destruct (count - length items)%nat as [|n] eqn:Hn; [lia|].
      replace (count - (length items + 1))%nat with n by lia.
      destruct (decide (n ≤ length (accepted (before_throw calls)))%nat).
      * rewrite decide_True by (simpl; lia). rewrite <- app_assoc. cbn [take imap app].
        do 3 f_equal. f_equal.
        { unfold engine_record. by rewrite Nat.add_0_r. }
        apply imap_ext. intros k answer _. simpl. f_equal. lia.
      * rewrite (decide_False (P := (_ ≤ _)%nat)) by (simpl; lia).
        repeat case_decide; try done; tauto.
    + assert (Hin : EngineThrows ∈ EngineReturns None :: calls
                    ↔ EngineThrows ∈ calls) by set_solver.
      rewrite IH. cbv zeta. change (accepted (before_throw (EngineReturns None :: calls)))
        with (accepted (before_throw calls)).
      repeat case_decide; try done; tauto.
Qed.

(** X12.  What the engine path returns.  Without the engine module the
    import throws.  With it, the loop keeps the answers that have two
    non-empty strings whose normalised forms have 81 characters, in the order
    they come, numbered from 1, until it has [count] of them; an exception of
    the engine before that escapes; and if the engine neither throws nor
    gives enough such answers the loop never ends ([None]: the answers at
    hand are used up). *)
Theorem generateWithEngine_keeps_first_valid_answers (difficulty : Difficulty)
    (count : nat) (calls : list EngineCall) :
  generateWithEngine false difficulty count calls = Some (Throw ()) ∧
  generateWithEngine true difficulty count calls =
    (let kept := accepted (before_throw calls) in
     if decide (count ≤ length kept)%nat then
       Some (Ok (imap (engine_record difficulty) (take count kept)))
     else if decide (EngineThrows ∈ calls) then Some (Throw ()) else None).
Proof.
  split; [done|].
  unfold generateWithEngine. rewrite engine_loop_filter.
  cbv zeta. cbn [length app]. by rewrite Nat.sub_0_r.
Qed.

Lemma accepted_valid (calls : list EngineCall) :
  Forall (λ answer, well_formed answer.1 ∧ is_solution answer.2) (accepted calls).
Proof.
  apply Forall_forall. intros answer Hin. unfold accepted in Hin.
  apply list_elem_of_omap in Hin as (call & _ & Hcall).
  by eapply accepted_answer_valid.
Qed.

Lemma known_solution_complete (k : nat) : is_solution (known_solution k).
Proof.
  assert (H : Forall is_solution knownSolutions).
  { repeat constructor; apply (bool_decide_unpack _); vm_compute; reflexivity. }
  rewrite Forall_lookup in H. eapply H, GeneratorFacts.known_solution_in_pool.
Qed.

Lemma parseGrid_Ok_well_formed (grid : string) (cells : list (option Z)) :
  parseGrid grid = Ok cells → well_formed grid.
Proof.
  unfold parseGrid. case_decide as Hlen; [done|]. intros Hmap.
  pose proof (CodecFacts.map_throwing_parse_char (list_ascii_of_string grid)) as H.
  rewrite Hmap in H. destruct H as [H _]. split; [|done].
  unfold BOARD_SIZE in Hlen. by destruct (decide (String.length grid = 81%nat)).
Qed.

Lemma well_formed_parseGrid (grid : string) :
  well_formed grid → ∃ cells, parseGrid grid = Ok cells.
Proof.
  intros [Hlen Hchars]. unfold parseGrid.
  rewrite decide_False by (unfold BOARD_SIZE; by intros []).
  rewrite GeneratorFacts.map_throwing_parse_char_Ok by done. eauto.
Qed.

Lemma main_pack_valid (available : bool) (d : Difficulty) (calls : list EngineCall)
    (pack : list GeneratedPuzzle) :
  main_pack available d calls = Some pack →
  length pack = COUNT ∧
  ∀ k p, pack !! k = Some p →
         id p = (difficulty_name d ++ "-" ++ decimal (k + 1))%string ∧
         difficulty p = d ∧
         well_formed (puzzle p) ∧ is_solution (solution p).
Proof.
  assert (Hfallback : length (generateFallback d COUNT) = COUNT ∧
    ∀ k p, generateFallback d COUNT !! k = Some p →
         id p = (difficulty_name d ++ "-" ++ decimal (k + 1))%string ∧
         difficulty p = d ∧
         well_formed (puzzle p) ∧ is_solution (solution p)).
  { split; [unfold generateFallback; by rewrite length_fmap, length_seq|].
    intros k p Hp.
    assert (Hk : (k < COUNT)%nat).
    { apply lookup_lt_Some in Hp.
      unfold generateFallback in Hp. by rewrite length_fmap, length_seq in Hp. }
    rewrite GeneratorFacts.generateFallback_lookup in Hp by done.
    injection Hp as <-. simpl.
    pose proof (known_solution_complete k) as Hsol.
    split_and!; try done.
    destruct (GeneratorFacts.carve_round_trip_exact (known_solution k)
                (blanksByDifficulty d) (Z.of_nat k + 11) Hsol) as (cells & Hparse & _).
    { destruct d; simpl; lia. }
    by eapply parseGrid_Ok_well_formed. }
  unfold main_pack.
  destruct available.
  2:{ simpl. by intros [= <-]. }
  unfold generateWithEngine. rewrite engine_loop_filter.
  cbv zeta. cbn [length app]. rewrite Nat.sub_0_r.
  cbv zeta. case_decide as Hcount.
  - intros [= <-]. split.
    + rewrite length_imap, length_take. lia.
    + intros k p Hp. rewrite list_lookup_imap in Hp.
      destruct (take COUNT (accepted (before_throw calls)) !! k) as [answer|] eqn:Hk;
        [|done].
      injection Hp as <-. simpl.
      apply lookup_take_Some in Hk as [Hk _].
      pose proof (accepted_valid (before_throw calls)) as Hvalid.
      rewrite Forall_lookup in Hvalid. destruct (Hvalid k answer Hk). done.
  - case_decide; [|done]. by intros [= <-].
Qed.

Lemma loaded_lookup (pack : list GeneratedPuzzle) (k : nat) :
  loaded pack !! k =
    (λ p, {| Session.id := id p; Session.difficulty := difficulty p;
             Session.puzzle := puzzle p; Session.solution := solution p |})
    <$> pack !! k.
Proof. unfold loaded. by rewrite list_lookup_fmap. Qed.

(** X13.  Every pack that [main] writes can be played.  Whether it comes
    from the engine or from the fallback generator, it has 40 puzzles with
    the distinct ids [difficulty-1] .. [difficulty-40]; every puzzle string
    is a well-formed grid and every solution string has 81 digits; and once
    the pack is loaded, [createSession] and [startNew] succeed at every
    index. *)
Theorem main_pack_can_be_played (available : bool) (d : Difficulty)
    (calls : list EngineCall) (pack : list GeneratedPuzzle) :
  main_pack available d calls = Some pack →
  length pack = 40%nat ∧
  NoDup (id <$> pack) ∧
  (∀ k p, pack !! k = Some p →
          id p = (difficulty_name d ++ "-" ++ decimal (k + 1))%string ∧
          difficulty p = d ∧
          well_formed (puzzle p) ∧ is_solution (solution p)) ∧
  (∀ index, ∃ s, Session.createSession (λ _, loaded pack) d index = Ok s ∧
                 Screens.startNew (λ _, loaded pack) d index = Ok (Some s, Screens.play)).
Proof.
  intros Hpack. destruct (main_pack_valid _ _ _ _ Hpack) as [Hlen Hvalid].
  change COUNT with 40%nat in Hlen.
  split_and!; try done.
  - apply NoDup_alt. intros i j x Hi Hj.
    rewrite list_lookup_fmap in Hi, Hj.
    destruct (pack !! i) as [p|] eqn:Hp; [|done].
    destruct (pack !! j) as [q|] eqn:Hq; [|done].
    simpl in Hi, Hj. destruct (Hvalid i p Hp) as [Hidp _].
    destruct (Hvalid j q Hq) as [Hidq _].
    assert (Heq : (difficulty_name d ++ "-" ++ decimal (i + 1))%string
                  = (difficulty_name d ++ "-" ++ decimal (j + 1))%string) by congruence.
    apply GeneratorFacts.string_app_inv_head in Heq. injection Heq as Heq.
    apply GeneratorFacts.decimal_inj in Heq. lia.
  - intros index. unfold Screens.startNew, Session.createSession.
    assert (Hne : loaded pack ≠ []).
    { intros Hnil. apply (f_equal length) in Hnil. unfold loaded in Hnil.
      rewrite length_fmap, Hlen in Hnil. done. }
    rewrite (SessionFacts.puzzleAt_mod (λ _, loaded pack) d index Hne).
    set (k := Z.to_nat (index mod Z.of_nat (length (loaded pack)))).
    assert (Hk : (k < length pack)%nat).
    { unfold k, loaded. rewrite length_fmap.
      pose proof (Z.mod_pos_bound index (Z.of_nat (length pack))). lia. }
    apply lookup_lt_is_Some in Hk as [p Hp].
    rewrite loaded_lookup, Hp. simpl.
    destruct (Hvalid k p Hp) as (_ & _ & Hwf & _).
    destruct (well_formed_parseGrid _ Hwf) as [cells ->]. eauto.
Qed.

Lemma main_pack_can_be_played_witness :
  ∃ s, Session.createSession (λ _, loaded (generateFallback hard 40)) hard 41 = Ok s.
Proof.
  destruct (main_pack_can_be_played false hard [] (generateFallback hard 40))
    as (_ & _ & _ & H).
  - reflexivity.
  - destruct (H 41) as (s & Hs & _). exists s. exact Hs.
Defined.

End EngineFacts.

(** ** [carve] for every seed *)

Module CarveFacts.
Import Sudoku Generator CarveReference SudokuSpec GeneratorSpec.

Lemma unit_class_iff (seed : Z) :
  unit_class seed ↔ seed mod 2 ^ 32 = unit_seed.
Proof.
  unfold unit_class, next_state, seeded, to_uint32, unit_seed.
  change (2 ^ 32) with 4294967296.
  pose proof (Z.mod_pos_bound seed 4294967296) as Hx.
  set (x := seed mod 4294967296) in *.
  split.
  - intros H.
    pose proof (Z.div_mod (x * 1664525 + 1013904223) 4294967296) as Hq.
    rewrite H in Hq.
    set (q := (x * 1664525 + 1013904223) / 4294967296) in *. lia.
  - intros ->. reflexivity.
Qed.

(** X14.  The carved string always parses, every cell of the parsed grid is
    empty or holds the digit of the solution, and the number of empty cells
    is exactly [blanks], except when [blanks] is 81 and the seed is congruent
    to 653637408 modulo [2^32]: then 80 cells are empty. *)
Theorem carve_blanks_exactly (solution : string) (blanks : nat) (seed : Z) :
  is_solution solution →
  (blanks ≤ 81)%nat →
  ∃ cells,
    parseGrid (carve solution blanks seed) = Ok cells ∧
    empty_count cells
      = (if decide (seed mod 2 ^ 32 = 653637408 ∧ blanks = 81%nat)
         then 80%nat else blanks) ∧
    ∀ i c, list_ascii_of_string solution !! i = Some c →
           cells !! i = Some None ∨ cells !! i = Some (digit_of_char c).
Proof.
  intros Hsol Hblanks.
  destruct (GeneratorFacts.carve_round_trip_exact solution blanks seed Hsol Hblanks)
    as (cells & Hparse & Hcount & Hcells).
  exists cells. split_and!; try done.
  rewrite Hcount. pose proof (unit_class_iff seed) as Hiff. unfold unit_seed in Hiff.
  repeat case_decide; try done; tauto.
Qed.

Lemma carve_blanks_exactly_witness :
  ∃ cells, parseGrid (carve first_solution 54 11) = Ok cells ∧
           empty_count cells = 54%nat.
Proof.
  destruct (carve_blanks_exactly first_solution 54 11) as (cells & H1 & H2 & _).
  - split; [reflexivity|]. apply (bool_decide_unpack _). vm_compute. reflexivity.
  - lia.
  - exists cells. split; [exact H1|exact H2].
Defined.

(** X15.  The shuffle of [carve].  For every seed that is not congruent to
    653637408 modulo [2^32] all swaps stay inside the array and the shuffled
    array is a permutation of the indices 0..80.  For the other seeds the
    first swap writes past the end: the array has 82 slots, slot 80 is
    [undefined] and slot 81 holds the index 80. *)
Theorem shuffled_is_a_permutation (seed : Z) :
  (seed mod 2 ^ 32 ≠ 653637408 →
   in_range seed ∧
   ∃ order, shuffled seed = Some <$> order ∧ order ≡ₚ seq 0 81) ∧
  (seed mod 2 ^ 32 = 653637408 →
   ¬ in_range seed ∧
   length (shuffled seed) = 82%nat ∧
   arr_get (shuffled seed) 80 = None ∧
   arr_get (shuffled seed) 81 = Some 80%nat).
Proof.
  pose proof (unit_class_iff seed) as Hiff. unfold unit_seed in Hiff.
  pose proof (GeneratorFacts.in_range_iff seed) as Hrange.
  split.
  - intros Hne. assert (Hin : in_range seed) by tauto. split; [done|].
    exists (shuffled_order seed). split.
    + by apply GeneratorFacts.shuffled_reference.
    + apply GeneratorFacts.shuffled_order_Permutation.
  - intros Heq. assert (Hunit : unit_class seed) by tauto.
    split; [tauto|].
    rewrite (GeneratorFacts.shuffled_unit_class seed Hunit).
    destruct GeneratorFacts.unit_order_facts as (_ & _ & Hlen).
    unfold arr_get.
    rewrite length_app, length_fmap, Hlen.
    rewrite !lookup_app_r by (rewrite length_fmap, Hlen; lia).
    rewrite length_fmap, Hlen. done.
Qed.

Lemma shuffled_is_a_permutation_witness :
  ∃ order, shuffled 11 = Some <$> order ∧ order ≡ₚ seq 0 81.
Proof.
  destruct (shuffled_is_a_permutation 11) as [H _].
  destruct H as [_ H]; [vm_compute; discriminate|]. exact H.
Defined.

Lemma carve_order (solution : string) (seed : Z) :
  String.length solution = 81%nat →
  ∃ order, ∀ blanks, (blanks ≤ 81)%nat →
    carve solution blanks seed = blank_at (take blanks order) solution.
Proof.
  intros Hlen. destruct (decide (unit_class seed)) as [Hunit|Hunit].
  - exists unit_order. intros blanks Hb.
    by apply GeneratorFacts.carve_unit_class.
  - exists (shuffled_order seed). intros blanks Hb.
    rewrite GeneratorFacts.carve_reference_in_range; [done|done|].
    by apply GeneratorFacts.in_range_iff.
Qed.

Lemma blank_at_lookup (targets : list nat) (solution : string) (i : nat) :
  list_ascii_of_string (blank_at targets solution) !! i
  = (λ c, if decide (i ∈ targets) then "."%char else c)
    <$> list_ascii_of_string solution !! i.
Proof.
  unfold blank_at. by rewrite list_ascii_of_string_of_list_ascii, list_lookup_imap.
Qed.

(** X16.  On a string of 81 characters [carve] only ever replaces characters
    by dots: the result has 81 characters, no blank at all means the string
    is returned as it is, and for one seed the puzzles are nested, a cell
    blanked with [blanks] blanks staying blanked with more. *)
Theorem carve_blanks_are_nested (solution : string) (seed : Z) (blanks blanks' : nat) :
  String.length solution = 81%nat →
  (blanks ≤ blanks')%nat → (blanks' ≤ 81)%nat →
  String.length (carve solution blanks seed) = 81%nat ∧
  carve solution 0 seed = solution ∧
  (∀ i c, list_ascii_of_string (carve solution blanks seed) !! i = Some c →
          c = "."%char ∨ list_ascii_of_string solution !! i = Some c) ∧
  (∀ i, list_ascii_of_string (carve solution blanks seed) !! i = Some "."%char →
        list_ascii_of_string (carve solution blanks' seed) !! i = Some "."%char).
Proof.
  intros Hlen Hle Hle'. destruct (carve_order solution seed Hlen) as [order Horder].
  rewrite !Horder by lia. split_and!.
  - rewrite <- CodecFacts.length_list_ascii_of_string. unfold blank_at.
    rewrite list_ascii_of_string_of_list_ascii, length_imap.
    by rewrite CodecFacts.length_list_ascii_of_string.
  - unfold blank_at. rewrite take_0.
    rewrite (imap_ext _ (const Datatypes.id))
      by (intros; by rewrite decide_False by set_solver).
    rewrite imap_const, list_fmap_id. apply string_of_list_ascii_of_string.
  - intros i c. rewrite blank_at_lookup.
    destruct (list_ascii_of_string solution !! i) as [c'|]; [|done]. simpl.
    intros [= <-]. case_decide; [by left|by right].
  - intros i. rewrite !blank_at_lookup.
    destruct (list_ascii_of_string solution !! i) as [c'|]; [|done]. simpl.
    intros [= Hc]. f_equal.
    destruct (decide (i ∈ take blanks order)) as [Hin|Hout].
    + rewrite decide_True; [done|].
      replace blanks with (blanks `min` blanks')%nat in Hin by lia.
      rewrite <- take_take in Hin. by apply (subseteq_take blanks).
    + by case_decide.
Qed.

Lemma carve_blanks_are_nested_witness :
  carve first_solution 0 11 = first_solution.
Proof.
  destruct (carve_blanks_are_nested first_solution 11 0 0) as (_ & H & _).
  - reflexivity.
  - lia.
  - lia.
  - exact H.
Defined.

(** X17.  The index drawn by [Math.floor(rand() * (i + 1))], computed in
    binary64, is at most [i + 1] for every state of the generator and every
    [i] up to 80, and for [i = 80] it is inside the array of 81 indices for
    every state but [2^32 - 1]. *)
Theorem draw_stays_below_the_bound (state : Z) (i : nat) :
  0 ≤ state < 2 ^ 32 → (i ≤ 80)%nat →
  (pick (stream_value state) i ≤ i + 1)%nat ∧
  (state ≠ 2 ^ 32 - 1 → (pick (stream_value state) 80 < 81)%nat).
Proof.
  intros Hstate Hi. split.
  - by apply FloatFacts.pick_le_succ.
  - intros Hne. pose proof (FloatFacts.pick_80_le state). lia.
Qed.

Lemma draw_stays_below_the_bound_witness :
  (pick (stream_value 7) 80 ≤ 81)%nat.
Proof.
  destruct (draw_stays_below_the_bound 7 80) as [H _]; [lia|lia|]. exact H.
Defined.

End CarveFacts.

(** ** The keyboard and the next puzzle *)

Module KeyboardFacts.
Import Sudoku Session App Screens Keyboard SudokuSpec HistorySpec ComponentSpec.

Lemma onKeyDown_idle (screen : Screen) (s : GameSession) (key : Key) (a : Action) :
  (selected s = None ∨
   ∃ index, selected s = Some index ∧ givens s !! index = Some true) →
  onKeyDown screen (Some s) key = Some a →
  is_edit a = false ∧ is_history_move a = false.
Proof.
  intros Hidle. unfold onKeyDown. case_decide; [done|].
  destruct key; try (by intros [= <-]);
    (case_decide; [by intros [= <-]|]);
    destruct Hidle as [->|(index & -> & Hg)]; try done; by rewrite Hg.
Qed.

(** X18.  The keyboard leaves givens alone.  Off the play screen a key does
    nothing.  While no cell is selected, or the selected cell is a given, no
    key changes the givens, the entries, the notes or either stack: digit
    and delete keys are dropped before any snapshot is taken.  On a selected
    cell that is not a given, the keys ['1'] to ['9'] act as [applyNumber]
    with their digit, and [Backspace], [Delete] and ['0'] as [clearCell]. *)
Theorem keyboard_leaves_givens_alone (screen : Screen) (s : GameSession) (key : Key) :
  (screen ≠ play → keystroke screen key (Some s) = Some s) ∧
  ((selected s = None ∨
    ∃ index, selected s = Some index ∧ givens s !! index = Some true) →
   ∃ s', keystroke screen key (Some s) = Some s' ∧
         givens s' = givens s ∧ entries s' = entries s ∧ notes s' = notes s ∧
         Session.undo s' = Session.undo s ∧ Session.redo s' = Session.redo s) ∧
  (∀ index c d,
     screen = play → selected s = Some index → givens s !! index ≠ Some true →
     digit_of_char c = Some d →
     1 ≤ d ≤ 9 ∧
     keystroke screen (Character c) (Some s) = applyNumber d (Some s)) ∧
  (∀ index,
     screen = play → selected s = Some index → givens s !! index ≠ Some true →
     key = Backspace ∨ key = Delete ∨ key = Character "0" →
     keystroke screen key (Some s) = clearCell (Some s)).
Proof.
  split_and!.
  - intros Hscreen. unfold keystroke, onKeyDown. by rewrite decide_True.
  - intros Hidle. unfold keystroke.
    destruct (onKeyDown screen (Some s) key) as [a|] eqn:Ha.
    + destruct (onKeyDown_idle _ _ _ _ Hidle Ha) as [Hedit Hmove].
      destruct (HistoryFacts.perform_Some a s) as [s' Hs']. exists s'.
      split; [done|].
      pose proof (λ H, HistoryFacts.perform_frame a s s' H Hs') as Hframe.
      destruct a; try done; by destruct (Hframe I) as (? & ? & ? & ? & ?).
    + by exists s.
  - intros index c d -> Hsel Hgiven Hd.
    assert (Hrange : 1 ≤ d ≤ 9 ∧ (49 ≤ nat_of_ascii c ≤ 57)%nat).
    { unfold digit_of_char in Hd. destruct (_ && _) eqn:E; [|done].
      injection Hd as <-. apply andb_true_iff in E as [E1 E2].
      apply Z.leb_le in E1, E2. lia. }
    split; [tauto|].
    assert (Hnum : js_Number c = Some d) by (by apply UtilsFacts.js_Number_digit).
    unfold keystroke, onKeyDown. rewrite decide_False by (by intros []).
    rewrite Hsel.
    rewrite decide_False.
    2:{ intros [[= ->]|[= ->]]; vm_compute in Hrange; lia. }
    replace (default false (givens s !! index)) with false
      by (by destruct (givens s !! index) as [[]|]).
    replace ((49 <=? nat_of_ascii c)%nat && (nat_of_ascii c <=? 57)%nat) with true
      by (symmetry; apply andb_true_iff; split; apply Nat.leb_le; lia).
    rewrite Hnum. reflexivity.
  - intros index -> Hsel Hgiven Hkey.
    unfold keystroke, onKeyDown. rewrite decide_False by (by intros []).
    rewrite Hsel.
    replace (default false (givens s !! index)) with false
      by (by destruct (givens s !! index) as [[]|]).
    destruct Hkey as [Hk|[Hk|Hk]]; rewrite Hk; reflexivity.
Qed.

Lemma keyboard_leaves_givens_alone_witness :
  ∃ s', keystroke play (Character "7") (Some (with_selected sample_session (Some 2%nat)))
        = Some s' ∧
        entries s' = entries sample_session ∧ Session.undo s' = [].
Proof.
  destruct (keyboard_leaves_givens_alone play
              (with_selected sample_session (Some 2%nat)) (Character "7"))
    as (_ & H & _).
  destruct H as (s' & Hs' & _ & He & _ & Hu & _).
  - right. exists 2%nat. split; reflexivity.
  - exists s'. split; [exact Hs'|]. split; [exact He|exact Hu].
Defined.

(** X19.  The button [Next puzzle] cycles through the pack: on a non-empty
    pack of well-formed puzzles it starts, on the play screen and at the same
    difficulty, the puzzle that follows the current one, and after the last
    puzzle of the pack the first one. *)
Theorem next_puzzle_cycles (packs : Difficulty → list Puzzle) (s : GameSession) :
  let pack := packs (session_difficulty s) in
  let len := Z.of_nat (length pack) in
  pack ≠ [] →
  Forall (λ p, well_formed (puzzle p)) pack →
  ∃ s' p,
    nextPuzzle packs s = Ok (Some s', play) ∧
    session_difficulty s' = session_difficulty s ∧
    puzzleIndex s' = (puzzleIndex s + 1) mod len ∧
    pack !! Z.to_nat (puzzleIndex s') = Some p ∧
    session_puzzle s' = p ∧
    parseGrid (puzzle p) = Ok (entries s') ∧
    (puzzleIndex s = len - 1 → puzzleIndex s' = 0).
Proof.
  intros pack len Hne Hwf.
  assert (Hlen : 0 < len) by (unfold len; destruct pack; [done|simpl; lia]).
  pose proof (Z.mod_pos_bound (puzzleIndex s + 1) len Hlen) as Hbound.
  destruct (pack !! Z.to_nat ((puzzleIndex s + 1) mod len)) as [p|] eqn:Hp.
  2:{ apply lookup_ge_None in Hp. lia. }
  assert (Hp_wf : well_formed (puzzle p)).
  { rewrite Forall_lookup in Hwf. by eapply Hwf. }
  unfold nextPuzzle, startNew, createSession.
  rewrite (SessionFacts.puzzleAt_mod packs _ _ Hne).
  fold pack. fold len. rewrite Hp. simpl.
  rewrite (SessionFacts.parseGrid_well_formed _ Hp_wf).
  eexists _, p. split; [reflexivity|]. simpl. split_and!; try done.
  - by apply SessionFacts.parseGrid_well_formed.
  - intros ->. replace (len - 1 + 1) with (0 + 1 * len) by lia.
    by rewrite Z.mod_add by lia.
Qed.

Lemma next_puzzle_cycles_witness :
  ∃ s', nextPuzzle sample_packs sample_session = Ok (Some s', play) ∧
        puzzleIndex s' = 0.
Proof.
  destruct (next_puzzle_cycles sample_packs sample_session)
    as (s' & p & Hs' & _ & _ & _ & _ & _ & Hlast).
  - discriminate.
  - apply Forall_singleton. split; [reflexivity|].
    apply (bool_decide_unpack _). vm_compute. reflexivity.
  - exists s'. split; [exact Hs'|]. apply Hlast. reflexivity.
Defined.

End KeyboardFacts.
